(** * uv-vscode-extension: command execution, caching and status core

    A shallow embedding of the TypeScript sources
    ([uvExecutor.ts], [statusBar.ts], [httpServerManager.ts]) and the
    properties of the execution layer that can be checked on them.

    Conventions.
    - Times are [Z] milliseconds, the value of [Date.now()].
    - A JS [Map<string, _>] is a [gmap string _].
    - An [async] method that awaits external events is a step function of
      an explicit state; the events of the host (process exit, timers,
      callers) are constructors of an event type, and a run is a list of
      events. *)

From Stdlib Require Import ZArith List Bool Ascii Lia.
From stdpp Require Import base option gmap strings list pretty.

Set Default Proof Using "Type".

(** * Part I: the model *)

(** ** JavaScript strings

    Strings are byte strings.  The texts the extension handles in the
    functions modelled here (versions, toolchain identifiers, command
    output) are ASCII; the character classes below are the ASCII part of
    the JS ones. *)

Module Js.
(** JS truthiness of a string: [!s] holds of the empty string only. *)
Definition truthy (s : string) : bool :=
  match s with EmptyString => false | _ => true end.

(** [s.includes(needle)] *)
Fixpoint includes (needle s : string) : bool :=
  if String.prefix needle s then true
  else match s with
       | EmptyString => false
       | String _ rest => includes needle rest
       end.

(** [s.toLowerCase()], on the ASCII letters. *)
Definition lower (c : ascii) : ascii :=
  let n := nat_of_ascii c in
  if (65 <=? n)%nat && (n <=? 90)%nat then ascii_of_nat (n + 32) else c.

Fixpoint toLowerCase (s : string) : string :=
  match s with
  | EmptyString => EmptyString
  | String c rest => String (lower c) (toLowerCase rest)
  end.

(** [\d] *)
Definition isDigit (c : ascii) : bool :=
  let n := nat_of_ascii c in (48 <=? n)%nat && (n <=? 57)%nat.

(** The white space [String.prototype.trim] removes, within ASCII: tab,
    line feed, vertical tab, form feed, carriage return, space. *)
Definition isSpace (c : ascii) : bool :=
  let n := nat_of_ascii c in
  ((9 <=? n)%nat && (n <=? 13)%nat) || (n =? 32)%nat.

Fixpoint trimStart (s : string) : string :=
  match s with
  | EmptyString => EmptyString
  | String c rest => if isSpace c then trimStart rest else s
  end.

Fixpoint trimEnd (s : string) : string :=
  match s with
  | EmptyString => EmptyString
  | String c rest =>
      match trimEnd rest with
      | EmptyString => if isSpace c then EmptyString else String c EmptyString
      | r => String c r
      end
  end.

(** [s.trim()] *)
Definition trim (s : string) : string := trimEnd (trimStart s).

Definition newline : string := String (ascii_of_nat 10) EmptyString.   (* '\n' *)

(** Every character of [s] is in the class [p]. *)
Fixpoint every (p : ascii -> bool) (s : string) : bool :=
  match s with
  | EmptyString => true
  | String c rest => p c && every p rest
  end.

(** The longest prefix of [s] within a class, and what follows it: what a
    greedy [[class]*] takes when the pattern goes on with a character
    outside the class. *)
Fixpoint span (p : ascii -> bool) (s : string) : string * string :=
  match s with
  | EmptyString => (EmptyString, EmptyString)
  | String c rest =>
      if p c then let '(a, b) := span p rest in (String c a, b)
      else (EmptyString, s)
  end.
End Js.

(** ** Result cache ([UVExecutor.cache], [getCached], [setCached]) *)

Module Cache.
Section Cache.
Context {V : Type}.

(** [{ value: any, expires: number }] *)
Record entry := Entry { value : V; expires : Z }.

(** [private cacheTTL = 1500; // ms] *)
Definition cacheTTL : Z := 1500.

(** [getCached(key)] at clock value [now]: the result and the store
    left behind.  [undefined] is [None]. *)
Definition getCached (key : string) (now : Z) (cache : gmap string entry)
  : option V * gmap string entry :=
  match cache !! key with
  | Some e =>
      if (now <? expires e)%Z            (* entry && entry.expires > Date.now() *)
      then (Some (value e), cache)
      else (None, delete key cache)      (* else if (entry) this.cache.delete(key) *)
  | None => (None, cache)
  end.

(** [setCached(key, value)] at clock value [now]. *)
Definition setCached (key : string) (v : V) (now : Z) (cache : gmap string entry)
  : gmap string entry :=
  <[ key := Entry v (now + cacheTTL) ]> cache.

(** [invalidateCache(key)] *)
Definition invalidateCache (key : string) (cache : gmap string entry)
  : gmap string entry :=
  delete key cache.

(** [invalidateAllCache()]: [this.cache.clear()] *)
Definition invalidateAllCache (cache : gmap string entry) : gmap string entry := ∅.

(** [public invalidateAllCaches()] *)
Definition invalidateAllCaches (cache : gmap string entry) : gmap string entry :=
  invalidateAllCache cache.

(** A sequence of [getCached] calls, each with its key and clock value,
    whose results are dropped: what other panels may do between a write
    and the read under study. *)
Fixpoint lookups (reads : list (string * Z)) (cache : gmap string entry)
  : gmap string entry :=
  match reads with
  | [] => cache
  | (k, now) :: rest => lookups rest (snd (getCached k now cache))
  end.
End Cache.
Arguments entry : clear implicits.
End Cache.

(** ** Promises

    A promise is pending, fulfilled with a value or rejected with a
    reason; once settled it keeps its state. *)

Module Promise.
Inductive pstate (V E : Type) : Type :=
| Pending
| Fulfilled (v : V)
| Rejected (e : E).
Arguments Pending {V E}.
Arguments Fulfilled {V E} v.
Arguments Rejected {V E} e.

Definition settled {V E} (s : pstate V E) : bool :=
  match s with Pending => false | _ => true end.

(** What a reaction attached with [.then(() => ...)] sees of the promise
    it is attached to: the handler ignores the value. *)
Definition forget {V E} (s : pstate V E) : pstate unit E :=
  match s with
  | Pending => Pending
  | Fulfilled _ => Fulfilled tt
  | Rejected e => Rejected e
  end.
End Promise.

(** ** Command queue ([UVExecutor.commandQueue], [enqueue])

    [[
    private commandQueue: Promise<any> = Promise.resolve();
    private enqueue<T>(fn: () => Promise<T>): Promise<T> {
        this.commandQueue = this.commandQueue.then(() => fn());
        return this.commandQueue;
    }
    ]]

    Every call of [enqueue] chains one promise on the previous value of
    [commandQueue], so the promises form a list: link [k] holds the
    operation [fn], the promise [fn()] returned once it has been called
    ([inner]) and the promise that [then] made ([derived]), which is what
    the caller gets and what the next link is chained on.  The first link
    is chained on [Promise.resolve()].

    [then] is given a fulfilment handler only.  When the promise it is
    attached to fulfils, the handler calls [fn] and [derived] follows the
    promise [fn] returned; when it rejects, the handler is not run and
    [derived] is rejected with the same reason.

    The host runs promise reactions one job at a time ([job]); a job of
    the model stands for the few jobs JS needs for one step of the chain
    (calling [fn], or passing the settled state of [inner] on to
    [derived]).  The settling of a promise returned by [fn] is an event
    of the environment ([settle]).  The properties below hold for every
    interleaving of callers, jobs and settlements, in particular for the
    ones of the JS event loop, which runs all pending jobs after each
    callback. *)

Module Queue.
Import Promise.
Section Queue.
Context {Op V E : Type}.

(** [call op] is the state of the promise [fn()] returns, when it
    returns: [Pending] when the operation waits for something. *)
Variable call : Op -> pstate V E.

Record link := Link {
  fn : Op;
  inner : option (pstate V E);
  derived : pstate V E
}.

(** What happened, in order: operation [k] (in submission order) was
    called, the promise it returned settled. *)
Inductive entry := Call (k : nat) | Done (k : nat).

Record queue := Queue { chain : list link; log : list entry }.

(** [commandQueue = Promise.resolve()] *)
Definition empty : queue := Queue [] [].

Definition enqueue (op : Op) (q : queue) : queue :=
  Queue (chain q ++ [Link op None Pending]) (log q).

(** One reaction job: the first link whose [derived] promise is still
    pending reacts to the state [prev] of the promise it is chained on.
    [k] is the position of the head of the list. *)
Fixpoint react (k : nat) (prev : pstate unit E) (c : list link)
  : list link * list entry :=
  match c with
  | [] => ([], [])
  | l :: rest =>
      match derived l with
      | Pending =>
          match prev with
          | Pending => (l :: rest, [])
          | Rejected e => (Link (fn l) (inner l) (Rejected e) :: rest, [])
          | Fulfilled _ =>
              match inner l with
              | None =>
                  let p := call (fn l) in
                  (Link (fn l) (Some p) Pending :: rest,
                   Call k :: (if settled p then [Done k] else []))
              | Some Pending => (l :: rest, [])
              | Some s => (Link (fn l) (inner l) s :: rest, [])
              end
          end
      | s =>
          let '(rest', es) := react (S k) (forget s) rest in
          (l :: rest', es)
      end
  end.

Definition job (q : queue) : queue :=
  let '(c, es) := react 0 (Fulfilled tt) (chain q) in
  Queue c (log q ++ es).

(** The promise returned by operation [k] settles with [s].  Only a
    pending promise can settle. *)
Definition settle (k : nat) (s : pstate V E) (q : queue) : queue :=
  match chain q !! k with
  | Some l =>
      match inner l with
      | Some Pending =>
          if settled s
          then Queue (<[ k := Link (fn l) (Some s) (derived l) ]> (chain q))
                     (log q ++ [Done k])
          else q
      | _ => q
      end
  | None => q
  end.

Inductive event :=
| Enqueue (op : Op)
| Job
| Settle (k : nat) (s : pstate V E).

Definition step (q : queue) (ev : event) : queue :=
  match ev with
  | Enqueue op => enqueue op q
  | Job => job q
  | Settle k s => settle k s q
  end.

Definition run (evs : list event) (q : queue) : queue := fold_left step evs q.

(** The operations called so far, by position. *)
Definition calls (es : list entry) : list nat :=
  flat_map (fun e => match e with Call k => [k] | Done _ => [] end) es.

(** The log of operations [j], [j + 1], ... [j + m - 1] run one after the
    other: each is called after the one before it is done. *)
Definition serial_from (j m : nat) : list entry :=
  flat_map (fun k => [Call k; Done k]) (seq j m).

Definition serial (m : nat) : list entry := serial_from 0 m.

(** The position of the operation that is running: called, and its
    promise not yet settled. *)
Fixpoint running (k : nat) (c : list link) : option nat :=
  match c with
  | [] => None
  | l :: rest =>
      match inner l with
      | Some Pending => Some k
      | _ => running (S k) rest
      end
  end.

(** The number of operations in flight: called, and not yet settled. *)
Definition in_flight (c : list link) : nat :=
  length (List.filter (fun l => match inner l with
                                | Some Pending => true
                                | _ => false
                                end) c).

(** Let what is in flight finish: run one job, then let the running
    operation, if there is one, settle as [oracle] says. *)
Definition drain_step (oracle : nat -> pstate V E) (q : queue) : queue :=
  let q' := job q in
  match running 0 (chain q') with
  | Some k => settle k (oracle k) q'
  | None => q'
  end.

Definition drain (oracle : nat -> pstate V E) (n : nat) (q : queue) : queue :=
  Nat.iter n (drain_step oracle) q.

(** The queue is at rest: no job has anything to do and no operation is
    running. *)
Definition at_rest (q : queue) : Prop :=
  job q = q /\ running 0 (chain q) = None.

(** *** The shape of a chain

    A link that nothing has touched yet. *)
Definition idle (l : link) : Prop := inner l = None /\ derived l = Pending.

(** A link whose operation ran and fulfilled. *)
Definition fulfilled (l : link) : Prop :=
  exists v, inner l = Some (Fulfilled v) /\ derived l = Fulfilled v.

(** The chains that runs produce, read from the oldest link, [prev] being
    the state of the promise the head is chained on: settled links first,
    each one fulfilled with what its operation returned, or rejected
    either by its operation or by its predecessor without having been
    called; then at most one link in progress; then idle links. *)
Fixpoint wf (prev : pstate unit E) (c : list link) : Prop :=
  match c with
  | [] => True
  | l :: rest =>
      match derived l with
      | Pending =>
          prev <> Pending
          /\ (inner l <> None -> prev = Fulfilled tt)
          /\ Forall idle rest
      | Fulfilled v =>
          prev = Fulfilled tt
          /\ inner l = Some (Fulfilled v)
          /\ wf (Fulfilled tt) rest
      | Rejected e =>
          (prev = Fulfilled tt /\ inner l = Some (Rejected e)
           \/ prev = Rejected e /\ inner l = None)
          /\ wf (Rejected e) rest
      end
  end.

(** The log a chain accounts for. *)
Fixpoint expected (k : nat) (c : list link) : list entry :=
  match c with
  | [] => []
  | l :: rest =>
      match inner l with
      | None => []
      | Some Pending => [Call k]
      | Some _ => [Call k; Done k]
      end ++ expected (S k) rest
  end.

Definition inv (q : queue) : Prop :=
  wf (Fulfilled tt) (chain q) /\ log q = expected 0 (chain q).

(** Operation [k] has been called. *)
Definition called (k : nat) (q : queue) : bool :=
  match chain q !! k with
  | Some l => match inner l with Some _ => true | None => false end
  | None => false
  end.

(** The operation of the link did not reject. *)
Definition unrejected (l : link) : Prop := forall e, inner l <> Some (Rejected e).

(** The operation of the link does not reject when it is called. *)
Definition quiet (l : link) : Prop := forall e, call (fn l) <> Rejected e.

Definition settles_in (S : pstate V E -> Prop) (ev : event) : Prop :=
  match ev with
  | Settle _ s => S s
  | _ => True
  end.

(** Work left: two steps for a link whose operation has not settled,
    one for a link that only has to adopt the result. *)
Definition weight (l : link) : nat :=
  match derived l with
  | Pending =>
      match inner l with
      | Some (Fulfilled _) | Some (Rejected _) => 1
      | _ => 2
      end
  | _ => 0
  end.

Definition work (c : list link) : nat := foldr (fun l n => weight l + n) 0 c.
End Queue.
Arguments link : clear implicits.
Arguments entry : clear implicits.
Arguments queue : clear implicits.
Arguments event : clear implicits.
End Queue.

(** ** Process runner ([UVExecutor.executeCommand], [_executeCommand]) *)

Module Executor.
Import Promise Js.

(** [interface UVCommandResult] *)
Record UVCommandResult := Result {
  success : bool;
  output : string;
  error : option string
}.

(** [a || b] on strings, [b] possibly [undefined]. *)
Definition or_else (a : option string) (b : option string) : option string :=
  match a with
  | Some s => if truthy s then Some s else b
  | None => b
  end.

(** [args.join(' ')] *)
Definition join (args : list string) : string := String.concat " " args.

(** What [cp.exec] passes to its callback, [(error, stdout, stderr)],
    which it is taken to call once for every process it started, together
    with the exit code of the process.  Node passes [null] for [error]
    only when the process exited with code 0 ([Succeeded]).  It passes an
    error for every other exit code, for a process killed by a signal and
    for a shell that could not be started (neither has an exit code), and
    also at exit code 0 when the output was longer than [maxBuffer]. *)
Inductive completion :=
| Succeeded (out errout : string)
| Failed (code : option Z) (message : string) (out errout : string).

Definition exit_code (p : completion) : option Z :=
  match p with
  | Succeeded _ _ => Some 0%Z
  | Failed code _ _ _ => code
  end.

(** [error.message], when [error] is not [null]. *)
Definition reported_error (p : completion) : option string :=
  match p with
  | Succeeded _ _ => None
  | Failed _ message _ _ => Some message
  end.

Definition stdout (p : completion) : string :=
  match p with
  | Succeeded out _ | Failed _ _ out _ => out
  end.

Definition stderr (p : completion) : string :=
  match p with
  | Succeeded _ errout | Failed _ _ _ errout => errout
  end.

Section Executor.
(** [getUVPath()] and [getWorkspaceRoot()]: the configuration and the
    workspace folders are taken not to change during a run. *)
Variable uvPath : string.
Variable workspaceRoot : option string.

(** [cp.exec(command, { cwd })] checks its arguments before it starts
    anything and throws on those it refuses, for instance a command line
    or a directory that holds a NUL character
    ([ERR_INVALID_ARG_VALUE]).  [throws command cwd] is the error it
    throws, [None] when it starts the shell. *)
Variable throws : string -> string -> option string.

(** [const workspaceRoot = cwd || this.getWorkspaceRoot();] followed by
    [if (!workspaceRoot)]: the directory the command runs in, if any. *)
Definition workingDirectory (cwd : option string) : option string :=
  match or_else cwd workspaceRoot with
  | Some d => if truthy d then Some d else None
  | None => None
  end.

(** [`${uvPath} ${args.join(' ')}`] *)
Definition commandLine (args : list string) : string :=
  uvPath +:+ " " +:+ join args.

(** The callback given to [cp.exec]. *)
Definition onExec (err : option string) (out errout : string) : UVCommandResult :=
  match err with
  | Some msg =>
      Result false out
        (Some (if truthy errout then errout else msg))  (* stderr || error.message *)
  | None => Result true out (Some errout)
  end.

Definition noWorkspaceRoot : UVCommandResult :=
  Result false "" (Some "No workspace root found").

(** The synchronous part of [_executeCommand(args, cwd)] up to the call
    of [cp.exec]: either the promise is resolved at once, or [cp.exec] is
    called with a command line and a directory. *)
Inductive started :=
| Resolved (r : UVCommandResult)
| Exec (command : string) (cwd : string).

Definition _executeCommand (args : list string) (cwd : option string) : started :=
  match workingDirectory cwd with
  | None => Resolved noWorkspaceRoot
  | Some d => Exec (commandLine args) d
  end.

(** The operation [() => this._executeCommand(args, cwd)]. *)
Definition operation : Type := list string * option string.

(** Calling the operation.  [new Promise(executor)] runs the executor at
    once, and the executor has no [try]: when [cp.exec] throws, the
    promise is rejected with what was thrown and no process is started.
    Otherwise the promise is resolved before the executor returns (no
    directory) or stays pending until the callback runs, with one process
    started.  The result is the state of the promise when the call
    returns and the processes the call started, as the command line and
    the directory given to [cp.exec]. *)
Definition invoke (op : operation)
  : pstate UVCommandResult string * list (string * string) :=
  match _executeCommand (fst op) (snd op) with
  | Resolved r => (Fulfilled r, [])
  | Exec command cwd =>
      match throws command cwd with
      | Some e => (Rejected e, [])
      | None => (Pending, [(command, cwd)])
      end
  end.

Definition call (op : operation) : pstate UVCommandResult string :=
  fst (invoke op).

Definition launched (op : operation) : list (string * string) :=
  snd (invoke op).

(** [cp.exec] does not throw on what the operation gives it. *)
Definition accepted (op : operation) : Prop :=
  forall command cwd,
    _executeCommand (fst op) (snd op) = Exec command cwd ->
    throws command cwd = None.

(** The events of an executor: a caller runs [executeCommand(args, cwd)],
    the host runs a promise job, the process of command [k] ends. *)
Inductive event :=
| ExecuteCommand (args : list string) (cwd : option string)
| Job
| ProcessExit (k : nat) (p : completion).

Definition settlement (p : completion) : pstate UVCommandResult string :=
  Fulfilled (onExec (reported_error p) (stdout p) (stderr p)).

Definition queue_event (ev : event) : Queue.event operation UVCommandResult string :=
  match ev with
  | ExecuteCommand args cwd => Queue.Enqueue (args, cwd)
  | Job => Queue.Job
  | ProcessExit k p => Queue.Settle k (settlement p)
  end.

(** The executor: its command queue, and the processes started so far,
    each as the command line and the directory given to [cp.exec], in
    the order they were started. *)
Record state := State {
  queue : Queue.queue operation UVCommandResult string;
  spawned : list (string * string)
}.

Definition init : state := State Queue.empty [].

(** What the call of the operation at position [k] of the chain
    started. *)
Definition launchedBy (c : list (Queue.link operation UVCommandResult string))
    (k : nat) : list (string * string) :=
  match c !! k with
  | Some l => launched (Queue.fn l)
  | None => []
  end.

(** A promise job records the processes started by the operations it
    called; nothing else starts a process. *)
Definition step (st : state) (ev : event) : state :=
  match ev with
  | Job =>
      let c := Queue.chain (queue st) in
      let es := snd (Queue.react call 0 (Fulfilled tt) c) in
      State (Queue.job call (queue st))
            (spawned st ++ flat_map (launchedBy c) (Queue.calls es))
  | _ => State (Queue.step call (queue st) (queue_event ev)) (spawned st)
  end.

Definition run (evs : list event) (st : state) : state := fold_left step evs st.

(** The operations submitted by the [executeCommand] calls of a run. *)
Definition submitted (evs : list event) : list operation :=
  flat_map (fun ev => match ev with
                      | ExecuteCommand args cwd => [(args, cwd)]
                      | _ => []
                      end) evs.

(** Let what is in flight finish: run a promise job, then let the
    running process, if there is one, end as [results] says. *)
Definition drain_step (results : nat -> completion) (st : state) : state :=
  let st' := step st Job in
  match Queue.running 0 (Queue.chain (queue st')) with
  | Some k => step st' (ProcessExit k (results k))
  | None => st'
  end.

Definition drain (results : nat -> completion) (n : nat) (st : state) : state :=
  Nat.iter n (drain_step results) st.
End Executor.

(** A host that starts every command it is given. *)
Definition neverThrows (command cwd : string) : option string := None.

(** Node's check of the arguments of [cp.exec]: a command line or a
    directory that holds a NUL character is refused with
    [ERR_INVALID_ARG_VALUE]. *)
Definition nul : string := String (ascii_of_nat 0) EmptyString.

Definition refusesNul (command cwd : string) : option string :=
  if includes nul command || includes nul cwd
  then Some "ERR_INVALID_ARG_VALUE"
  else None.
End Executor.

(** ** Debounced status refresh ([UVStatusBar.debouncedUpdateStatus])

    [[
    private debounceTimer: NodeJS.Timeout | undefined;
    private debounceDelay = 300;

    public debouncedUpdateStatus(): void {
        if (this.debounceTimer) {
            clearTimeout(this.debounceTimer);
        }
        this.debounceTimer = setTimeout(() => {
            this.updateStatus();
        }, this.debounceDelay);
    }
    ]]

    The host keeps the pending timeouts, each with its handle and the time
    from which its callback may run.  The only timeouts of the status bar
    are the ones set here, and their callback calls [updateStatus]. *)

Module Debounce.
Local Open Scope Z_scope.

Definition debounceDelay : Z := 300.

Record state := State {
  now : Z;                         (* the clock at the last event *)
  next_handle : nat;               (* handles handed out so far *)
  timeouts : list (nat * Z);       (* pending timeouts of the host: handle, due time *)
  debounceTimer : option nat;      (* this.debounceTimer *)
  updates : list Z                 (* the times at which updateStatus was called *)
}.

(** [setTimeout(callback, delay)] at time [t], [h] being the handle it
    returns. *)
Definition setTimeout (delay t : Z) (h : nat) (pending : list (nat * Z))
  : list (nat * Z) :=
  pending ++ [(h, t + delay)].

(** [clearTimeout(h)]: nothing happens when [h] is not pending any more. *)
Definition clearTimeout (h : nat) (pending : list (nat * Z)) : list (nat * Z) :=
  List.filter (fun p => negb (Nat.eqb (fst p) h)) pending.

Definition due (h : nat) (pending : list (nat * Z)) : option Z :=
  snd <$> List.find (fun p => Nat.eqb (fst p) h) pending.

(** [debouncedUpdateStatus()] called at time [t]. *)
Definition debouncedUpdateStatus (t : Z) (st : state) : state :=
  let pending :=
    match debounceTimer st with
    | Some h => clearTimeout h (timeouts st)
    | None => timeouts st
    end in
  let h := next_handle st in
  {| now := t;
     next_handle := S h;
     timeouts := setTimeout debounceDelay t h pending;
     debounceTimer := Some h;
     updates := updates st |}.

(** The host runs the callback of timeout [h] at time [t]: [updateStatus]
    is called. *)
Definition timeout (h : nat) (t : Z) (st : state) : state :=
  {| now := t;
     next_handle := next_handle st;
     timeouts := clearTimeout h (timeouts st);
     debounceTimer := debounceTimer st;
     updates := updates st ++ [t] |}.

Inductive event :=
| Request (t : Z)             (* a caller runs debouncedUpdateStatus() at time t *)
| Fire (h : nat) (t : Z).     (* the host runs the callback of timeout h at time t *)

(** An event is possible when the clock does not go back and, for a
    timeout, when it is pending and due. *)
Definition step (st : state) (ev : event) : option state :=
  match ev with
  | Request t =>
      if now st <=? t then Some (debouncedUpdateStatus t st) else None
  | Fire h t =>
      match due h (timeouts st) with
      | Some d =>
          if (now st <=? t) && (d <=? t) then Some (timeout h t st) else None
      | None => None
      end
  end.

Fixpoint run (evs : list event) (st : state) : option state :=
  match evs with
  | [] => Some st
  | ev :: rest =>
      match step st ev with
      | Some st' => run rest st'
      | None => None
      end
  end.

(** The status bar as its constructor finds it, at time [t0]. *)
Definition init (t0 : Z) : state := State t0 0 [] None [].

(** The time of the last request of a run, [r] being the one before the
    run. *)
Fixpoint last_request (r : Z) (evs : list event) : Z :=
  match evs with
  | [] => r
  | Request t :: rest => last_request t rest
  | Fire _ _ :: rest => last_request r rest
  end.

(** Every request of the run is made before [limit]. *)
Definition requests_before (limit : Z) (evs : list event) : Prop :=
  Forall (fun ev => match ev with Request t => t < limit | Fire _ _ => True end) evs.

(** At most the timeout of [debounceTimer] is pending. *)
Definition single (st : state) : Prop :=
  timeouts st = []
  \/ exists h d, timeouts st = [(h, d)] /\ debounceTimer st = Some h.
End Debounce.

(** ** HTTP server supervisor ([HTTPServerManager]) *)

Module HttpServer.
Import Js.

(** The notifications of [vscode.window.show...Message], by the text they
    carry. *)
Inductive message :=
| AlreadyRunning          (* warning: 'HTTP server is already running.' *)
| Started (port : Z)      (* info: `HTTP server started on http://localhost:${port}/` *)
| Stopped                 (* info: 'HTTP server stopped.' *)
| NotRunning              (* warning: 'No HTTP server is running.' *)
| PortInUse (port : Z)    (* error: `Port ${port} is already in use. ...` *)
| ServerError (data : string)   (* error: `HTTP server error: ${data}` *)
| Python3NotFound         (* error: `'python3' was not found in your PATH. ...` *)
| NeitherFound            (* error: `Neither 'python' nor 'python3' was found ...` *)
| FailedToStart (code : string). (* error: `Failed to start HTTP server: ${err}` *)

(** The handlers attached to a child: the ones of [startServer], which
    remember the command they started, or the ones of
    [tryPython3Fallback]. *)
Inductive role := Primary (pythonCmd : string) | Fallback.

(** What became of a call of [cp.spawn]: it threw, or it returned a child
    that can still emit events ([Live]) or has emitted ['error'] or
    ['exit'] ([Gone]). *)
Inductive status := Threw | Live | Gone.

(** One call of [cp.spawn(command, ['-m', 'http.server', String(port)],
    { cwd: folder })]. *)
Record attempt := Attempt {
  command : string;
  port : Z;
  folder : string;
  handlers : role;
  state : status
}.

Definition arguments (a : attempt) : list string :=
  ["-m"; "http.server"; pretty (port a)].

Record manager := Manager {
  serverProcess : option nat;     (* the child, by position in [attempts]; null is None *)
  running : bool;
  currentPort : Z;
  currentFolder : string;
  attempts : list attempt;        (* every call of cp.spawn so far *)
  killed : list nat;              (* the children stopServer killed *)
  messages : list message;        (* the notifications shown so far *)
  fired : nat                     (* calls of statusChangedEmitter.fire() *)
}.

(** A new [HTTPServerManager]. *)
Definition init : manager := Manager None false 8000 "" [] [] [] 0.

Definition show (m : message) (st : manager) : manager :=
  Manager (serverProcess st) (running st) (currentPort st) (currentFolder st)
          (attempts st) (killed st) (messages st ++ [m]) (fired st).

(** [this.running = b; this.statusChangedEmitter.fire();] *)
Definition setRunning (b : bool) (st : manager) : manager :=
  Manager (serverProcess st) b (currentPort st) (currentFolder st)
          (attempts st) (killed st) (messages st) (S (fired st)).

Definition setTarget (f : string) (p : Z) (st : manager) : manager :=
  Manager (serverProcess st) (running st) p f
          (attempts st) (killed st) (messages st) (fired st).

(** [cp.spawn] threw: the call is recorded, nothing else changes. *)
Definition spawnThrew (a : attempt) (st : manager) : manager :=
  Manager (serverProcess st) (running st) (currentPort st) (currentFolder st)
          (attempts st ++ [a]) (killed st) (messages st) (fired st).

(** [this.serverProcess = cp.spawn(...)] returned a child, with its
    handlers attached. *)
Definition spawned (a : attempt) (st : manager) : manager :=
  Manager (Some (length (attempts st))) (running st) (currentPort st)
          (currentFolder st) (attempts st ++ [a]) (killed st) (messages st)
          (fired st).

Definition retire (pid : nat) (st : manager) : manager :=
  Manager (serverProcess st) (running st) (currentPort st) (currentFolder st)
          (alter (fun a => Attempt (command a) (port a) (folder a) (handlers a) Gone)
                 pid (attempts st))
          (killed st) (messages st) (fired st).

Definition ENOENT : string := "ENOENT".

Section Manager.
(** [process.platform === 'win32'] *)
Variable win32 : bool.
(** [cp.spawn(command, ...)] throws an error with this code, if it throws;
    executables that are missing are normally reported by an ['error']
    event instead. *)
Variable throws : string -> option string.

(** [stopServer()] *)
Definition stopServer (st : manager) : manager :=
  match serverProcess st with
  | Some pid =>
      if running st then
        let st := Manager None false (currentPort st) (currentFolder st)
                    (attempts st) (killed st ++ [pid]) (messages st)
                    (S (fired st)) in
        show Stopped st
      else show NotRunning st
  | None => show NotRunning st
  end.

(** [tryPython3Fallback(folder, port, outputChannel)] *)
Definition tryPython3Fallback (f : string) (p : Z) (st : manager) : bool * manager :=
  match throws "python3" with
  | None =>
      let st := spawned (Attempt "python3" p f Fallback Live) st in
      (true, show (Started p) (setRunning true st))
  | Some code =>
      let st := spawnThrew (Attempt "python3" p f Fallback Threw) st in
      let st := if String.eqb code ENOENT then show NeitherFound st
                else show (FailedToStart code) st in
      (false, setRunning false st)
  end.

(** [startServer(folder, port)] *)
Definition startServer (f : string) (p : Z) (st : manager) : bool * manager :=
  if running st then (false, show AlreadyRunning st)
  else
    let st := setTarget f p st in
    let pythonCmd := if win32 then "python" else "python3" in
    match throws pythonCmd with
    | None =>
        let st := spawned (Attempt pythonCmd p f (Primary pythonCmd) Live) st in
        (true, show (Started p) (setRunning true st))
    | Some code =>
        let st := spawnThrew (Attempt pythonCmd p f (Primary pythonCmd) Threw) st in
        if String.eqb code ENOENT && String.eqb pythonCmd "python"
        then tryPython3Fallback f p st
        else (false, setRunning false (show (FailedToStart code) st))
    end.

(** The ['error'] handler of a child. *)
Definition onError (a : attempt) (code : string) (st : manager) : manager :=
  match handlers a with
  | Primary pythonCmd =>
      if String.eqb code ENOENT && String.eqb pythonCmd "python3"
      then setRunning false (show Python3NotFound st)
      else if String.eqb code ENOENT && String.eqb pythonCmd "python"
      then snd (tryPython3Fallback (folder a) (port a) st)
      else setRunning false (show (FailedToStart code) st)
  | Fallback =>
      setRunning false
        (if String.eqb code ENOENT then show NeitherFound st
         else show (FailedToStart code) st)
  end.

(** The ['exit'] handler of a child. *)
Definition onExit (st : manager) : manager := show Stopped (setRunning false st).

(** The ['data'] handler of the stderr of a child. *)
Definition onStderr (a : attempt) (data : string) (st : manager) : manager :=
  if includes "Address already in use" data
  then stopServer (show (PortInUse (port a)) st)
  else if includes "error" (toLowerCase data)
  then show (ServerError data) st
  else st.

Inductive event :=
| StartServer (f : string) (p : Z)        (* a caller runs startServer(f, p) *)
| StopServer                              (* a caller runs stopServer() *)
| ChildError (pid : nat) (code : string)  (* child pid emits 'error' *)
| ChildExit (pid : nat)                   (* child pid emits 'exit' *)
| ChildStderr (pid : nat) (data : string).  (* child pid writes to stderr *)

(** Events of a child reach its handlers as long as the child is live;
    ['error'] and ['exit'] are the last event of a child. *)
Definition live (pid : nat) (st : manager) : option attempt :=
  match attempts st !! pid with
  | Some a => match state a with Live => Some a | _ => None end
  | None => None
  end.

Definition step (st : manager) (ev : event) : manager :=
  match ev with
  | StartServer f p => snd (startServer f p st)
  | StopServer => stopServer st
  | ChildError pid code =>
      match live pid st with
      | Some a => onError a code (retire pid st)
      | None => st
      end
  | ChildExit pid =>
      match live pid st with
      | Some a => onExit (retire pid st)
      | None => st
      end
  | ChildStderr pid data =>
      match live pid st with
      | Some a => onStderr a data st
      | None => st
      end
  end.

Definition run (evs : list event) (st : manager) : manager := fold_left step evs st.

(** The calls of [startServer] in a run. *)
Definition starts (evs : list event) : nat :=
  length (List.filter (fun ev => match ev with StartServer _ _ => true | _ => false end) evs).

(** The live children whose ['error'] handler would try the fallback. *)
Definition retriable (a : attempt) : bool :=
  match state a, handlers a with
  | Live, Primary pythonCmd => String.eqb pythonCmd "python"
  | _, _ => false
  end.

Definition retries_left (st : manager) : nat :=
  length (List.filter retriable (attempts st)).

(** The calls of [cp.spawn] made, and the ones that may still come
    without a new call of [startServer]. *)
Definition potential (st : manager) : nat :=
  length (attempts st) + retries_left st.
End Manager.
End HttpServer.

(** ** The interpreter pin file ([updatePythonVersionFile],
    [getPythonVersionFromFiles], [validatePythonVersion]) *)

Module Regex.
(** Regular expressions without groups to extract, decided by
    derivatives: enough for [RegExp.prototype.test] on a pattern anchored
    at both ends. *)
Inductive regex :=
| Void                              (* matches nothing *)
| Eps                               (* the empty string *)
| Class (p : ascii -> bool)         (* one character of a class *)
| Seq (r1 r2 : regex)
| Alt (r1 r2 : regex)
| Star (r : regex).

Definition plus (r : regex) : regex := Seq r (Star r).      (* r+ *)
Definition opt (r : regex) : regex := Alt r Eps.            (* (r)? *)
Definition lit (c : ascii) : regex := Class (Ascii.eqb c).

Fixpoint nullable (r : regex) : bool :=
  match r with
  | Void => false
  | Eps => true
  | Class _ => false
  | Seq r1 r2 => nullable r1 && nullable r2
  | Alt r1 r2 => nullable r1 || nullable r2
  | Star _ => true
  end.

Fixpoint deriv (c : ascii) (r : regex) : regex :=
  match r with
  | Void => Void
  | Eps => Void
  | Class p => if p c then Eps else Void
  | Seq r1 r2 =>
      Alt (Seq (deriv c r1) r2) (if nullable r1 then deriv c r2 else Void)
  | Alt r1 r2 => Alt (deriv c r1) (deriv c r2)
  | Star r1 => Seq (deriv c r1) (Star r1)
  end.

(** [/^r$/.test(s)] *)
Fixpoint matches (r : regex) (s : string) : bool :=
  match s with
  | EmptyString => nullable r
  | String c rest => matches (deriv c r) rest
  end.

(** A regular expression that visibly matches nothing. *)
Fixpoint void (r : regex) : bool :=
  match r with
  | Void => true
  | Eps => false
  | Class _ => false
  | Seq r1 r2 => void r1 || void r2
  | Alt r1 r2 => void r1 && void r2
  | Star _ => false
  end.

(** Every character class of [r] lies within [P]. *)
Fixpoint within (P : ascii -> bool) (r : regex) : Prop :=
  match r with
  | Void | Eps => True
  | Class p => forall c, p c = true -> P c = true
  | Seq r1 r2 | Alt r1 r2 => within P r1 /\ within P r2
  | Star r1 => within P r1
  end.
End Regex.

Module VersionFile.
Import Js Regex.

(** [[\dabrc]] *)
Definition isVersionChar (c : ascii) : bool :=
  isDigit c || Ascii.eqb c "a" || Ascii.eqb c "b" || Ascii.eqb c "r"
  || Ascii.eqb c "c".

(** The characters a version can be made of. *)
Definition versionAlphabet (c : ascii) : bool := isVersionChar c || Ascii.eqb c ".".

(** [const versionRegex = /^\d+\.\d+(\.\d+)?([ab]\d+)?(rc\d+)?$/;] *)
Definition versionRegex : regex :=
  let digits := plus (Class isDigit) in
  Seq digits
    (Seq (lit ".")
       (Seq digits
          (Seq (opt (Seq (lit ".") digits))
             (Seq (opt (Seq (Class (fun c => Ascii.eqb c "a" || Ascii.eqb c "b")) digits))
                (opt (Seq (lit "r") (Seq (lit "c") digits))))))).

(** [validatePythonVersion(version)]: [versionRegex.test(version)] *)
Definition validatePythonVersion (version : string) : bool :=
  matches versionRegex version.

(** [\d+\.[\dabrc]+(?:\.[\dabrc]+)?] at the start of [s], as the
    backtracking matcher finds it.  Each repetition is followed by a
    character outside its class or by the end of the pattern, so the
    greedy choice is the only one that can succeed. *)
Definition versionHere (s : string) : option string :=
  match span isDigit s with
  | (EmptyString, _) => None
  | (major, String "."%char rest) =>
      match span isVersionChar rest with
      | (EmptyString, _) => None
      | (minor, String "."%char rest') =>
          match span isVersionChar rest' with
          | (EmptyString, _) => Some (major +:+ "." +:+ minor)
          | (patch, _) => Some (major +:+ "." +:+ minor +:+ "." +:+ patch)
          end
      | (minor, _) => Some (major +:+ "." +:+ minor)
      end
  | _ => None
  end.

(** [id.match(/-(\d+\.[\dabrc]+(?:\.[\dabrc]+)?)/)]: group 1 of the
    leftmost match, if there is a match. *)
Fixpoint extractVersion (id : string) : option string :=
  match id with
  | EmptyString => None
  | String c rest =>
      if Ascii.eqb c "-" then
        match versionHere rest with
        | Some v => Some v
        | None => extractVersion rest
        end
      else extractVersion rest
  end.

(** [s.split('.')] *)
Fixpoint split (s : string) : list string :=
  match s with
  | EmptyString => [EmptyString]
  | String c rest =>
      if Ascii.eqb c "." then EmptyString :: split rest
      else match split rest with
           | [] => [String c EmptyString]
           | seg :: segs => String c seg :: segs
           end
  end.

(** [version.split('.').slice(0, 2).join('.')], the prefix
    [findToolchainForVersion] compares. *)
Definition majorMinor (version : string) : string :=
  String.concat "." (take 2 (split version)).

(** The part of [vscode.workspace.fs] used here: the files by path, and
    the paths that cannot be written. *)
Record filesystem := Filesystem {
  files : gmap string string;
  locked : gset string
}.

Definition readFile (path : string) (fs : filesystem) : option string :=
  files fs !! path.

Definition writeFile (path content : string) (fs : filesystem) : option filesystem :=
  if decide (path ∈ locked fs) then None
  else Some (Filesystem (<[ path := content ]> (files fs)) (locked fs)).

Section VersionFile.
(** [path.join] *)
Variable join : string -> string -> string.
(** [getWorkspaceRoot()] *)
Variable workspaceRoot : option string.
(** The rest of [getPythonVersionFromFiles]: the value of
    [requires-python] in the [[project]] section of the text of
    [pyproject.toml], found by two regular expressions. *)
Variable requiresPython : string -> option string.

(** [updatePythonVersionFile(workspaceRoot, version)]; [None] when the
    write fails and the method throws. *)
Definition updatePythonVersionFile (root version : string) (fs : filesystem)
  : option filesystem :=
  writeFile (join root ".python-version") (version +:+ newline) fs.

(** [getPythonVersionFromFiles()] *)
Definition getPythonVersionFromFiles (fs : filesystem) : option string :=
  match workspaceRoot with
  | None => None
  | Some EmptyString => None
  | Some root =>
      let pinned :=
        match readFile (join root ".python-version") fs with
        | Some content =>
            match trim content with
            | EmptyString => None
            | toolchainId =>
                Some (match extractVersion toolchainId with
                      | Some v => v
                      | None => toolchainId
                      end)
            end
        | None => None
        end in
      match pinned with
      | Some v => Some v
      | None =>
          match readFile (join root "pyproject.toml") fs with
          | Some text => requiresPython text
          | None => None
          end
      end
  end.
End VersionFile.
End VersionFile.

(** ** Status aggregator ([UVStatusBar.updateStatus], [updateProjectBars])

    The methods of the status bar await methods of the executor, any of
    which may reject, and write to the status bar items.  They are
    functions of a world that holds the items, what was logged to the
    console and the number of calls made to the executor so far; the
    executor answers each call according to its position, so that two
    calls of one method need not agree. *)

Module StatusBar.
Import Js.

Inductive outcome (A : Type) : Type :=
| Returned (a : A)
| Thrown (e : string).
Arguments Returned {A} a.
Arguments Thrown {A} e.

(** [vscode.StatusBarItem], as far as it is used. *)
Record item := Item {
  text : string;
  tooltip : string;
  command : option string;
  visible : bool
}.

Inductive bar := Main | ProjectInfo | PythonVersion | Dependencies | Venv.

Definition bar_eqb (a b : bar) : bool :=
  match a, b with
  | Main, Main | ProjectInfo, ProjectInfo | PythonVersion, PythonVersion
  | Dependencies, Dependencies | Venv, Venv => true
  | _, _ => false
  end.

Record world := World {
  items : bar -> item;       (* statusBarItem, projectInfoBar, ... *)
  calls : nat;               (* calls made to the executor *)
  console : list string      (* console.error *)
}.

(** The answers of [this.uvExecutor]; [getProjectInfo] is reduced to the
    [name] of the project information, [None] when the information is
    [null] or has no name. *)
Record executor := Executor {
  hasProjectFiles : nat -> outcome bool;
  checkUVInstalled : nat -> outcome bool;
  getProjectInfo : nat -> outcome (option string);
  getDependencies : nat -> outcome (list string);
  getEnvironments : nat -> outcome (list string);
  getPythonVersionFromFiles : nat -> outcome (option string);
  getCurrentPythonToolchain : nat -> outcome (option string);
  executeCommand : nat -> list string -> outcome Executor.UVCommandResult;
  getWorkspaceRoot : option string
}.

(** *** Computations that may throw *)

Definition M (A : Type) : Type := world -> outcome A * world.

Definition ret {A} (a : A) : M A := fun w => (Returned a, w).

Definition bind {A B} (m : M A) (k : A -> M B) : M B :=
  fun w =>
    match m w with
    | (Returned a, w') => k a w'
    | (Thrown e, w') => (Thrown e, w')
    end.

(** [try { body } catch (error) { handler }] *)
Definition tryCatch {A} (body : M A) (handler : string -> M A) : M A :=
  fun w =>
    match body w with
    | (Returned a, w') => (Returned a, w')
    | (Thrown e, w') => handler e w'
    end.

(** [await this.uvExecutor.method(...)] *)
Definition await {A} (method : nat -> outcome A) : M A :=
  fun w => (method (calls w), World (items w) (S (calls w)) (console w)).

Declare Scope js_scope.
Delimit Scope js_scope with js.
Notation "x <- m ;; k" := (bind m (fun x => k))
  (at level 100, m at next level, right associativity) : js_scope.
Notation "m ;; k" := (bind m (fun _ => k))
  (at level 100, right associativity) : js_scope.
Local Open Scope js_scope.

Definition update (b : bar) (f : item -> item) : M unit :=
  fun w =>
    (Returned tt,
     World (fun b' => if bar_eqb b b' then f (items w b') else items w b')
           (calls w) (console w)).

(** [bar.text = t; bar.tooltip = tip; bar.command = cmd;] *)
Definition assign (b : bar) (t tip cmd : string) : M unit :=
  update b (fun i => Item t tip (Some cmd) (visible i)).

Definition show (b : bar) : M unit :=
  update b (fun i => Item (text i) (tooltip i) (command i) true).

Definition hide (b : bar) : M unit :=
  update b (fun i => Item (text i) (tooltip i) (command i) false).

(** [console.error(msg, error)] *)
Definition consoleError (msg : string) : M unit :=
  fun w => (Returned tt, World (items w) (calls w) (console w ++ [msg])).

(** A string literal between double quotes, inside a string. *)
Definition quoted (s : string) : string :=
  String (ascii_of_nat 34) (s +:+ String (ascii_of_nat 34) EmptyString).

(** Truthiness of a [string | null]. *)
Definition given (s : option string) : bool :=
  match s with Some s => truthy s | None => false end.

Definition orEmpty (s : option string) : string := default "" s.

(** [\d+\.\d+\.\d+] at the start of [s]. *)
Definition threeNumbers (s : string) : option string :=
  match span isDigit s with
  | (EmptyString, _) => None
  | (a, String "."%char r1) =>
      match span isDigit r1 with
      | (EmptyString, _) => None
      | (b, String "."%char r2) =>
          match span isDigit r2 with
          | (EmptyString, _) => None
          | (c, _) => Some (a +:+ "." +:+ b +:+ "." +:+ c)
          end
      | _ => None
      end
  | _ => None
  end.

(** [output.match(/Python (\d+\.\d+\.\d+)/)]: group 1 of the leftmost
    match. *)
Fixpoint pythonVersionIn (output : string) : option string :=
  match output with
  | EmptyString => None
  | String _ rest =>
      match (if String.prefix "Python " output
             then threeNumbers (String.substring 7 (String.length output - 7) output)
             else None) with
      | Some v => Some v
      | None => pythonVersionIn rest
      end
  end.

Section StatusBar.
Variable ex : executor.

(** [hideProjectBars()] *)
Definition hideProjectBars : M unit :=
  hide ProjectInfo ;; hide PythonVersion ;; hide Dependencies ;; hide Venv.

(** The body of one of the two [try] blocks of [getPythonVersion]: [Some]
    when it returns from the method, [None] when it falls through. *)
Definition versionFrom (args : list string) : M (option (option string)) :=
  result <- await (fun n => executeCommand ex n args) ;;
  if Executor.success result
  then ret (Some (pythonVersionIn (Executor.output result)))
  else ret None.

(** [getPythonVersion()] *)
Definition getPythonVersion : M (option string) :=
  first <- tryCatch
    (projectVersion <- await (getPythonVersionFromFiles ex) ;;
     if given projectVersion then ret (Some projectVersion)
     else versionFrom ["run"; "python"; "--version"])
    (fun _ => consoleError "Error getting Python version:" ;; ret None) ;;
  match first with
  | Some v => ret v
  | None =>
      second <- tryCatch
        (versionFrom ["python"; "--version"])
        (fun _ => consoleError "Error getting system Python version:" ;; ret None) ;;
      ret (default None second)
  end.

(** [isVenvActive()] *)
Definition isVenvActive : M bool :=
  active <- tryCatch
    (result <- await (fun n => executeCommand ex n
                        ["run"; "python"; "-c"; "import sys; print(sys.prefix)"]) ;;
     if Executor.success result then
       let pythonPrefix := trim (Executor.output result) in
       if given (getWorkspaceRoot ex)
          && includes (orEmpty (getWorkspaceRoot ex)) pythonPrefix
       then ret (Some true)
       else
         venvResult <- await (fun n => executeCommand ex n
                                ["run"; "python"; "-c";
                                 "import os; print(os.environ.get(" +:+ quoted "VIRTUAL_ENV"
                                 +:+ ", " +:+ quoted "" +:+ "))"]) ;;
         ret (Some (Executor.success venvResult
                    && truthy (trim (Executor.output venvResult))))
     else ret None)
    (fun _ => consoleError "Error checking venv status:" ;; ret None) ;;
  ret (default false active).

(** [getVenvStatus(environments)]: text, tooltip and command. *)
Definition getVenvStatus (environments : list string) : M (string * string * string) :=
  isActive <- isVenvActive ;;
  currentToolchain <- await (getCurrentPythonToolchain ex) ;;
  pythonVersion <- getPythonVersion ;;
  let versionInfo :=
    if given pythonVersion then " Python " +:+ orEmpty pythonVersion else "" in
  let toolchainInfo :=
    if given currentToolchain then " (" +:+ orEmpty currentToolchain +:+ ")" else "" in
  if isActive then
    ret ("$(server-environment) venv active",
         "Virtual environment is active" +:+ versionInfo +:+ toolchainInfo
           +:+ " - Click to deactivate",
         "uv.deactivateVenv")
  else
    match environments with
    | venvName :: _ =>
        ret ("$(server-environment) " +:+ venvName,
             "Virtual environment " +:+ venvName +:+ " exists" +:+ versionInfo
               +:+ toolchainInfo +:+ " but not active - Click to activate",
             "uv.activateVenv")
    | [] =>
        ret ("$(server-environment) no venv",
             "No virtual environment - Click to create one",
             "uv.venv")
    end.

(** The [try] block of [updateProjectBars]. *)
Definition updateProjectBars_try : M unit :=
  projectInfo <- await (getProjectInfo ex) ;;
  dependencies <- await (getDependencies ex) ;;
  environments <- await (getEnvironments ex) ;;
  (if given projectInfo then
     assign ProjectInfo ("$(folder) " +:+ orEmpty projectInfo)
       ("UV Project: " +:+ orEmpty projectInfo) "uv.tree" ;;
     show ProjectInfo
   else ret tt) ;;
  pythonVersion <- getPythonVersion ;;
  currentToolchain <- await (getCurrentPythonToolchain ex) ;;
  (if given pythonVersion then
     assign PythonVersion ("$(python) " +:+ orEmpty pythonVersion)
       (if given currentToolchain
        then "Python " +:+ orEmpty pythonVersion +:+ " ("
             +:+ orEmpty currentToolchain +:+ ") - Click to manage versions"
        else "Python " +:+ orEmpty pythonVersion +:+ " - Click to manage versions")
       "uv.python" ;;
     show PythonVersion
   else ret tt) ;;
  let depsCount := pretty (length dependencies) in
  assign Dependencies ("$(package) " +:+ depsCount +:+ " deps")
    (depsCount +:+ " dependencies - Click to manage") "uv.add" ;;
  show Dependencies ;;
  venvStatus <- getVenvStatus environments ;;
  assign Venv (fst (fst venvStatus)) (snd (fst venvStatus)) (snd venvStatus) ;;
  show Venv.

(** [updateProjectBars()] *)
Definition updateProjectBars : M unit :=
  tryCatch updateProjectBars_try
    (fun _ => consoleError "Error updating project bars:" ;; hideProjectBars).

(** The main item that offers to initialise a project. *)
Definition assignInit : M unit :=
  assign Main "$(plus) UV" "Initialize UV project - Click to create new project"
    "uv.init".

(** The [try] block of [updateStatus]. *)
Definition updateStatus_try : M unit :=
  hasProject <- await (hasProjectFiles ex) ;;
  isUVInstalled <- await (checkUVInstalled ex) ;;
  if negb isUVInstalled then
    assign Main "$(error) UV not found" "UV is not installed or not in PATH" "uv.help" ;;
    show Main ;;
    hideProjectBars
  else
    (if hasProject : bool then
       assign Main "$(check) UV Project"
         "UV project detected - Click for quick actions" "uv.showQuickActions"
     else assignInit) ;;
    show Main ;;
    if hasProject : bool then updateProjectBars else hideProjectBars.

(** [updateStatus()] *)
Definition updateStatus : M unit :=
  tryCatch updateStatus_try
    (fun _ =>
       consoleError "Error in updateStatus:" ;;
       assignInit ;;
       show Main ;;
       hideProjectBars).
End StatusBar.

(** The per-project sub-panels are hidden. *)
Definition subpanelsHidden (w : world) : Prop :=
  visible (items w ProjectInfo) = false
  /\ visible (items w PythonVersion) = false
  /\ visible (items w Dependencies) = false
  /\ visible (items w Venv) = false.




End StatusBar.

(** *** A scenario *)


(** The status bar as its constructor leaves it, the sub-panels not yet
    shown. *)
Definition freshBars : StatusBar.world :=
  StatusBar.World
    (fun b => match b with
              | StatusBar.Main =>
                  StatusBar.Item "$(plus) UV"
                    "Initialize UV project - Click to create new project"
                    (Some "uv.init") true
              | _ => StatusBar.Item "" "" None false
              end)
    0 [].


(** A workspace without a project, [uv] installed. *)
Definition noProject : StatusBar.executor :=
  StatusBar.Executor
    (fun _ => StatusBar.Returned false)
    (fun _ => StatusBar.Returned true)
    (fun _ => StatusBar.Returned None)
    (fun _ => StatusBar.Returned [])
    (fun _ => StatusBar.Returned [])
    (fun _ => StatusBar.Returned None)
    (fun _ => StatusBar.Returned None)
    (fun _ _ => StatusBar.Returned (Executor.Result false "" None))
    (Some "/ws").

(** ** Text helpers of the listings *)

Module Text.
Import Js.

Definition lineFeed : ascii := ascii_of_nat 10.          (* '\n' *)
Definition carriageReturn : ascii := ascii_of_nat 13.    (* '\r' *)

(** [s.split(sep)] for a separator of one character. *)
Fixpoint splitOn (sep : ascii) (s : string) : list string :=
  match s with
  | EmptyString => [EmptyString]
  | String c rest =>
      if Ascii.eqb c sep then EmptyString :: splitOn sep rest
      else match splitOn sep rest with
           | [] => [String c EmptyString]
           | seg :: segs => String c seg :: segs
           end
  end.

(** [s.split('\n')] *)
Definition lines (s : string) : list string := splitOn lineFeed s.

(** [s.replace(c, '')] for a pattern of one character: the first
    occurrence is removed. *)
Fixpoint removeFirst (c : ascii) (s : string) : string :=
  match s with
  | EmptyString => EmptyString
  | String d rest => if Ascii.eqb d c then rest else String d (removeFirst c rest)
  end.

(** [\S] *)
Definition isNonSpace (c : ascii) : bool := negb (isSpace c).

(** [.] in a pattern without the [s] flag: any character but a line
    terminator. *)
Definition isDot (c : ascii) : bool :=
  negb (Ascii.eqb c lineFeed || Ascii.eqb c carriageReturn).

(** The last character of a string. *)
Fixpoint lastChar (s : string) : option ascii :=
  match s with
  | EmptyString => None
  | String c EmptyString => Some c
  | String _ rest => lastChar rest
  end.

(** What is left of [s] after the prefix [p], when [s] starts with it. *)
Fixpoint stripPrefix (p s : string) : option string :=
  match p, s with
  | EmptyString, _ => Some s
  | String a p', String b s' => if Ascii.eqb a b then stripPrefix p' s' else None
  | String _ _, EmptyString => None
  end.

(** [array.includes(s)] on an array of strings. *)
Definition member (s : string) (l : list string) : bool :=
  existsb (String.eqb s) l.
End Text.

(** ** Interpreter listings ([listInstalledPythonVersions],
    [listAllPythonArches], [findToolchainForVersion])

    Each method awaits one [executeCommand] and works on its result;
    it is a function of that result.  (When the promise is rejected
    instead, the [catch] around the call makes the method return its
    default, an empty array or [null].) *)

Module Toolchains.
Import Js Regex Text Executor.

(** [/^\d+\.\d+\.\d+$/] *)
Definition releaseRegex : regex :=
  let digits := plus (Class isDigit) in
  Seq digits (Seq (lit ".") (Seq digits (Seq (lit ".") digits))).

(** [listInstalledPythonVersions()], given the result of
    [executeCommand(['python', 'list'])]. *)
Definition listInstalledPythonVersions (result : UVCommandResult) : list string :=
  if success result then
    List.filter (matches releaseRegex)
      (map (fun line => trim (removeFirst "*" line)) (lines (output result)))
  else [].

(** [listAllPythonVersions()], given the result of
    [executeCommand(['python', 'list', '--all'])]. *)
Definition listAllPythonVersions (result : UVCommandResult) : list string :=
  if success result then
    List.filter (matches releaseRegex) (map trim (lines (output result)))
  else [].

(** A line of the listing these two methods expect: a version, with an
    asterisk after it when it is the active one. *)
Definition listed (e : string * bool) : string :=
  if snd e then fst e +:+ "*" else fst e.

(** ['active' | 'installed' | 'available'] *)
Inductive status := Active | Installed | Available.

Record arch := Arch {
  id : string;
  version : string;
  state : status;
  path : option string
}.

Definition downloadAvailable : string := "<download available>".

(** [line.match(/^(\S+)\s+(<download available>|.+)$/)]: groups 1 and 2.

    [\S+] has to take the whole first word, since [\s+] needs a white
    space after it.  [\s+] first takes all the white space that follows;
    what is left has to be the literal or a run of [.] up to the end of
    the string.  Giving back white space only helps when nothing is left:
    then the last white space, if [.] accepts it, is group 2. *)
Definition archLine (line : string) : option (string * string) :=
  match span isNonSpace line with
  | (EmptyString, _) => None
  | (word, rest) =>
      match span isSpace rest with
      | (EmptyString, _) => None
      | (gap, EmptyString) =>
          match lastChar gap with
          | Some c =>
              if (2 <=? String.length gap)%nat && isDot c
              then Some (word, String c EmptyString)
              else None
          | None => None
          end
      | (_, right') =>
          if String.eqb right' downloadAvailable || every isDot right'
          then Some (word, right')
          else None
      end
  end.

(** [\d+\.[\dabrc]+(?:\.[\dabrc]+)?], the pattern of a version in an
    identifier, when it has to match a whole string. *)
Definition idVersionRegex : regex :=
  Seq (plus (Class isDigit))
    (Seq (lit ".")
       (Seq (plus (Class VersionFile.isVersionChar))
          (opt (Seq (lit ".") (plus (Class VersionFile.isVersionChar)))))).

(** The inner function [extractVersion(id)] of [listAllPythonArches]:
    [match ? match[1] : id], with the pattern of the pin file. *)
Definition versionOf (id : string) : string :=
  default id (VersionFile.extractVersion id).

(** The body of the loop of [listAllPythonArches]: what one line adds. *)
Definition archOf (line : string) : list arch :=
  match archLine line with
  | Some (id, right') =>
      if String.eqb right' downloadAvailable
      then [Arch id (versionOf id) Available None]
      else [Arch id (versionOf id) Installed (Some right')]
  | None => []
  end.

(** [listAllPythonArches()], given the result of
    [executeCommand(['python', 'list', '--all-arches'])]. *)
Definition listAllPythonArches (result : UVCommandResult) : list arch :=
  if success result then
    flat_map archOf (List.filter truthy (map trim (lines (output result))))
  else [].

Definition isInstalled (v : arch) : bool :=
  match state v with Installed => true | _ => false end.

(** [findToolchainForVersion(version)], given the listing. *)
Definition findToolchainForVersion (arches : list arch) (version : string)
  : option string :=
  match List.find (fun v => isInstalled v
                            && String.prefix (VersionFile.majorMinor version)
                                             (Toolchains.version v))
                  arches with
  | Some matching => Some (id matching)
  | None => None
  end.

(** [line.match(/^(\S+)/)]: group 1. *)
Definition firstWord (line : string) : option string :=
  match span isNonSpace line with
  | (EmptyString, _) => None
  | (word, _) => Some word
  end.

(** The loop of [getCurrentPythonToolchain] over the lines of the
    listing: the first word of the first line that holds an asterisk and
    starts with a word. *)
Fixpoint activeLine (lines : list string) : option string :=
  match lines with
  | [] => None
  | line :: rest =>
      if includes "*" line then
        match firstWord line with
        | Some word => Some word
        | None => activeLine rest
        end
      else activeLine rest
  end.

(** [getCurrentPythonToolchain()], given the results of
    [executeCommand(['run', 'python', '--version'])] and of
    [executeCommand(['python', 'list'])]. *)
Definition getCurrentPythonToolchain (result toolchainResult : UVCommandResult)
  : option string :=
  if success result then
    if success toolchainResult
    then activeLine (lines (output toolchainResult))
    else None
  else None.
End Toolchains.

(** ** Test files ([UVCommands.isTestFile]) *)

Module Tests.
Import Js Regex Text.

(** The pattern that matches one string. *)
Fixpoint str (s : string) : regex :=
  match s with
  | EmptyString => Eps
  | String c rest => Seq (lit c) (str rest)
  end.

(** [.*] *)
Definition dots : regex := Star (Class isDot).

(** [pattern.test(s)] for a pattern [/r$/], which may match from any
    position of [s] up to its end. *)
Definition testEnd (r : regex) (s : string) : bool :=
  matches (Seq (Star (Class (fun _ => true))) r) s.

(** [[/test_.*\.py$/, /.*_test\.py$/, /.*test.*\.py$/]] *)
Definition testPatterns : list regex :=
  [ Seq (str "test_") (Seq dots (str ".py"));
    Seq dots (str "_test.py");
    Seq dots (Seq (str "test") (Seq dots (str ".py"))) ].

(** [isTestFile(fileName)] *)
Definition isTestFile (fileName : string) : bool :=
  existsb (fun pattern => testEnd pattern fileName) testPatterns.
End Tests.

(** ** Dependencies ([parseDependenciesFromTree])

    The branch glyphs of the output of [uv tree] are outside ASCII; in a
    byte string they are the three bytes of their UTF-8 form. *)

Module Tree.
Import Js Text.

(** [[a-zA-Z0-9_-]] *)
Definition isNameChar (c : ascii) : bool :=
  let n := nat_of_ascii c in
  ((97 <=? n)%nat && (n <=? 122)%nat) || ((65 <=? n)%nat && (n <=? 90)%nat)
  || isDigit c || Ascii.eqb c "_" || Ascii.eqb c "-".

(** [line.match(/^[├└]──\s*([a-zA-Z0-9_-]+)/)]: group 1.  [\s*] takes all
    the white space after the glyphs, since the name cannot start with
    one. *)
Definition packageOf (line : string) : option string :=
  let rest :=
    match stripPrefix "├──" line with
    | Some rest => Some rest
    | None => stripPrefix "└──" line
    end in
  match rest with
  | Some rest =>
      match span isNameChar (trimStart rest) with
      | (EmptyString, _) => None
      | (packageName, _) => Some packageName
      end
  | None => None
  end.

(** The body of the loop. *)
Definition addLine (dependencies : list string) (line : string) : list string :=
  match packageOf line with
  | Some packageName =>
      if member packageName dependencies then dependencies
      else dependencies ++ [packageName]
  | None => dependencies
  end.

(** [parseDependenciesFromTree(treeOutput)] *)
Definition parseDependenciesFromTree (treeOutput : string) : list string :=
  fold_left addLine (lines treeOutput) [].
End Tree.

(** ** Cached queries ([getProjectInfo], [getDependencies])

    A query reads the cache when it is called, at clock value [t0], and
    writes it after the commands it awaited, at clock value [t1].  What
    the world answers in between is given: the result of the command,
    what [getBasicProjectInfo] and [getDependenciesFromPyproject]
    return. *)

Module Queries.
Import Js Executor Cache.

(** What a query did besides using the cache. *)
Inductive action :=
| Command (args : list string)     (* executeCommand(args) *)
| BasicProjectInfo                 (* getBasicProjectInfo() *)
| DependenciesFromPyproject.       (* getDependenciesFromPyproject() *)

Section Queries.
(** The values [JSON.parse] returns, and their truthiness. *)
Context {J : Type}.
Variable truthyJ : J -> bool.
(** [JSON.parse(text)]; [None] when it throws. *)
Variable parse : string -> option J.

(** The values held by the cache, which is a [Map<string, { value: any,
    ... }>]. *)
Inductive any :=
| Null
| Json (j : J)
| Project (name version : string)     (* { name, version } *)
| Names (names : list string).        (* string[] *)

(** [if (v)] *)
Definition holds (v : any) : bool :=
  match v with
  | Null => false
  | Json j => truthyJ j
  | Project _ _ => true
  | Names _ => true
  end.

(** [getProjectInfo()]; [result] is what
    [executeCommand(['tree', '--format', 'json'])] resolves to and [basic]
    what [getBasicProjectInfo()] returns. *)
Definition getProjectInfo (t0 t1 : Z) (result : UVCommandResult) (basic : any)
    (cache : gmap string (entry any))
  : any * gmap string (entry any) * list action :=
  let '(cached, cache) := getCached "projectInfo" t0 cache in
  match (match cached with
         | Some v => if holds v then Some v else None
         | None => None
         end) with
  | Some v => (v, cache, [])
  | None =>
      let '(info, fallback) :=
        if success result then
          match parse (output result) with
          | Some j => (Json j, [])
          | None => (basic, [BasicProjectInfo])
          end
        else (Null, []) in
      (info, setCached "projectInfo" info t1 cache,
       Command ["tree"; "--format"; "json"] :: fallback)
  end.

(** [getDependencies()]; [depsFromPyproject] is what
    [getDependenciesFromPyproject()] returns and [result] what
    [executeCommand(['tree'])] resolves to. *)
Definition getDependencies (t0 t1 : Z) (depsFromPyproject : list string)
    (result : UVCommandResult) (cache : gmap string (entry any))
  : any * gmap string (entry any) * list action :=
  let '(cached, cache) := getCached "dependencies" t0 cache in
  match (match cached with
         | Some v => if holds v then Some v else None
         | None => None
         end) with
  | Some v => (v, cache, [])
  | None =>
      let '(deps, more) :=
        match depsFromPyproject with
        | _ :: _ => (depsFromPyproject, [])
        | [] =>
            (if success result
             then Tree.parseDependenciesFromTree (output result)
             else [],
             [Command ["tree"]])
        end in
      (Names deps, setCached "dependencies" (Names deps) t1 cache,
       DependenciesFromPyproject :: more)
  end.
End Queries.
End Queries.

(** ** Commands in a terminal ([executeInTerminal]) *)

Module Terminal.
Import Js Executor.

(** What [executeInTerminal] does: it shows an error, or it creates a
    terminal named ['UV'] in a directory and sends it a text. *)
Inductive effect :=
| ShowError (message : string)
| SendText (name cwd text : string).

(** [executeInTerminal(args, cwd)] *)
Definition executeInTerminal (uvPath : string) (workspaceRoot : option string)
    (args : list string) (cwd : option string) : effect :=
  match or_else cwd workspaceRoot with
  | Some d =>
      if truthy d then SendText "UV" d (uvPath +:+ " " +:+ join args)
      else ShowError "No workspace root found"
  | None => ShowError "No workspace root found"
  end.
End Terminal.

(** ** More on the debounced refresh and on the supervisor *)

Module Refresh.
Import Debounce.

(** The time of the latest request of a run, [r] being the one before
    the run, if there was one. *)
Definition latest_from (r : option Z) (evs : list event) : option Z :=
  fold_left (fun r ev => match ev with
                         | Request t => Some t
                         | Fire _ _ => r
                         end) evs r.

Definition latest (evs : list event) : option Z := latest_from None evs.

(** The number of calls of [debouncedUpdateStatus] in a run. *)
Definition requests (evs : list event) : nat :=
  length (List.filter (fun ev => match ev with
                                 | Request _ => true
                                 | Fire _ _ => false
                                 end) evs).

(** The state of the refresh with respect to the latest request [r]:
    nothing was ever asked for and nothing was done; or the timeout of
    the latest request is the only one pending; or nothing is pending and
    the last refresh ran after the quiet period of the latest request. *)
Definition settled_for (r : option Z) (st : state) : Prop :=
  match r with
  | None => timeouts st = [] /\ updates st = []
  | Some t =>
      (exists h, timeouts st = [(h, (t + debounceDelay)%Z)]
                 /\ debounceTimer st = Some h)
      \/ (timeouts st = []
          /\ exists us u, updates st = us ++ [u] /\ (t + debounceDelay <= u)%Z)
  end.
End Refresh.

Module Supervision.
Import HttpServer.

(** What every run keeps: the child the supervisor holds and the children
    it killed are children it spawned; and while it says it is running,
    the child it holds has emitted neither ['error'] nor ['exit'] and is
    not one it has killed. *)
Definition supervised (st : manager) : Prop :=
  (forall pid, serverProcess st = Some pid -> pid < length (attempts st))
  /\ Forall (fun pid => pid < length (attempts st)) (killed st)
  /\ (running st = true ->
      exists pid a,
        serverProcess st = Some pid /\ live pid st = Some a /\ pid ∉ killed st).

(** What [isRunning()], [getPort()] and [getFolder()] return, which is
    what the HTTP item of the status bar shows, and the process held. *)
Definition shown (st : manager) : bool * Z * string * option nat :=
  (running st, currentPort st, currentFolder st, serverProcess st).
End Supervision.

(** ** Waiting for the virtual environment ([waitForVenvPythonVersion])

    The method polls: every round runs [uv run python --version], and
    when the version is not the expected one looks for the interpreter of
    [.venv] and runs the command once more; then it sleeps 2 s.  The world
    answers the commands and the look-ups in the order they are made.
    The model is of the rounds in which the promises of
    [executeCommand] are fulfilled (a rejected one ends the round at
    once, through the outer [catch]); a failed look-up is caught inside
    the round. *)

Module VenvWait.
Import Js Executor.
Local Open Scope Z_scope.

Record world := World {
  exec : nat -> UVCommandResult;   (* the k-th executeCommand(['run', 'python', '--version']) *)
  stat : nat -> bool               (* whether the k-th fs.stat of the interpreter finds it *)
}.

Record progress := Progress {
  commands : nat;     (* commands run so far *)
  stats : nat;        (* look-ups made so far *)
  waited : Z          (* [waited], in ms *)
}.

(** [const interval = 2000;] *)
Definition interval : Z := 2000.

(** Strategy 1 of a round: the command succeeded, its output holds a
    version, and the major.minor of that version is the expected one. *)
Definition verified (version : string) (result : UVCommandResult) : bool :=
  success result
  && match StatusBar.pythonVersionIn (output result) with
     | Some actualVersion =>
         String.eqb (VersionFile.majorMinor version)
                    (VersionFile.majorMinor actualVersion)
     | None => false
     end.

Section VenvWait.
Variable w : world.

(** The loop [while (waited < limit)] and what follows it; [fuel] bounds
    the number of rounds, and [None] is a run that needs more. *)
Fixpoint poll (fuel : nat) (version : string) (limit : Z) (p : progress)
  : option (bool * progress) :=
  if waited p <? limit then
    match fuel with
    | O => None
    | S fuel =>
        let result := exec w (commands p) in
        if verified version result
        then Some (true, Progress (S (commands p)) (stats p) (waited p))
        else if stat w (stats p) then
          let retryResult := exec w (S (commands p)) in
          if success retryResult
          then Some (true, Progress (S (S (commands p))) (S (stats p)) (waited p))
          else poll fuel version limit
                 (Progress (S (S (commands p))) (S (stats p)) (waited p + interval))
        else poll fuel version limit
               (Progress (S (commands p)) (S (stats p)) (waited p + interval))
    end
  else
    let finalCheck := exec w (commands p) in
    Some (success finalCheck, Progress (S (commands p)) (stats p) (waited p)).

(** [waitForVenvPythonVersion(version, maxSeconds)] *)
Definition waitForVenvPythonVersion (workspaceRoot : option string)
    (version : string) (maxSeconds : Z) (fuel : nat) : option (bool * progress) :=
  match workspaceRoot with
  | Some root =>
      if truthy root then poll fuel version (maxSeconds * 1000) (Progress 0 0 0)
      else Some (false, Progress 0 0 0)
  | None => Some (false, Progress 0 0 0)
  end.
End VenvWait.

(** The rounds it takes for [waited] to reach [limit] from [from]. *)
Definition rounds_left (limit from : Z) : nat :=
  Z.to_nat ((limit - from + (interval - 1)) / interval).

(** The rounds of a wait of [maxSeconds]. *)
Definition rounds (maxSeconds : Z) : nat := rounds_left (maxSeconds * 1000) 0.
End VenvWait.
(** * Part II: properties *)

Module CacheProps.
Import Cache.
Section CacheProps.
Context {V : Type}.
Implicit Types (cache : gmap string (entry V)) (key : string) (v : V).
Local Open Scope Z_scope.

Lemma getCached_fresh key now cache e :
  cache !! key = Some e -> now < expires e ->
  getCached key now cache = (Some (value e), cache).
Proof.
  intros Hk Hlt. unfold getCached. rewrite Hk.
  destruct (Z.ltb_spec now (expires e)); [done | lia].
Qed.

Lemma getCached_expired key now cache e :
  cache !! key = Some e -> expires e <= now ->
  getCached key now cache = (None, delete key cache).
Proof.
  intros Hk Hle. unfold getCached. rewrite Hk.
  destruct (Z.ltb_spec now (expires e)); [lia | done].
Qed.

Lemma getCached_absent key now cache :
  cache !! key = None -> getCached key now cache = (None, cache).
Proof. intros Hk. unfold getCached. by rewrite Hk. Qed.

(** A read never adds or changes an entry: afterwards every key holds
    what it held before, or nothing. *)
Lemma getCached_store key' now cache key :
  snd (getCached key' now cache) !! key = cache !! key
  \/ snd (getCached key' now cache) !! key = None.
Proof.
  unfold getCached. destruct (cache !! key') as [e|] eqn:Hk'; [|by left].
  destruct (now <? expires e); [by left|]. simpl.
  destruct (decide (key' = key)) as [->|Hne].
  - right. apply lookup_delete_eq.
  - left. by apply lookup_delete_ne.
Qed.

(** A read before the expiry of [key]'s entry leaves that entry alone. *)
Lemma getCached_keeps key' now cache key e :
  cache !! key = Some e -> now < expires e ->
  snd (getCached key' now cache) !! key = Some e.
Proof.
  intros Hk Hlt. unfold getCached.
  destruct (cache !! key') as [e'|] eqn:Hk'; [|done].
  destruct (Z.ltb_spec now (expires e')); [done|]. simpl.
  destruct (decide (key' = key)) as [->|Hne].
  - rewrite Hk in Hk'. injection Hk' as <-. lia.
  - by rewrite lookup_delete_ne.
Qed.

Lemma lookups_keeps reads : forall cache key e t,
  cache !! key = Some e -> t < expires e ->
  Forall (fun r => snd r <= t) reads ->
  lookups reads cache !! key = Some e.
Proof.
  induction reads as [|[k now] reads IH]; intros cache key e t Hk Hlt Hall;
    [done|].
  inversion Hall as [|? ? Hnow Hrest]; subst. simpl in *.
  eapply IH; [|exact Hlt|exact Hrest].
  apply getCached_keeps; [done|lia].
Qed.

Lemma lookups_store reads : forall cache key,
  lookups reads cache !! key = cache !! key
  \/ lookups reads cache !! key = None.
Proof.
  induction reads as [|[k now] reads IH]; intros cache key; [by left|].
  simpl. destruct (IH (snd (getCached k now cache)) key) as [-> | ->];
    [apply getCached_store | by right].
Qed.

(** C4. After [setCached(K, V)] at time [T], and whatever other reads
    happen in between (no write, no invalidation), [getCached(K)] at a
    time [t] with [T <= t < T + 1500] returns [V]; at [t >= T + 1500]
    it returns nothing and leaves no entry for [K]; and any read that
    finds an expired entry deletes it. *)
Theorem getCached_ttl key v T cache (reads : list (string * Z)) t :
  Forall (fun r => snd r <= t) reads ->
  let c := lookups reads (setCached key v T cache) in
  (T <= t < T + 1500 -> fst (getCached key t c) = Some v)
  /\ (T + 1500 <= t ->
      fst (getCached key t c) = None /\ snd (getCached key t c) !! key = None)
  /\ (forall (c' : gmap string (entry V)) e now, c' !! key = Some e -> expires e <= now ->
      getCached key now c' = (None, delete key c')).
Proof.
  intros Hreads c. split; [|split].
  - intros [_ Hlt].
    assert (c !! key = Some (Entry v (T + cacheTTL))) as Hc.
    { eapply lookups_keeps with (t := t); [apply lookup_insert_eq| |done].
      simpl. unfold cacheTTL. lia. }
    rewrite (getCached_fresh key t c _ Hc); [done|]. simpl. unfold cacheTTL. lia.
  - intros Hle.
    destruct (lookups_store reads (setCached key v T cache) key) as [Hc|Hc];
      fold c in Hc.
    + unfold setCached in Hc. rewrite lookup_insert_eq in Hc.
      rewrite (getCached_expired key t c _ Hc); [|simpl; unfold cacheTTL; lia].
      simpl. split; [done|apply lookup_delete_eq].
    + rewrite getCached_absent; done.
  - intros c' e now. apply getCached_expired.
Qed.

Lemma lookups_empty reads : lookups reads (∅ : gmap string (entry V)) = ∅.
Proof.
  induction reads as [|[k now] reads IH]; [done|]. simpl.
  by rewrite getCached_absent.
Qed.

(** C5. After [invalidateAllCaches()], whatever the store held, the next
    [getCached(K)] finds nothing, for every key and at every clock value;
    and so do the ones that follow it, as long as nothing is written. *)
Theorem invalidateAllCaches_miss cache (reads : list (string * Z)) key now :
  getCached key now (invalidateAllCaches cache) = (None, ∅)
  /\ getCached key now (lookups reads (invalidateAllCaches cache)) = (None, ∅).
Proof.
  unfold invalidateAllCaches, invalidateAllCache. rewrite lookups_empty.
  split; apply getCached_absent, lookup_empty.
Qed.
End CacheProps.

End CacheProps.

(** An entry written at 1000 is still served at 2400, after two reads by
    other panels. *)
Lemma getCached_ttl_witness :
  let c := Cache.lookups [("environments", 1200%Z); ("dependencies", 2000%Z)]
             (Cache.setCached "dependencies" 7%nat 1000%Z ∅) in
  fst (Cache.getCached "dependencies" 2400%Z c) = Some 7%nat.
Proof.
  intros c.
  assert (Forall (fun r : string * Z => (snd r <= 2400)%Z)
            [("environments", 1200%Z); ("dependencies", 2000%Z)]) as Hreads.
  { repeat constructor; simpl; lia. }
  destruct (CacheProps.getCached_ttl "dependencies" 7%nat 1000%Z ∅ _ 2400%Z Hreads)
    as (Hfresh & _ & _).
  apply Hfresh. lia.
Defined.

(** ** The command queue *)

Module QueueProps.
Import Promise Queue.
Section QueueProps.
Context {Op V E : Type} (call : Op -> pstate V E).
Implicit Types (l : link Op V E) (c rest ds tl : list (link Op V E)) (q : queue Op V E).
Implicit Types (prev : pstate unit E) (s : pstate V E) (k : nat).

Lemma idle_expected c : forall k, Forall idle c -> expected k c = [].
Proof.
  induction c as [|l rest IH]; intros k Hc; [done|].
  inversion Hc as [|? ? [Hin _] Hrest]; subst. simpl. rewrite Hin. simpl. by apply IH.
Qed.

Lemma idle_wf c prev : prev <> Pending -> Forall idle c -> wf prev c.
Proof.
  intros Hprev Hc. destruct c as [|l rest]; [done|].
  inversion Hc as [|? ? [Hin Hd] Hrest]; subst. simpl. rewrite Hd.
  split; [done|]. split; [by rewrite Hin|done].
Qed.

Lemma wf_enqueue op c : forall prev,
  prev <> Pending -> wf prev c -> wf prev (c ++ [Link op None Pending]).
Proof.
  induction c as [|l rest IH]; intros prev Hprev Hwf; simpl in *.
  - split; [done|]. split; [done|constructor].
  - destruct (derived l) as [|v|e].
    + destruct Hwf as (? & ? & Hidle). repeat split; try done.
      apply Forall_app. split; [done|]. by repeat constructor.
    + destruct Hwf as (? & ? & Hrest). repeat split; try done. by apply IH.
    + destruct Hwf as (? & Hrest). split; [done|]. by apply IH.
Qed.

Lemma expected_enqueue op c : forall k,
  expected k (c ++ [Link op None Pending]) = expected k c.
Proof.
  induction c as [|l rest IH]; intros k; simpl; [done|]. by rewrite IH.
Qed.

Lemma react_inv c : forall k prev,
  wf prev c ->
  wf prev (fst (react call k prev c))
  /\ expected k (fst (react call k prev c)) = expected k c ++ snd (react call k prev c).
Proof.
  induction c as [|l rest IH]; intros k prev Hwf; simpl in *.
  { done. }
  destruct (derived l) as [|v|e] eqn:Hd.
  - destruct Hwf as (Hprev & Hin & Hidle).
    destruct prev as [|[]|e]; [done| |].
    + destruct (inner l) as [[|v|e]|] eqn:Hi; simpl;
        rewrite ?Hd, ?Hi, ?app_nil_r; simpl.
      * repeat split; done.
      * split; [|done]. repeat split; try done. by apply idle_wf.
      * split; [|done]. split; [by left|]. by apply idle_wf.
      * split; [repeat split; done|].
        rewrite (idle_expected rest (S k) Hidle).
        by destruct (call (fn l)).
    + simpl. rewrite app_nil_r. split; [|done].
      destruct (inner l) as [s|] eqn:Hi.
      * assert (@Rejected unit E e = Fulfilled tt) by (apply Hin; done). done.
      * split; [by right|]. by apply idle_wf.
  - destruct Hwf as (Hprev & Hin & Hrest).
    destruct (IH (S k) (Fulfilled tt) Hrest) as [Hwf' Hex'].
    simpl. destruct (react call (S k) (Fulfilled tt) rest) as [rest' es] eqn:Hr.
    simpl in *. rewrite Hd, Hin. simpl. split; [done|].
    by rewrite Hex'.
  - destruct Hwf as (Hprev & Hrest).
    destruct (IH (S k) (Rejected e) Hrest) as [Hwf' Hex'].
    simpl. destruct (react call (S k) (Rejected e) rest) as [rest' es] eqn:Hr.
    simpl in *. rewrite Hd. split; [done|].
    rewrite Hex'. by rewrite app_assoc.
Qed.

Lemma job_inv q : inv q -> inv (job call q).
Proof.
  intros [Hwf Hlog]. unfold job, inv.
  destruct (react_inv (chain q) 0 (Fulfilled tt) Hwf) as [Hwf' Hex'].
  destruct (react call 0 (Fulfilled tt) (chain q)) as [c es]. simpl in *.
  split; [done|]. by rewrite Hex', Hlog.
Qed.

Lemma enqueue_inv op q : inv q -> inv (enqueue op q).
Proof.
  intros [Hwf Hlog]. unfold enqueue, inv. simpl.
  split; [by apply wf_enqueue|]. by rewrite expected_enqueue.
Qed.

(** Only the link in progress can hold a pending operation; settling it
    appends [Done] to the log the chain accounts for. *)
Lemma settle_chain_inv c : forall j k prev l s,
  wf prev c -> c !! k = Some l -> inner l = Some Pending -> settled s = true ->
  wf prev (<[ k := Link (fn l) (Some s) (derived l) ]> c)
  /\ expected j (<[ k := Link (fn l) (Some s) (derived l) ]> c)
     = expected j c ++ [Done (j + k)].
Proof.
  induction c as [|l0 rest IH]; intros j k prev l s Hwf Hk Hin Hs; [done|].
  destruct k as [|k]; simpl in *.
  - injection Hk as ->. rewrite Hin in *.
    destruct (derived l) as [|v|e] eqn:Hd; simpl.
    + destruct Hwf as (Hprev & Hp & Hidle).
      split; [split; [done|split; [intros _; by apply Hp|done]]|].
      rewrite (idle_expected rest (S j) Hidle), Nat.add_0_r.
      by destruct s.
    + by destruct Hwf as (_ & ? & _).
    + by destruct Hwf as ([[_ ?]|[_ ?]] & _).
  - destruct (derived l0) as [|v|e] eqn:Hd.
    + destruct Hwf as (_ & _ & Hidle).
      assert (idle l) as [Hnone _].
      { eapply Forall_lookup_1; [exact Hidle|exact Hk]. }
      by rewrite Hnone in Hin.
    + destruct Hwf as (Hprev & Hi0 & Hrest).
      destruct (IH (S j) k (Fulfilled tt) l s Hrest Hk Hin Hs) as [Hwf' Hex'].
      split; [done|]. replace (j + S k) with (S j + k) by lia.
      by rewrite Hex', Hi0.
    + destruct Hwf as (Hprev & Hrest).
      destruct (IH (S j) k (Rejected e) l s Hrest Hk Hin Hs) as [Hwf' Hex'].
      split; [done|]. replace (j + S k) with (S j + k) by lia.
      by rewrite Hex', app_assoc.
Qed.

Lemma settle_inv k s q : inv q -> inv (settle k s q).
Proof.
  intros [Hwf Hlog]. unfold settle.
  destruct (chain q !! k) as [l|] eqn:Hk; [|done].
  destruct (inner l) as [[| |]|] eqn:Hin; try done.
  destruct (settled s) eqn:Hs; [|done].
  destruct (settle_chain_inv (chain q) 0 k (Fulfilled tt) l s Hwf Hk Hin Hs)
    as [Hwf' Hex'].
  split; simpl; [done|]. by rewrite Hex', Hlog.
Qed.

Lemma step_inv q ev : inv q -> inv (step call q ev).
Proof.
  destruct ev; simpl; [apply enqueue_inv|apply job_inv|apply settle_inv].
Qed.

Lemma run_inv evs : forall q, inv q -> inv (run call evs q).
Proof.
  induction evs as [|ev evs IH]; intros q Hq; [done|].
  simpl. apply IH. by apply step_inv.
Qed.

Lemma empty_inv : inv (@empty Op V E).
Proof. done. Qed.

(** Behind a rejected promise nothing is called. *)
Lemma rejected_uncalled c : forall e,
  wf (Rejected e) c -> Forall (fun l => inner l = None) c.
Proof.
  induction c as [|l rest IH]; intros e Hwf; [constructor|]. simpl in Hwf.
  destruct (derived l) as [|v|e'] eqn:Hd.
  - destruct Hwf as (_ & Hin & Hidle). constructor.
    + destruct (inner l); [|done]. by discriminate Hin.
    + eapply Forall_impl; [exact Hidle|]. by intros ? [? _].
  - by destruct Hwf as (? & _).
  - destruct Hwf as ([[? _]|[_ Hin]] & Hrest); [done|].
    constructor; [done|]. by eapply IH.
Qed.

Lemma uncalled_expected c : forall k,
  Forall (fun l => inner l = None) c -> expected k c = [].
Proof.
  induction c as [|l rest IH]; intros k Hc; [done|].
  inversion Hc as [|? ? Hin Hrest]; subst. simpl. rewrite Hin. by apply IH.
Qed.

Lemma serial_from_S j m :
  serial_from j (S m) = Call j :: Done j :: serial_from (S j) m.
Proof. done. Qed.

(** The log of a well-formed chain is serial: the operations called are
    the first ones, each one called after the one before it was done. *)
Lemma wf_serial c : forall j prev,
  wf prev c ->
  exists m, m <= length c
    /\ (expected j c = serial_from j m
        \/ expected j c = serial_from j m ++ [Call (j + m)]).
Proof.
  induction c as [|l rest IH]; intros j prev Hwf.
  { exists 0. split; [done|]. by left. }
  simpl in Hwf. destruct (derived l) as [|v|e] eqn:Hd.
  - destruct Hwf as (_ & _ & Hidle). simpl.
    rewrite (idle_expected rest (S j) Hidle), app_nil_r.
    destruct (inner l) as [[|v|e]|].
    + exists 0. split; [lia|]. right. by rewrite Nat.add_0_r.
    + exists 1. split; [simpl; lia|]. by left.
    + exists 1. split; [simpl; lia|]. by left.
    + exists 0. split; [lia|]. by left.
  - destruct Hwf as (_ & Hin & Hrest). simpl. rewrite Hin.
    destruct (IH (S j) _ Hrest) as (m & Hm & Hex).
    exists (S m). split; [simpl; lia|]. rewrite serial_from_S.
    replace (j + S m) with (S j + m) by lia.
    destruct Hex as [-> | ->]; [by left|by right].
  - destruct Hwf as (Hin & Hrest). simpl.
    rewrite (uncalled_expected rest (S j) (rejected_uncalled rest e Hrest)), app_nil_r.
    destruct Hin as [[_ ->]|[_ ->]].
    + exists 1. split; [simpl; lia|]. by left.
    + exists 0. split; [lia|]. by left.
Qed.

(** At most one operation is in flight. *)
Lemma wf_in_flight c : forall prev, wf prev c -> in_flight c <= 1.
Proof.
  unfold in_flight.
  assert (forall c : list (link Op V E),
            Forall (fun l => inner l = None) c ->
            List.filter (fun l => match inner l with
                                  | Some Pending => true
                                  | _ => false
                                  end) c = []) as Hnone.
  { clear. induction c as [|l rest IH]; intros Hc; [done|].
    inversion Hc as [|? ? Hl Hrest]; subst. simpl. rewrite Hl. by apply IH. }
  induction c as [|l rest IH]; intros prev Hwf; simpl; [lia|].
  simpl in Hwf. destruct (derived l) as [|v|e] eqn:Hd.
  - destruct Hwf as (_ & _ & Hidle). rewrite (Hnone rest).
    + destruct (inner l) as [[| |]|]; simpl; lia.
    + eapply Forall_impl; [exact Hidle|]. by intros ? [? _].
  - destruct Hwf as (_ & Hin & Hrest). rewrite Hin. by eapply IH.
  - destruct Hwf as (Hin & Hrest).
    rewrite (Hnone rest (rejected_uncalled rest e Hrest)).
    destruct Hin as [[_ ->]|[_ ->]]; simpl; lia.
Qed.

(** An operation is called only once the promise of the one enqueued
    before it is fulfilled. *)
Lemma wf_called_after c : forall k prev l1 l2,
  wf prev c -> c !! k = Some l1 -> c !! S k = Some l2 -> inner l2 <> None ->
  exists v, inner l1 = Some (Fulfilled v) /\ derived l1 = Fulfilled v.
Proof.
  induction c as [|l0 rest IH]; intros k prev l1 l2 Hwf H1 H2 Hin; [done|].
  simpl in Hwf. destruct (derived l0) as [|v|e] eqn:Hd.
  - destruct Hwf as (_ & _ & Hidle).
    assert (idle l2) as [Hnone _]; [|done].
    eapply Forall_lookup_1; [exact Hidle|exact H2].
  - destruct Hwf as (_ & Hi0 & Hrest). destruct k as [|k].
    + injection H1 as <-. by exists v.
    + by eapply (IH k).
  - destruct Hwf as (_ & Hrest).
    assert (inner l2 = None); [|done].
    eapply (Forall_lookup_1 _ _ _ _ (rejected_uncalled rest e Hrest)). exact H2.
Qed.

(** A job never forgets that an operation was called. *)
Lemma react_lookup c : forall k0 prev i l,
  c !! i = Some l ->
  exists l', fst (react call k0 prev c) !! i = Some l'
    /\ fn l' = fn l /\ (inner l <> None -> inner l' = inner l).
Proof.
  induction c as [|l0 rest IH]; intros k0 prev i l Hi; [done|]. simpl.
  destruct (derived l0) as [|v|e] eqn:Hd.
  - destruct i as [|i]; simpl in Hi.
    + injection Hi as ->.
      destruct prev as [|[]|e]; simpl; [by exists l| |by eexists].
      destruct (inner l) as [[|v|e]|] eqn:Hl; simpl; by eexists.
    + destruct prev as [|[]|e]; simpl; [by exists l| |by exists l].
      destruct (inner l0) as [[|v|e]|]; simpl; by exists l.
  - simpl. destruct (react call (S k0) (Fulfilled tt) rest) as [rest' es] eqn:Hr.
    destruct i as [|i]; simpl in *; [injection Hi as ->; by exists l|].
    destruct (IH (S k0) (Fulfilled tt) i l Hi) as (l' & Hl' & ?).
    rewrite Hr in Hl'. by exists l'.
  - simpl. destruct (react call (S k0) (Rejected e) rest) as [rest' es] eqn:Hr.
    destruct i as [|i]; simpl in *; [injection Hi as ->; by exists l|].
    destruct (IH (S k0) (Rejected e) i l Hi) as (l' & Hl' & ?).
    rewrite Hr in Hl'. by exists l'.
Qed.

(** At the head of a chain hanging on a fulfilled promise, one job is
    enough for the operation to have been called. *)
Lemma react_calls_head l rest k0 :
  wf (Fulfilled tt) (l :: rest) ->
  exists l', fst (react call k0 (Fulfilled tt) (l :: rest)) !! 0 = Some l'
    /\ inner l' <> None.
Proof.
  simpl. intros Hwf. destruct (derived l) as [|v|e] eqn:Hd.
  - destruct (inner l) as [[|v|e]|] eqn:Hl; simpl; eexists; (split; [done|]);
      simpl; by rewrite ?Hl.
  - destruct Hwf as (_ & Hl & _).
    simpl. destruct (react call (S k0) (Fulfilled tt) rest). simpl.
    exists l. by rewrite Hl.
  - destruct Hwf as ([[_ Hl]|[? _]] & _); [|done].
    simpl. destruct (react call (S k0) (Rejected e) rest). simpl.
    exists l. by rewrite Hl.
Qed.

(** Two jobs after an operation fulfilled, the next one has been called. *)
Lemma react_calls_next c : forall k0 k1 i l1 l2 v,
  wf (Fulfilled tt) c -> c !! i = Some l1 -> c !! S i = Some l2 ->
  inner l1 = Some (Fulfilled v) ->
  exists l2',
    fst (react call k1 (Fulfilled tt) (fst (react call k0 (Fulfilled tt) c))) !! S i
      = Some l2'
    /\ inner l2' <> None.
Proof.
  induction c as [|l0 rest IH]; intros k0 k1 i l1 l2 v Hwf H1 H2 Hin; [done|].
  simpl in Hwf. destruct (derived l0) as [|v0|e] eqn:Hd.
  - destruct Hwf as (_ & _ & Hidle). destruct i as [|i].
    + injection H1 as <-. destruct rest as [|l2' rest']; [done|].
      injection H2 as ->. inversion Hidle as [|? ? [Hn Hp] _]; subst.
      simpl. rewrite Hd, Hin. simpl. rewrite Hp, Hn. simpl.
      eexists. split; [done|]. done.
    + assert (idle l1) as [Hnone _].
      { eapply Forall_lookup_1; [exact Hidle|exact H1]. }
      by rewrite Hnone in Hin.
  - destruct Hwf as (_ & Hi0 & Hrest). simpl. rewrite Hd. simpl.
    destruct i as [|i].
    + destruct rest as [|l2' rest']; [done|]. injection H2 as ->.
      destruct (react_calls_head l2 rest' (S k0) Hrest) as (l' & Hl' & Hc).
      destruct (react call (S k0) (Fulfilled tt) (l2 :: rest')) as [c1 es1] eqn:Hr1.
      simpl in *. rewrite Hd. simpl.
      destruct (react_lookup c1 (S k1) (Fulfilled tt) 0 l' Hl') as (l'' & Hl'' & _ & Hk).
      destruct (react call (S k1) (Fulfilled tt) c1) as [c2 es2] eqn:Hr2.
      simpl in *. exists l''. split; [done|]. rewrite Hk; done.
    + destruct (IH (S k0) (S k1) i l1 l2 v Hrest H1 H2 Hin) as (l' & Hl' & Hc).
      destruct (react call (S k0) (Fulfilled tt) rest) as [c1 es1] eqn:Hr1.
      simpl in *. rewrite Hd. simpl.
      destruct (react call (S k1) (Fulfilled tt) c1) as [c2 es2] eqn:Hr2.
      simpl in *. by exists l'.
  - destruct Hwf as ([[_ Hl]|[? _]] & Hrest); [|done]. destruct i as [|i].
    + injection H1 as <-. rewrite Hl in Hin. done.
    + assert (inner l1 = None) as Hnone.
      { eapply (Forall_lookup_1 _ _ _ _ (rejected_uncalled rest e Hrest)). exact H1. }
      by rewrite Hnone in Hin.
Qed.

(** *** What jobs and settlements keep *)

Lemma react_Forall (P : link Op V E -> Prop) c : forall k prev,
  (forall l s, P l -> P (Link (fn l) (inner l) s)) ->
  (forall l, P l -> inner l = None -> P (Link (fn l) (Some (call (fn l))) Pending)) ->
  Forall P c -> Forall P (fst (react call k prev c)).
Proof.
  induction c as [|l rest IH]; intros k prev Hd Hc Hall; [done|].
  inversion Hall as [|? ? Hl Hrest]; subst. simpl.
  destruct (derived l) as [|v|e] eqn:Hdl.
  - destruct prev as [|[]|e]; simpl; [done| |constructor; [by apply Hd|done]].
    destruct (inner l) as [[|v|e]|] eqn:Hil; simpl; [done| | |].
    + constructor; [|done]. rewrite <- Hil. by apply Hd.
    + constructor; [|done]. rewrite <- Hil. by apply Hd.
    + constructor; [|done]. by apply Hc.
  - simpl. specialize (IH (S k) (Fulfilled tt) Hd Hc Hrest).
    destruct (react call (S k) (Fulfilled tt) rest). by constructor.
  - simpl. specialize (IH (S k) (Rejected e) Hd Hc Hrest).
    destruct (react call (S k) (Rejected e) rest). by constructor.
Qed.

Lemma react_fns c : forall k prev,
  map fn (fst (react call k prev c)) = map fn c.
Proof.
  induction c as [|l rest IH]; intros k prev; [done|]. simpl.
  destruct (derived l) as [|v|e].
  - destruct prev as [|[]|e]; simpl; [done| |done].
    by destruct (inner l) as [[|v|e]|].
  - simpl. specialize (IH (S k) (Fulfilled tt)).
    destruct (react call (S k) (Fulfilled tt) rest). simpl in *. by rewrite IH.
  - simpl. specialize (IH (S k) (Rejected e)).
    destruct (react call (S k) (Rejected e) rest). simpl in *. by rewrite IH.
Qed.

Lemma step_fns q ev :
  map fn (chain (step call q ev))
  = map fn (chain q) ++ match ev with Enqueue op => [op] | _ => [] end.
Proof.
  destruct ev as [op| |k s]; simpl.
  - by rewrite map_app.
  - unfold job. pose proof (react_fns (chain q) 0 (Fulfilled tt)) as H.
    destruct (react call 0 (Fulfilled tt) (chain q)). simpl in *.
    by rewrite H, app_nil_r.
  - rewrite app_nil_r. unfold settle.
    destruct (chain q !! k) as [l|] eqn:Hk; [|done].
    destruct (inner l) as [[| |]|]; try done.
    destruct (settled s); [|done]. simpl.
    change (map fn ?x) with (fn <$> x).
    rewrite list_fmap_insert. simpl. apply list_insert_id.
    by rewrite list_lookup_fmap, Hk.
Qed.

(** The operations of the chain are the ones enqueued, in order. *)
Lemma run_fns evs : forall q,
  map fn (chain (run call evs q))
  = map fn (chain q)
    ++ flat_map (fun ev => match ev with Enqueue op => [op] | _ => [] end) evs.
Proof.
  induction evs as [|ev evs IH]; intros q; simpl; [by rewrite app_nil_r|].
  change (fold_left (step call) evs (step call q ev))
    with (run call evs (step call q ev)).
  rewrite IH, step_fns, <- app_assoc. done.
Qed.

Lemma settle_Forall (P : link Op V E -> Prop) k s q :
  (forall l, P l -> inner l = Some Pending -> settled s = true ->
     P (Link (fn l) (Some s) (derived l))) ->
  Forall P (chain q) -> Forall P (chain (settle k s q)).
Proof.
  intros Hs Hall. unfold settle. destruct (chain q !! k) as [l|] eqn:Hk; [|done].
  destruct (inner l) as [[| |]|] eqn:Hl; try done.
  destruct (settled s) eqn:Hset; [|done]. simpl.
  apply Forall_insert; [done|]. apply Hs; try done.
  by eapply Forall_lookup_1.
Qed.

Lemma job_Forall (P : link Op V E -> Prop) q :
  (forall l s, P l -> P (Link (fn l) (inner l) s)) ->
  (forall l, P l -> inner l = None -> P (Link (fn l) (Some (call (fn l))) Pending)) ->
  Forall P (chain q) -> Forall P (chain (job call q)).
Proof.
  intros Hd Hc Hall. unfold job.
  pose proof (react_Forall P (chain q) 0 (Fulfilled tt) Hd Hc Hall) as H.
  by destruct (react call 0 (Fulfilled tt) (chain q)).
Qed.

Lemma step_Forall (P : link Op V E -> Prop) (S : pstate V E -> Prop) q ev :
  (forall l s, P l -> P (Link (fn l) (inner l) s)) ->
  (forall l, P l -> inner l = None -> P (Link (fn l) (Some (call (fn l))) Pending)) ->
  (forall op, P (Link op None Pending)) ->
  (forall l s, P l -> inner l = Some Pending -> S s -> settled s = true ->
     P (Link (fn l) (Some s) (derived l))) ->
  settles_in S ev ->
  Forall P (chain q) -> Forall P (chain (step call q ev)).
Proof.
  intros Hd Hc He Hs Hev Hall. destruct ev as [op| |k s]; simpl in *.
  - apply Forall_app. split; [done|]. by repeat constructor.
  - by apply job_Forall.
  - apply settle_Forall; [|done]. intros l Hl Hin Hset. by apply Hs.
Qed.

Lemma run_Forall (P : link Op V E -> Prop) (S : pstate V E -> Prop) evs :
  (forall l s, P l -> P (Link (fn l) (inner l) s)) ->
  (forall l, P l -> inner l = None -> P (Link (fn l) (Some (call (fn l))) Pending)) ->
  (forall op, P (Link op None Pending)) ->
  (forall l s, P l -> inner l = Some Pending -> S s -> settled s = true ->
     P (Link (fn l) (Some s) (derived l))) ->
  forall q, Forall (settles_in S) evs ->
  Forall P (chain q) -> Forall P (chain (run call evs q)).
Proof.
  intros Hd Hc He Hs. induction evs as [|ev evs IH]; intros q Hevs Hall; [done|].
  inversion Hevs; subst. simpl. apply IH; [done|]. by eapply step_Forall.
Qed.

(** The promise of an operation is rejected only if the operation
    rejects when it is called, or the environment rejects it. *)
Lemma run_unrejected evs q :
  Forall (settles_in (fun s => exists v, s = Fulfilled v)) evs ->
  Forall (fun l => quiet call l -> unrejected l) (chain q) ->
  Forall (fun l => quiet call l -> unrejected l) (chain (run call evs q)).
Proof.
  apply run_Forall.
  - done.
  - intros l _ _ Hq e [= Heq]. by destruct (Hq e).
  - by intros op _ e.
  - intros l s _ _ [v ->] _ _ e. done.
Qed.

(** In a chain hanging on a fulfilled promise, a rejection can only come
    from an operation. *)
Lemma wf_unrejected c :
  wf (Fulfilled tt) c -> Forall unrejected c ->
  Forall (fun l => forall e, derived l <> Rejected e) c.
Proof.
  induction c as [|l rest IH]; intros Hwf Hall; [constructor|].
  inversion Hall as [|? ? Hl Hrest]; subst. simpl in Hwf.
  destruct (derived l) as [|v|e] eqn:Hd.
  - destruct Hwf as (_ & _ & Hidle). constructor; [by rewrite Hd|].
    eapply Forall_impl; [exact Hidle|]. intros l' [_ Hp] e. by rewrite Hp.
  - destruct Hwf as (_ & _ & Hwf). constructor; [by rewrite Hd|]. by apply IH.
  - destruct Hwf as ([[_ Hin]|[? _]] & _); [|done]. by destruct (Hl e).
Qed.

(** The promise [enqueue] returned for an operation is rejected only if
    that operation or one enqueued before it rejected. *)
Lemma wf_unrejected_upto c : forall k l,
  wf (Fulfilled tt) c -> c !! k = Some l ->
  (forall i li, i <= k -> c !! i = Some li -> unrejected li) ->
  forall e, derived l <> Rejected e.
Proof.
  induction c as [|l0 rest IH]; intros k l Hwf Hk Hup e; [done|].
  simpl in Hwf. destruct (derived l0) as [|v|e0] eqn:Hd.
  - destruct Hwf as (_ & _ & Hidle). destruct k as [|k]; simpl in Hk.
    + injection Hk as <-. by rewrite Hd.
    + assert (idle l) as [_ Hp]; [|by rewrite Hp].
      by eapply Forall_lookup_1.
  - destruct Hwf as (_ & _ & Hwf). destruct k as [|k]; simpl in Hk.
    + injection Hk as <-. by rewrite Hd.
    + apply (IH k l Hwf Hk). intros i li Hi Hli. apply (Hup (S i)); [lia|done].
  - destruct Hwf as ([[_ Hin]|[? _]] & _); [|done].
    exfalso. apply (Hup 0 l0 ltac:(lia) eq_refl e0). done.
Qed.

(** *** Draining the queue *)

Lemma wf_split c :
  wf (Fulfilled tt) c -> Forall unrejected c ->
  Forall fulfilled c
  \/ exists ds cur rest,
       c = ds ++ cur :: rest /\ Forall fulfilled ds
       /\ derived cur = Pending /\ Forall idle rest.
Proof.
  induction c as [|l rest IH]; intros Hwf Hall; [by left|].
  inversion Hall as [|? ? Hl Hrest]; subst. simpl in Hwf.
  destruct (derived l) as [|v|e] eqn:Hd.
  - destruct Hwf as (_ & _ & Hidle). right. by exists [], l, rest.
  - destruct Hwf as (_ & Hin & Hwf).
    assert (fulfilled l) as Hf by (by exists v).
    destruct (IH Hwf Hrest) as [Hfs|(ds & cur & rest' & -> & Hds & Hcur & Hidle)].
    + left. by constructor.
    + right. exists (l :: ds), cur, rest'. repeat split; try done. by constructor.
  - destruct Hwf as ([[_ Hin]|[? _]] & _); [|done]. by destruct (Hl e).
Qed.

Lemma react_skip ds : forall k tl,
  Forall fulfilled ds ->
  react call k (Fulfilled tt) (ds ++ tl)
  = (ds ++ fst (react call (k + length ds) (Fulfilled tt) tl),
     snd (react call (k + length ds) (Fulfilled tt) tl)).
Proof.
  induction ds as [|l ds IH]; intros k tl Hds; simpl.
  - rewrite Nat.add_0_r. by destruct (react call k (Fulfilled tt) tl).
  - inversion Hds as [|? ? (v & Hin & Hd) Hrest]; subst. rewrite Hd. simpl.
    rewrite (IH (S k) tl Hrest). simpl.
    by replace (k + S (length ds)) with (S k + length ds) by lia.
Qed.

Lemma running_skip ds : forall k tl,
  Forall fulfilled ds -> running k (ds ++ tl) = running (k + length ds) tl.
Proof.
  induction ds as [|l ds IH]; intros k tl Hds; simpl.
  - by rewrite Nat.add_0_r.
  - inversion Hds as [|? ? (v & Hin & Hd) Hrest]; subst. rewrite Hin.
    rewrite (IH (S k) tl Hrest). f_equal. lia.
Qed.

Lemma running_idle c : forall k, Forall idle c -> running k c = None.
Proof.
  induction c as [|l rest IH]; intros k Hc; [done|].
  inversion Hc as [|? ? [Hin _] Hrest]; subst. simpl. rewrite Hin. by apply IH.
Qed.

Lemma work_skip ds tl : Forall fulfilled ds -> work (ds ++ tl) = work tl.
Proof.
  induction ds as [|l ds IH]; intros Hds; [done|].
  inversion Hds as [|? ? (v & Hin & Hd) Hrest]; subst. simpl.
  unfold weight at 1. rewrite Hd. simpl. by apply IH.
Qed.

Lemma work_bound c : work c <= 2 * length c.
Proof.
  induction c as [|l rest IH]; simpl; [lia|].
  assert (weight l <= 2); [|lia].
  unfold weight. destruct (derived l); [|lia|lia].
  destruct (inner l) as [[| |]|]; lia.
Qed.

Lemma drain_step_work oracle q :
  Forall (quiet call) (chain q) ->
  (forall k, exists v, oracle k = Fulfilled v) ->
  inv q -> Forall unrejected (chain q) ->
  work (chain (drain_step call oracle q)) = pred (work (chain q)).
Proof.
  intros Hcall Horacle [Hwf _] Hall. unfold drain_step, job.
  destruct (wf_split _ Hwf Hall) as [Hfs|(ds & cur & rest & Hc & Hds & Hcur & Hidle)].
  - pose proof (react_skip (chain q) 0 [] Hfs) as Hr. rewrite app_nil_r in Hr.
    rewrite Hr. simpl. rewrite app_nil_r.
    pose proof (running_skip (chain q) 0 [] Hfs) as Hrun. rewrite app_nil_r in Hrun.
    rewrite Hrun. simpl.
    pose proof (work_skip (chain q) [] Hfs) as Hw. rewrite app_nil_r in Hw.
    by rewrite Hw.
  - rewrite Hc, (react_skip ds 0 _ Hds), !(work_skip ds _ Hds). simpl.
    rewrite Hcur.
    destruct (Horacle (length ds)) as [w Hw].
    assert (forall cur' lg, inner cur' = Some Pending ->
      chain (settle (length ds) (oracle (length ds))
               (Queue (ds ++ cur' :: rest) lg))
      = ds ++ Link (fn cur') (Some (Fulfilled w)) (derived cur') :: rest) as Hsettle.
    { intros cur' lg Hin'. unfold settle. simpl.
      rewrite list_lookup_middle; [|done]. rewrite Hin', Hw. simpl.
      replace (length ds) with (length ds + 0) at 1 by lia.
      by rewrite insert_app_r. }
    destruct (inner cur) as [[|v|e]|] eqn:Hin; simpl.
    + rewrite (running_skip ds 0 _ Hds). simpl. rewrite Hin.
      rewrite Hsettle by done. rewrite (work_skip ds _ Hds). simpl.
      unfold weight. simpl. rewrite ?Hcur, ?Hin. simpl. lia.
    + rewrite (running_skip ds 0 _ Hds). simpl.
      rewrite (running_idle rest _ Hidle). simpl. rewrite (work_skip ds _ Hds).
      simpl. unfold weight. simpl. rewrite ?Hcur, ?Hin. simpl. lia.
    + exfalso. eapply (Forall_lookup_1 _ _ (length ds) cur Hall); [|exact Hin].
      rewrite Hc. by apply list_lookup_middle.
    + rewrite (running_skip ds 0 _ Hds). simpl.
      destruct (call (fn cur)) as [|v|e] eqn:Hcl; simpl.
      * rewrite Hsettle by done. rewrite (work_skip ds _ Hds). simpl.
        unfold weight. simpl. rewrite ?Hcur, ?Hin. simpl. lia.
      * rewrite (running_idle rest _ Hidle). simpl. rewrite (work_skip ds _ Hds).
        simpl. unfold weight. simpl. rewrite ?Hcur, ?Hin. simpl. lia.
      * exfalso. eapply (Forall_lookup_1 _ _ (length ds) cur Hcall); [|exact Hcl].
        rewrite Hc. by apply list_lookup_middle.
Qed.

Lemma quiet_fns c c' :
  map fn c' = map fn c -> Forall (quiet call) c -> Forall (quiet call) c'.
Proof.
  intros Hfn Hc.
  assert (Forall (fun op => forall e, call op <> Rejected e) (fn <$> c')) as H.
  { change (fn <$> c') with (map fn c'). rewrite Hfn. by apply Forall_fmap. }
  by apply Forall_fmap in H.
Qed.

Lemma drain_step_keeps oracle q :
  Forall (quiet call) (chain q) ->
  (forall k, exists v, oracle k = Fulfilled v) ->
  inv q -> Forall unrejected (chain q) ->
  inv (drain_step call oracle q)
  /\ Forall unrejected (chain (drain_step call oracle q))
  /\ map fn (chain (drain_step call oracle q)) = map fn (chain q).
Proof.
  intros Hcall Horacle Hinv Hall.
  assert (Forall unrejected (chain (job call q))) as Hall1.
  { assert (Forall (fun l => quiet call l /\ unrejected l) (chain (job call q))) as H.
    { apply job_Forall.
      - done.
      - intros l [Hq _] _. split; [done|]. intros e [= Heq]. by destruct (Hq e).
      - apply Forall_and. by split. }
    apply Forall_and in H. by destruct H. }
  unfold drain_step.
  pose proof (job_inv q Hinv) as Hinv1.
  pose proof (step_fns q Job) as Hfn1. simpl in Hfn1.
  rewrite app_nil_r in Hfn1.
  destruct (running 0 (chain (job call q))) as [k|]; [|done].
  split; [by apply settle_inv|]. split.
  - apply settle_Forall; [|done]. intros l _ _ _ e. simpl.
    destruct (Horacle k) as [v ->]. done.
  - pose proof (step_fns (job call q) (Settle k (oracle k))) as Hfn2.
    simpl in Hfn2. rewrite app_nil_r in Hfn2. by rewrite Hfn2.
Qed.

Lemma drain_work oracle n : forall q,
  Forall (quiet call) (chain q) ->
  (forall k, exists v, oracle k = Fulfilled v) ->
  inv q -> Forall unrejected (chain q) ->
  inv (drain call oracle n q)
  /\ Forall unrejected (chain (drain call oracle n q))
  /\ map fn (chain (drain call oracle n q)) = map fn (chain q)
  /\ work (chain (drain call oracle n q)) = work (chain q) - n.
Proof.
  intros q Hcall Horacle. induction n as [|n IH]; intros Hinv Hall.
  { simpl. repeat split; try done; try apply Hinv. lia. }
  destruct (IH Hinv Hall) as (Hinv' & Hall' & Hfn' & Hw').
  pose proof (quiet_fns _ _ Hfn' Hcall) as Hcall'.
  destruct (drain_step_keeps oracle _ Hcall' Horacle Hinv' Hall')
    as (Hinv'' & Hall'' & Hfn'').
  pose proof (drain_step_work oracle _ Hcall' Horacle Hinv' Hall') as Hw''.
  unfold drain in *. simpl.
  repeat split; try done; try apply Hinv''.
  - by rewrite Hfn''.
  - rewrite Hw'', Hw'. lia.
Qed.

Lemma expected_fulfilled c : forall k,
  Forall fulfilled c -> expected k c = serial_from k (length c).
Proof.
  induction c as [|l rest IH]; intros k Hc; [done|].
  inversion Hc as [|? ? (v & Hin & _) Hrest]; subst. simpl.
  rewrite Hin, (IH (S k) Hrest). done.
Qed.

Lemma work_done c :
  wf (Fulfilled tt) c -> Forall unrejected c -> work c = 0 -> Forall fulfilled c.
Proof.
  intros Hwf Hall Hw.
  destruct (wf_split c Hwf Hall) as [|(ds & cur & rest & -> & Hds & Hcur & _)];
    [done|].
  rewrite (work_skip ds _ Hds) in Hw. simpl in Hw. unfold weight in Hw.
  rewrite Hcur in Hw. destruct (inner cur) as [[| |]|]; simpl in Hw; lia.
Qed.

(** Once everything in flight has finished, every operation of the chain
    has run, one after the other, provided none rejects. *)
Lemma drain_all oracle n q :
  Forall (quiet call) (chain q) ->
  (forall k, exists v, oracle k = Fulfilled v) ->
  inv q -> Forall unrejected (chain q) ->
  2 * length (chain q) <= n ->
  Forall fulfilled (chain (drain call oracle n q))
  /\ map fn (chain (drain call oracle n q)) = map fn (chain q)
  /\ log (drain call oracle n q) = serial (length (chain q)).
Proof.
  intros Hcall Horacle Hinv Hall Hn.
  destruct (drain_work oracle n q Hcall Horacle Hinv Hall)
    as ([Hwf Hlog] & Hall' & Hfn & Hw).
  pose proof (work_bound (chain q)) as Hb.
  assert (Forall fulfilled (chain (drain call oracle n q))) as Hdone.
  { apply work_done; [done|done|lia]. }
  split; [done|]. split; [done|].
  rewrite Hlog, (expected_fulfilled _ 0 Hdone). unfold serial. f_equal.
  by rewrite <- (length_map fn), Hfn, length_map.
Qed.

(** A queue at rest has run every operation of the chain, provided none
    rejected. *)
Lemma at_rest_fulfilled q :
  inv q -> Forall unrejected (chain q) -> at_rest call q ->
  Forall fulfilled (chain q).
Proof.
  intros [Hwf _] Hall [Hjob Hrun].
  destruct (wf_split _ Hwf Hall) as [|(ds & cur & rest & Hc & Hds & Hcur & Hidle)];
    [done|].
  exfalso. apply (f_equal chain) in Hjob. unfold job in Hjob.
  rewrite Hc, (react_skip ds 0 _ Hds) in Hjob. simpl in Hjob.
  rewrite Hc, (running_skip ds 0 _ Hds) in Hrun. simpl in Hrun.
  rewrite Hcur in Hjob.
  destruct (inner cur) as [[|v|e]|] eqn:Hin; simpl in Hjob.
  - done.
  - apply app_inv_head in Hjob. injection Hjob as Hjob.
    apply (f_equal derived) in Hjob. simpl in Hjob. congruence.
  - apply app_inv_head in Hjob. injection Hjob as Hjob.
    apply (f_equal derived) in Hjob. simpl in Hjob. congruence.
  - apply app_inv_head in Hjob. injection Hjob as Hjob.
    apply (f_equal inner) in Hjob. simpl in Hjob. congruence.
Qed.

Lemma fulfilled_at_rest q : Forall fulfilled (chain q) -> at_rest call q.
Proof.
  intros Hfs. unfold at_rest, job.
  pose proof (react_skip (chain q) 0 [] Hfs) as Hr. rewrite app_nil_r in Hr.
  pose proof (running_skip (chain q) 0 [] Hfs) as Hrun. rewrite app_nil_r in Hrun.
  rewrite Hr, Hrun. simpl. rewrite !app_nil_r. by destruct q.
Qed.

(** *** Settled promises stay as they are *)

Lemma step_lookup q ev i l :
  chain q !! i = Some l ->
  exists l', chain (step call q ev) !! i = Some l'
    /\ (forall s, inner l = Some s -> settled s = true -> inner l' = Some s).
Proof.
  intros Hi. destruct ev as [op| |k s]; simpl.
  - exists l. split; [|done]. rewrite lookup_app_l; [done|].
    by eapply lookup_lt_Some.
  - unfold job.
    destruct (react_lookup (chain q) 0 (Fulfilled tt) i l Hi) as (l' & Hl' & _ & Hin).
    destruct (react call 0 (Fulfilled tt) (chain q)). simpl in *.
    exists l'. split; [done|]. intros s Hs _. rewrite Hin; [done|]. by rewrite Hs.
  - unfold settle. destruct (chain q !! k) as [lk|] eqn:Hk; [|by exists l].
    destruct (inner lk) as [[| |]|] eqn:Hlk; try (by exists l).
    destruct (settled s); [|by exists l]. simpl.
    destruct (decide (k = i)) as [->|Hne].
    + rewrite Hi in Hk. injection Hk as ->.
      eexists. split; [apply list_lookup_insert_eq; by eapply lookup_lt_Some|].
      intros s' Hs'. rewrite Hlk in Hs'. by injection Hs' as <-.
    + exists l. split; [|done]. by rewrite list_lookup_insert_ne.
Qed.

Lemma run_lookup evs : forall q i l,
  chain q !! i = Some l ->
  exists l', chain (run call evs q) !! i = Some l'
    /\ (forall s, inner l = Some s -> settled s = true -> inner l' = Some s).
Proof.
  induction evs as [|ev evs IH]; intros q i l Hi; [by exists l|].
  destruct (step_lookup q ev i l Hi) as (l1 & Hl1 & Hin1).
  destruct (IH _ i l1 Hl1) as (l2 & Hl2 & Hin2).
  exists l2. split; [done|]. intros s Hs Hset. apply Hin2; [|done]. by apply Hin1.
Qed.

(** For two operations enqueued one after the other, in any state a run
    can reach: once the promise of the first is fulfilled, two promise
    jobs later the second has been called. *)
Lemma fulfilled_calls_next evs k l1 l2 v :
  let q := run call evs empty in
  chain q !! k = Some l1 -> chain q !! S k = Some l2 ->
  inner l1 = Some (Fulfilled v) ->
  called (S k) (job call (job call q)) = true.
Proof.
  intros q H1 H2 Hin. assert (inv q) as [Hwf _] by (apply run_inv, empty_inv).
  destruct (react_calls_next (chain q) 0 0 k l1 l2 v Hwf H1 H2 Hin)
    as (l2' & Hl2' & Hc).
  unfold called, job.
  destruct (react call 0 (Fulfilled tt) (chain q)) as [c1 es1]. simpl in *.
  destruct (react call 0 (Fulfilled tt) c1) as [c2 es2]. simpl in *.
  rewrite Hl2'. by destruct (inner l2').
Qed.

(** Behind an operation whose promise is rejected nothing has been
    called. *)
Lemma wf_rejected_after c : forall j k prev l1 l2 e,
  wf prev c -> c !! j = Some l1 -> inner l1 = Some (Rejected e) ->
  j < k -> c !! k = Some l2 -> inner l2 = None.
Proof.
  induction c as [|l0 rest IH]; intros j k prev l1 l2 e Hwf Hj Hin Hjk Hk; [done|].
  destruct k as [|k]; [lia|]. simpl in Hk, Hwf.
  destruct (derived l0) as [|v|e'] eqn:Hd.
  - destruct Hwf as (_ & _ & Hidle). by destruct (Forall_lookup_1 _ _ _ _ Hidle Hk).
  - destruct Hwf as (_ & Hi0 & Hrest). destruct j as [|j]; simpl in Hj.
    + injection Hj as <-. rewrite Hi0 in Hin. done.
    + apply (IH j k _ l1 l2 e Hrest Hj Hin); [lia|done].
  - destruct Hwf as (_ & Hrest).
    exact (Forall_lookup_1 _ _ _ _ (rejected_uncalled rest e' Hrest) Hk).
Qed.

(** [then] is given no rejection handler: once the promise of an
    operation is rejected, no operation enqueued after it is called,
    whatever happens next, and the log ends with that operation. *)
Lemma rejected_blocks evs evs' j l1 e :
  let q := run call evs empty in
  chain q !! j = Some l1 -> inner l1 = Some (Rejected e) ->
  (forall k, j < k -> called k (run call evs' q) = false)
  /\ calls (log (run call evs' q)) = seq 0 (S j).
Proof.
  intros q H1 Hin. assert (inv q) as Hinv by (apply run_inv, empty_inv).
  assert (inv (run call evs' q)) as [Hwf' Hlog'] by by apply run_inv.
  destruct (run_lookup evs' q j l1 H1) as (l1' & Hl1' & Hk1).
  specialize (Hk1 _ Hin eq_refl).
  assert (forall k l2, j < k -> chain (run call evs' q) !! k = Some l2 ->
            inner l2 = None) as Hafter.
  { intros k l2 Hjk Hl2. by eapply (wf_rejected_after _ j k). }
  split.
  - intros k Hjk. unfold called.
    destruct (chain (run call evs' q) !! k) as [l2|] eqn:Hl2; [|done].
    by rewrite (Hafter k l2 Hjk Hl2).
  - rewrite Hlog'. clear Hlog'. revert Hwf' Hl1' Hk1 Hafter.
    generalize (chain (run call evs' q)) as c.
    assert (forall c i prev, wf prev c -> c !! j = Some l1' ->
              inner l1' = Some (Rejected e) ->
              (forall k l2, j < k -> c !! k = Some l2 -> inner l2 = None) ->
              calls (expected i c) = seq i (S j)) as H; [|intros c; apply H].
    clear. induction j as [|j IH]; intros c i prev Hwf Hj Hin Hafter.
    + destruct c as [|l0 rest]; [done|]. injection Hj as ->. simpl.
      rewrite Hin. simpl. rewrite uncalled_expected; [done|].
      apply Forall_lookup_2. intros k l2 Hk. apply (Hafter (S k) l2); [lia|done].
    + destruct c as [|l0 rest]; [done|]. simpl in Hj, Hwf.
      destruct (derived l0) as [|v|e'] eqn:Hd.
      * destruct Hwf as (_ & _ & Hidle).
        destruct (Forall_lookup_1 _ _ _ _ Hidle Hj) as [Hn _]. by rewrite Hn in Hin.
      * destruct Hwf as (_ & Hi0 & Hrest). simpl. rewrite Hi0. simpl. f_equal.
        apply (IH rest (S i) _ Hrest Hj Hin).
        intros k l2 Hjk Hk. apply (Hafter (S k) l2); [lia|done].
      * destruct Hwf as (_ & Hrest).
        pose proof (Forall_lookup_1 _ _ _ _ (rejected_uncalled rest e' Hrest) Hj) as Hn.
        simpl in Hn. by rewrite Hn in Hin.
Qed.

(** *** Where the state of an operation's promise comes from *)

Lemma react_inner c : forall k0 prev i l,
  c !! i = Some l ->
  exists l', fst (react call k0 prev c) !! i = Some l'
    /\ fn l' = fn l
    /\ (inner l' = inner l \/ inner l = None /\ inner l' = Some (call (fn l))).
Proof.
  induction c as [|l0 rest IH]; intros k0 prev i l Hi; [done|]. simpl.
  destruct (derived l0) as [|v|e] eqn:Hd.
  - destruct i as [|i]; simpl in Hi.
    + injection Hi as ->.
      destruct prev as [|[]|e]; simpl; [exists l; by auto| |eexists; by auto].
      destruct (inner l) as [[|v|e]|] eqn:Hl; simpl; eexists; (split; [done|]);
        simpl; rewrite ?Hl; auto.
    + destruct prev as [|[]|e]; simpl; [exists l; by auto| |exists l; by auto].
      destruct (inner l0) as [[|v|e]|]; simpl; exists l; by auto.
  - simpl. destruct (react call (S k0) (Fulfilled tt) rest) as [rest' es] eqn:Hr.
    destruct i as [|i]; simpl in *; [injection Hi as ->; exists l; by auto|].
    destruct (IH (S k0) (Fulfilled tt) i l Hi) as (l' & Hl' & ?).
    rewrite Hr in Hl'. by exists l'.
  - simpl. destruct (react call (S k0) (Rejected e) rest) as [rest' es] eqn:Hr.
    destruct i as [|i]; simpl in *; [injection Hi as ->; exists l; by auto|].
    destruct (IH (S k0) (Rejected e) i l Hi) as (l' & Hl' & ?).
    rewrite Hr in Hl'. by exists l'.
Qed.

Lemma run_snoc evs ev q : run call (evs ++ [ev]) q = step call (run call evs q) ev.
Proof. unfold run. by rewrite fold_left_app. Qed.

(** The state [s] of the promise of operation [k] is what the call of
    the operation returned, or the call returned a pending promise and
    [s] is what the environment settled it with, while it was pending. *)
Lemma run_origin evs : forall k l s,
  chain (run call evs empty) !! k = Some l -> inner l = Some s ->
  s = call (fn l)
  \/ exists evs1 evs2 l1,
       evs = evs1 ++ Settle k s :: evs2
       /\ chain (run call evs1 empty) !! k = Some l1
       /\ fn l1 = fn l /\ inner l1 = Some Pending /\ call (fn l) = Pending.
Proof.
  induction evs as [|ev evs IH] using rev_ind; intros k l s Hk Hin; [done|].
  rewrite run_snoc in Hk.
  assert (forall l0, chain (run call evs empty) !! k = Some l0 ->
            fn l0 = fn l -> inner l0 = Some s ->
            s = call (fn l)
            \/ exists evs1 evs2 l1,
                 evs ++ [ev] = evs1 ++ Settle k s :: evs2
                 /\ chain (run call evs1 empty) !! k = Some l1
                 /\ fn l1 = fn l /\ inner l1 = Some Pending /\ call (fn l) = Pending)
    as Hold.
  { intros l0 Hl0 Hfn Hin0.
    destruct (IH k l0 s Hl0 Hin0) as [Hc|(evs1 & evs2 & l1 & -> & H1 & Hf1 & Hp & Hc)].
    - left. by rewrite <- Hfn.
    - right. exists evs1, (evs2 ++ [ev]), l1. rewrite <- Hfn.
      repeat split; try done. by rewrite <- app_assoc. }
  set (q := run call evs empty) in *.
  destruct ev as [op| |k' s']; simpl in Hk.
  - destruct (decide (k < length (chain q))) as [Hlt|Hge].
    + rewrite lookup_app_l in Hk by done. by apply (Hold l).
    + rewrite lookup_app_r in Hk by lia.
      destruct (k - length (chain q)) as [|n]; simpl in Hk; [|done].
      injection Hk as <-. done.
  - assert (is_Some (chain q !! k)) as [l0 Hl0].
    { apply lookup_lt_is_Some. apply lookup_lt_Some in Hk.
      unfold job in Hk. pose proof (react_fns (chain q) 0 (Fulfilled tt)) as Hf.
      destruct (react call 0 (Fulfilled tt) (chain q)) as [c es]. simpl in *.
      by rewrite <- (length_map fn), <- Hf, length_map. }
    destruct (react_inner (chain q) 0 (Fulfilled tt) k l0 Hl0)
      as (l' & Hl' & Hfn & Hi).
    unfold job in Hk. destruct (react call 0 (Fulfilled tt) (chain q)) as [c es].
    simpl in *. rewrite Hk in Hl'. injection Hl' as <-.
    destruct Hi as [Hsame|[_ Hnew]].
    + apply (Hold l0); [done|done|]. by rewrite <- Hsame.
    + left. rewrite Hin in Hnew. injection Hnew as ->. by rewrite Hfn.
  - unfold settle in Hk. destruct (chain q !! k') as [lk|] eqn:Hk'; [|by apply (Hold l)].
    destruct (inner lk) as [[| |]|] eqn:Hlk; try (by apply (Hold l)).
    destruct (settled s') eqn:Hset; [|by apply (Hold l)]. simpl in Hk.
    destruct (decide (k' = k)) as [->|Hne].
    + rewrite list_lookup_insert_eq in Hk by by eapply lookup_lt_Some.
      injection Hk as <-. simpl in *. injection Hin as ->.
      right. exists evs, [], lk. repeat split; try done.
      destruct (IH k lk Pending Hk' Hlk) as [Hc|(? & ? & ? & _ & _ & _ & _ & Hc)]; done.
    + rewrite list_lookup_insert_ne in Hk by done. by apply (Hold l).
Qed.
End QueueProps.
End QueueProps.

(** ** The process runner behind the queue *)

Module ExecutorProps.
Import Promise Js Executor.
Section ExecutorProps.
Variable uvPath : string.
Variable workspaceRoot : option string.
Variable throws : string -> string -> option string.

#[local] Abbreviation call := (call uvPath workspaceRoot throws).
#[local] Abbreviation launched := (launched uvPath workspaceRoot throws).
#[local] Abbreviation launchedBy := (launchedBy uvPath workspaceRoot throws).
#[local] Abbreviation accepted := (accepted uvPath workspaceRoot throws).
#[local] Abbreviation step := (step uvPath workspaceRoot throws).
#[local] Abbreviation run := (run uvPath workspaceRoot throws).
#[local] Abbreviation drain_step := (drain_step uvPath workspaceRoot throws).
#[local] Abbreviation drain := (drain uvPath workspaceRoot throws).
#[local] Abbreviation workingDirectory := (workingDirectory workspaceRoot).
#[local] Abbreviation commandLine := (commandLine uvPath).
#[local] Abbreviation chain := (@Queue.chain operation UVCommandResult string).
#[local] Abbreviation log := (@Queue.log operation UVCommandResult string).

Implicit Types (st : state) (ev : event) (evs : list event) (op : operation).

(** *** What a call does *)

Lemma call_spec op :
  call op
  = match workingDirectory (snd op) with
    | None => Fulfilled (Result false "" (Some "No workspace root found"))
    | Some d =>
        match throws (commandLine (fst op)) d with
        | Some e => Rejected e
        | None => Pending
        end
    end.
Proof.
  unfold Executor.call, invoke, _executeCommand.
  destruct (workingDirectory (snd op)) as [d|]; [|done].
  by destruct (throws _ d).
Qed.

Lemma launched_spec op :
  launched op
  = match workingDirectory (snd op) with
    | None => []
    | Some d =>
        match throws (commandLine (fst op)) d with
        | Some _ => []
        | None => [(commandLine (fst op), d)]
        end
    end.
Proof.
  unfold Executor.launched, invoke, _executeCommand.
  destruct (workingDirectory (snd op)) as [d|]; [|done].
  by destruct (throws _ d).
Qed.

Lemma accepted_spec op :
  accepted op <->
  forall d, workingDirectory (snd op) = Some d -> throws (commandLine (fst op)) d = None.
Proof.
  unfold Executor.accepted, _executeCommand. split.
  - intros H d Hd. apply H. by rewrite Hd.
  - intros H command cwd. destruct (workingDirectory (snd op)) as [d|]; [|done].
    intros [= <- <-]. by apply H.
Qed.

Lemma accepted_quiet op e : accepted op -> call op <> Rejected e.
Proof.
  rewrite accepted_spec, call_spec. intros H.
  destruct (workingDirectory (snd op)) as [d|]; [|done].
  by rewrite (H d eq_refl).
Qed.

Lemma accepted_launched op :
  accepted op ->
  launched op
  = match workingDirectory (snd op) with
    | Some d => [(commandLine (fst op), d)]
    | None => []
    end.
Proof.
  rewrite accepted_spec, launched_spec. intros H.
  destruct (workingDirectory (snd op)) as [d|]; [|done].
  by rewrite (H d eq_refl).
Qed.

Lemma settlement_spec p :
  settlement p
  = Fulfilled
      match p with
      | Succeeded out errout => Result true out (Some errout)
      | Failed _ message out errout =>
          Result false out (Some (if truthy errout then errout else message))
      end.
Proof. by destruct p. Qed.

Lemma settlement_fulfilled (results : nat -> completion) k :
  exists r, settlement (results k) = Fulfilled r.
Proof. by eexists. Qed.

(** *** The queue of an executor *)

Lemma step_queue st ev :
  queue (step st ev) = Queue.step call (queue st) (queue_event ev).
Proof. by destruct ev. Qed.

Lemma run_queue evs : forall st,
  queue (run evs st) = Queue.run call (map queue_event evs) (queue st).
Proof.
  induction evs as [|ev evs IH]; intros st; [done|]. simpl.
  rewrite <- step_queue. apply IH.
Qed.

Lemma run_concat evs evs' st : run (evs ++ evs') st = run evs' (run evs st).
Proof. unfold Executor.run. by rewrite fold_left_app. Qed.

Lemma events_settle evs :
  Forall (Queue.settles_in (fun s => exists r, s = Fulfilled r))
         (map queue_event evs).
Proof.
  induction evs as [|ev evs IH]; constructor; [|done].
  destruct ev; simpl; try done. by eexists.
Qed.

Lemma submitted_queue evs :
  flat_map (fun e => match e with Queue.Enqueue op => [op] | _ => [] end)
           (map queue_event evs)
  = submitted evs.
Proof.
  induction evs as [|ev evs IH]; [done|]. simpl. rewrite IH. by destruct ev.
Qed.

Lemma submitted_app evs evs' : submitted (evs ++ evs') = submitted evs ++ submitted evs'.
Proof. unfold submitted. by rewrite flat_map_app. Qed.

(** The chain holds the operations submitted, in order. *)
Lemma run_submitted evs :
  map Queue.fn (chain (queue (run evs init))) = submitted evs.
Proof. by rewrite run_queue, QueueProps.run_fns, submitted_queue. Qed.

Lemma executor_inv evs : Queue.inv (queue (run evs init)).
Proof. rewrite run_queue. apply QueueProps.run_inv, QueueProps.empty_inv. Qed.

(** The promise of an operation that [cp.exec] accepts is not rejected. *)
Lemma executor_unrejected evs k l :
  chain (queue (run evs init)) !! k = Some l ->
  accepted (Queue.fn l) -> Queue.unrejected l.
Proof.
  intros Hk Hacc. rewrite run_queue in Hk.
  eapply (Forall_lookup_1 _ _ _ _
            (QueueProps.run_unrejected call _ Queue.empty (events_settle evs)
               (Forall_nil_2 _)) Hk).
  intros e. by apply accepted_quiet.
Qed.

Lemma accepted_chain evs :
  Forall accepted (submitted evs) ->
  Forall (Queue.quiet call) (chain (queue (run evs init)))
  /\ Forall Queue.unrejected (chain (queue (run evs init))).
Proof.
  intros Hsub. rewrite <- run_submitted in Hsub.
  assert (Forall (fun l => accepted (Queue.fn l)) (chain (queue (run evs init))))
    as Hacc.
  { exact (proj1 (List.Forall_map Queue.fn accepted _) Hsub). }
  split.
  - eapply Forall_impl; [exact Hacc|]. intros l Hl e. by apply accepted_quiet.
  - apply Forall_lookup_2. intros k l Hk.
    eapply executor_unrejected; [exact Hk|].
    exact (Forall_lookup_1 _ _ _ _ Hacc Hk).
Qed.

(** Draining is a run: promise jobs and process exits, no submission. *)
Lemma drain_run results n st :
  exists evs', submitted evs' = [] /\ drain results n st = run evs' st.
Proof.
  induction n as [|n (evs' & Hsub & IH)]; [by exists []|].
  unfold Executor.drain in *. simpl. rewrite IH. unfold Executor.drain_step.
  destruct (Queue.running 0 _) as [k|].
  - exists (evs' ++ [Job; ProcessExit k (results k)]).
    split; [by rewrite submitted_app, Hsub|]. by rewrite run_concat.
  - exists (evs' ++ [Job]).
    split; [by rewrite submitted_app, Hsub|]. by rewrite run_concat.
Qed.

Lemma drain_queue results n st :
  queue (drain results n st)
  = Queue.drain call (fun k => settlement (results k)) n (queue st).
Proof.
  induction n as [|n IH]; [done|].
  unfold Executor.drain, Queue.drain in *. simpl. rewrite <- IH.
  unfold Executor.drain_step, Queue.drain_step.
  change (Queue.job call (queue ?s)) with (queue (step s Job)).
  by destruct (Queue.running 0 _).
Qed.

(** *** The processes started *)

Lemma calls_app (es es' : list Queue.entry) :
  Queue.calls (es ++ es') = Queue.calls es ++ Queue.calls es'.
Proof. unfold Queue.calls. by rewrite flat_map_app. Qed.

Lemma calls_serial_from j m : Queue.calls (Queue.serial_from j m) = seq j m.
Proof.
  revert j. induction m as [|m IH]; intros j; [done|].
  rewrite QueueProps.serial_from_S. simpl. f_equal. apply IH.
Qed.

(** The operations the log of a chain accounts for are in the chain. *)
Lemma calls_expected {Op V E} (c : list (Queue.link Op V E)) : forall j,
  Forall (fun k => k < j + length c) (Queue.calls (Queue.expected j c)).
Proof.
  induction c as [|l rest IH]; intros j; [constructor|]. simpl.
  rewrite calls_app. apply Forall_app. split.
  - destruct (Queue.inner l) as [[| |]|]; simpl; repeat constructor; lia.
  - eapply Forall_impl; [apply (IH (S j))|]. simpl. intros k Hk. lia.
Qed.

Lemma launchedBy_fns c c' k :
  map Queue.fn c' = map Queue.fn c -> launchedBy c' k = launchedBy c k.
Proof.
  intros Hfn. unfold Executor.launchedBy.
  assert ((Queue.fn <$> c') !! k = (Queue.fn <$> c) !! k) as H.
  { change (map Queue.fn c' !! k = map Queue.fn c !! k). by rewrite Hfn. }
  rewrite !list_lookup_fmap in H.
  destruct (c' !! k) as [l'|], (c !! k) as [l|]; simpl in H; try done.
  by injection H as ->.
Qed.

Lemma launchedBy_app c tl k :
  k < length c -> launchedBy (c ++ tl) k = launchedBy c k.
Proof. intros Hk. unfold Executor.launchedBy. by rewrite lookup_app_l. Qed.

Lemma flat_map_agree {A B} (f g : A -> list B) (l : list A) :
  Forall (fun a => f a = g a) l -> flat_map f l = flat_map g l.
Proof. induction 1 as [|a l Ha _ IH]; [done|]. simpl. by rewrite Ha, IH. Qed.

(** What has been started is what the calls in the log started. *)
Lemma step_spawned st ev :
  Queue.inv (queue st) ->
  spawned st = flat_map (launchedBy (chain (queue st))) (Queue.calls (log (queue st))) ->
  spawned (step st ev)
  = flat_map (launchedBy (chain (queue (step st ev))))
             (Queue.calls (log (queue (step st ev)))).
Proof.
  intros [_ Hlog] Hsp. destruct ev as [args cwd| |k p]; simpl.
  - rewrite Hsp, Hlog. apply flat_map_agree.
    eapply Forall_impl; [apply (calls_expected (chain (queue st)) 0)|].
    intros k Hk. symmetry. by apply launchedBy_app.
  - pose proof (QueueProps.react_fns call (chain (queue st)) 0 (Fulfilled tt)) as Hfn.
    unfold Queue.job.
    destruct (Queue.react call 0 (Fulfilled tt) (chain (queue st))) as [c es].
    simpl in *. rewrite calls_app, flat_map_app, Hsp. f_equal.
    + apply flat_map_ext. intros k. symmetry. by apply launchedBy_fns.
    + apply flat_map_ext. intros k. symmetry. by apply launchedBy_fns.
  - pose proof (QueueProps.step_fns call (queue st) (Queue.Settle k (settlement p)))
      as Hfn. simpl in Hfn. rewrite app_nil_r in Hfn.
    rewrite Hsp.
    transitivity (flat_map (launchedBy (chain (Queue.settle k (settlement p) (queue st))))
                    (Queue.calls (log (queue st)))).
    { apply flat_map_ext. intros i. symmetry. by apply launchedBy_fns. }
    f_equal. unfold Queue.settle.
    destruct (chain (queue st) !! k) as [l|]; [|done].
    destruct (Queue.inner l) as [[| |]|]; try done.
    simpl. by rewrite calls_app, app_nil_r.
Qed.

Lemma run_spawned evs :
  spawned (run evs init)
  = flat_map (launchedBy (chain (queue (run evs init))))
             (Queue.calls (log (queue (run evs init)))).
Proof.
  induction evs as [|ev evs IH] using rev_ind; [done|].
  rewrite run_concat. simpl. apply step_spawned; [apply executor_inv|done].
Qed.

Lemma launchedBy_seq c n :
  flat_map (launchedBy c) (seq 0 n) = flat_map launched (take n (map Queue.fn c)).
Proof.
  induction n as [|n IH]; [done|].
  rewrite seq_S, flat_map_app, IH. simpl. rewrite app_nil_r.
  unfold Executor.launchedBy.
  destruct (c !! n) as [l|] eqn:Hn.
  - assert (map Queue.fn c !! n = Some (Queue.fn l)) as Hn'.
    { change ((Queue.fn <$> c) !! n = Some (Queue.fn l)).
      by rewrite list_lookup_fmap, Hn. }
    rewrite (take_S_r _ _ _ Hn'), flat_map_app. simpl. by rewrite app_nil_r.
  - apply lookup_ge_None in Hn.
    rewrite !firstn_all2, app_nil_r; [done| |]; rewrite length_map; lia.
Qed.

(** In every state a run reaches, the operations called are the first
    [m] ones submitted, or the first [m + 1] with the last one still
    running, and the processes started are the ones their calls
    started. *)
Lemma run_serial evs :
  exists m, m <= length (submitted evs)
    /\ (log (queue (run evs init)) = Queue.serial m
        /\ spawned (run evs init) = flat_map launched (take m (submitted evs))
        \/ log (queue (run evs init)) = Queue.serial m ++ [Queue.Call m]
           /\ spawned (run evs init)
              = flat_map launched (take (S m) (submitted evs))).
Proof.
  pose proof (executor_inv evs) as [Hwf Hlog].
  pose proof (run_spawned evs) as Hsp.
  pose proof (run_submitted evs) as Hops.
  destruct (QueueProps.wf_serial _ 0 _ Hwf) as (m & Hm & Hex).
  exists m. split.
  { by rewrite <- Hops, length_map. }
  rewrite <- Hlog in Hex. destruct Hex as [Hex|Hex]; [left|right];
    (split; [done|]); rewrite Hsp, Hex, <- Hops.
  - unfold Queue.serial. rewrite calls_serial_from. apply launchedBy_seq.
  - unfold Queue.serial. rewrite calls_app, calls_serial_from. simpl.
    rewrite <- seq_S. apply launchedBy_seq.
Qed.

Lemma accepted_flat_map ops :
  Forall accepted ops ->
  flat_map launched ops
  = flat_map (fun op => match workingDirectory (snd op) with
                        | Some d => [(commandLine (fst op), d)]
                        | None => []
                        end) ops.
Proof.
  induction 1 as [|op ops Hop _ IH]; [done|]. simpl.
  by rewrite IH, accepted_launched.
Qed.

(** When [cp.exec] accepts every operation submitted and the queue is at
    rest, every operation has run and the binary was started for the
    operations that have a working directory, in order. *)
Lemma at_rest_spawned evs :
  Forall accepted (submitted evs) ->
  Queue.at_rest call (queue (run evs init)) ->
  log (queue (run evs init)) = Queue.serial (length (submitted evs))
  /\ spawned (run evs init)
     = flat_map (fun op => match workingDirectory (snd op) with
                           | Some d => [(commandLine (fst op), d)]
                           | None => []
                           end) (submitted evs).
Proof.
  intros Hacc Hrest. destruct (accepted_chain evs Hacc) as [Hq Hun].
  pose proof (executor_inv evs) as Hinv.
  pose proof (QueueProps.at_rest_fulfilled call _ Hinv Hun Hrest) as Hdone.
  pose proof (run_submitted evs) as Hops.
  assert (length (chain (queue (run evs init))) = length (submitted evs)) as Hlen.
  { by rewrite <- Hops, length_map. }
  destruct Hinv as [_ Hlog].
  rewrite (QueueProps.expected_fulfilled _ 0 Hdone), Hlen in Hlog.
  split; [done|].
  rewrite run_spawned, Hlog. unfold Queue.serial.
  rewrite calls_serial_from, launchedBy_seq, Hops, firstn_all.
  by apply accepted_flat_map.
Qed.

Lemma invocation_length ops :
  Forall (fun op => workingDirectory (snd op) <> None) ops ->
  length (flat_map (fun op => match workingDirectory (snd op) with
                              | Some d => [(commandLine (fst op), d)]
                              | None => []
                              end) ops)
  = length ops.
Proof.
  induction 1 as [|op ops Hop _ IH]; [done|]. simpl.
  rewrite length_app, IH. by destruct (workingDirectory (snd op)).
Qed.

(** C1 (amended). For every interleaving of [executeCommand] calls,
    promise jobs and process exits: the operations in the chain are the
    ones submitted, in submission order; the operations called so far are
    the first ones, each called once and after the promise of the one
    before it settled, and the processes started so far are the ones
    those calls started: one for each operation that has a working
    directory and that [cp.exec] did not throw on; at most one operation
    is in flight.  When [cp.exec] throws on none of the operations
    submitted: whenever the queue is at rest, each of the [N] operations
    has been called exactly once and the binary has been started once
    for each operation that has a working directory, in submission
    order; the queue comes to rest once the processes it started have
    ended; and the binary is started [N] times when every operation has a
    working directory. *)
Theorem executeCommand_serialised evs (results : nat -> completion) :
  let st := run evs init in
  let ops := submitted evs in
  let st' := drain results (2 * length ops) st in
  let started := fun op : operation =>
    match workingDirectory (snd op) with
    | Some d =>
        match throws (commandLine (fst op)) d with
        | None => [(commandLine (fst op), d)]
        | Some _ => []
        end
    | None => []
    end in
  let invocation := fun op : operation =>
    match workingDirectory (snd op) with
    | Some d => [(commandLine (fst op), d)]
    | None => []
    end in
  map Queue.fn (chain (queue st)) = ops
  /\ (exists m, m <= length ops
        /\ (log (queue st) = Queue.serial m
            /\ spawned st = flat_map started (take m ops)
            \/ log (queue st) = Queue.serial m ++ [Queue.Call m]
               /\ spawned st = flat_map started (take (S m) ops)))
  /\ Queue.in_flight (chain (queue st)) <= 1
  /\ (Forall accepted ops ->
      (Queue.at_rest call (queue st) ->
         log (queue st) = Queue.serial (length ops)
         /\ spawned st = flat_map invocation ops)
      /\ Queue.at_rest call (queue st')
      /\ log (queue st') = Queue.serial (length ops)
      /\ spawned st' = flat_map invocation ops
      /\ (Forall (fun op => workingDirectory (snd op) <> None) ops ->
          length (spawned st') = length ops)).
Proof.
  intros st ops st' started invocation.
  assert (map Queue.fn (chain (queue st)) = ops) as Hops by apply run_submitted.
  pose proof (executor_inv evs) as Hinv. fold st in Hinv.
  split; [done|]. split.
  { destruct (run_serial evs) as (m & Hm & H). exists m. split; [done|].
    assert (forall l, flat_map launched l = flat_map started l) as Hst.
    { intros l. apply flat_map_ext. intros op. apply launched_spec. }
    by rewrite <- !Hst. }
  split; [by eapply QueueProps.wf_in_flight, Hinv|].
  intros Hacc. split; [by apply at_rest_spawned|].
  destruct (accepted_chain evs Hacc) as [Hq Hun]. fold st in Hq, Hun.
  destruct (QueueProps.drain_all call (fun k => settlement (results k))
              (2 * length ops) (queue st) Hq
              (settlement_fulfilled results) Hinv Hun)
    as (Hdone & _ & _).
  { rewrite <- Hops, length_map. lia. }
  rewrite <- drain_queue in Hdone. fold st' in Hdone.
  pose proof (QueueProps.fulfilled_at_rest call _ Hdone) as Hrest.
  destruct (drain_run results (2 * length ops) st) as (evs' & Hsub & Hrun).
  fold st' in Hrun. unfold st in Hrun. rewrite <- run_concat in Hrun.
  assert (submitted (evs ++ evs') = ops) as Hops'.
  { by rewrite submitted_app, Hsub, app_nil_r. }
  destruct (at_rest_spawned (evs ++ evs')) as [Hlog Hsp].
  { by rewrite Hops'. }
  { by rewrite <- Hrun. }
  rewrite <- Hrun, Hops' in Hlog, Hsp.
  split; [done|]. split; [done|]. split; [done|].
  intros Hdir. rewrite Hsp. by apply invocation_length.
Qed.

(** Once the promise of an operation is rejected, no operation submitted
    after it is called and no process is started any more, whatever is
    submitted and whatever happens next. *)
Lemma rejection_blocks evs evs' j l1 e :
  chain (queue (run evs init)) !! j = Some l1 ->
  Queue.inner l1 = Some (Rejected e) ->
  (forall k, j < k -> Queue.called k (queue (run evs' (run evs init))) = false)
  /\ spawned (run evs' (run evs init))
     = flat_map launched (take (S j) (submitted evs)).
Proof.
  intros Hj Hin.
  assert (S j <= length (submitted evs)) as Hlen.
  { rewrite <- run_submitted, length_map. by eapply lookup_lt_Some. }
  rewrite run_queue in Hj.
  destruct (QueueProps.rejected_blocks call (map queue_event evs)
              (map queue_event evs') j l1 e Hj Hin) as [Hcalled Hcalls].
  change (@Queue.empty operation UVCommandResult string) with (queue init)
    in Hcalled, Hcalls.
  rewrite <- !run_queue in Hcalled, Hcalls. split; [done|].
  rewrite <- run_concat in *.
  rewrite run_spawned, Hcalls, launchedBy_seq, run_submitted, submitted_app.
  by rewrite take_app_le.
Qed.

Lemma wf_fulfilled_inner {Op V E} (c : list (Queue.link Op V E)) :
  forall prev k l v,
  Queue.wf prev c -> c !! k = Some l -> Queue.derived l = Fulfilled v ->
  Queue.inner l = Some (Fulfilled v).
Proof.
  induction c as [|l0 rest IH]; intros prev k l v Hwf Hk Hd; [done|].
  simpl in Hwf. destruct k as [|k]; simpl in Hk.
  - injection Hk as ->. rewrite Hd in Hwf. by destruct Hwf as (_ & ? & _).
  - destruct (Queue.derived l0) as [|v0|e].
    + destruct Hwf as (_ & _ & Hidle).
      assert (Queue.idle l) as [_ Hp]; [|by rewrite Hp in Hd].
      by eapply Forall_lookup_1.
    + destruct Hwf as (_ & _ & Hrest). by eapply IH.
    + destruct Hwf as (_ & Hrest). by eapply IH.
Qed.

(** The state of the promise of operation [k] is what its call returned,
    or what the callback of [cp.exec] made of the exit of its process,
    which came while the promise was pending. *)
Lemma executor_origin evs k l s :
  chain (queue (run evs init)) !! k = Some l -> Queue.inner l = Some s ->
  s = call (Queue.fn l)
  \/ call (Queue.fn l) = Pending
     /\ exists evs1 p evs2 l1,
          evs = evs1 ++ ProcessExit k p :: evs2
          /\ chain (queue (run evs1 init)) !! k = Some l1
          /\ Queue.inner l1 = Some Pending
          /\ s = settlement p.
Proof.
  intros Hk Hin. rewrite run_queue in Hk.
  destruct (QueueProps.run_origin call _ k l s Hk Hin)
    as [Hc|(qevs1 & qevs2 & l1 & Hevs & H1 & _ & Hp & Hc)]; [by left|].
  right. split; [done|].
  apply map_eq_app in Hevs. destruct Hevs as (evs1 & tl & -> & <- & Htl).
  apply map_eq_cons in Htl. destruct Htl as (ev & evs2 & -> & Hev & _).
  destruct ev as [| |k' p]; try done. injection Hev as -> <-.
  exists evs1, p, evs2, l1. rewrite run_queue. done.
Qed.

(** C3 (amended). In every run, for the operation at position [k]: the
    promise of [_executeCommand] is not rejected when [cp.exec] does not
    throw on the operation, and the promise [executeCommand] returns is
    not rejected when [cp.exec] throws on none of the operations
    submitted up to it; the promise [executeCommand] returns is
    fulfilled only with the result of [_executeCommand]; without a
    working directory the promise of [_executeCommand] is fulfilled, as
    soon as the operation is called, with the fixed failure result;
    otherwise it is fulfilled only by the exit of its process, which
    came while it was pending, with [success] true exactly when
    [cp.exec] reported no error, which it does at exit code 0 only,
    [output] the captured stdout and [error] the captured stderr, or the
    message of the error when there is one and stderr is empty; and
    while it is pending, the exit of the process fulfils it with that
    result. *)
Theorem executeCommand_reports evs k l :
  let reported := fun p : completion =>
    match p with
    | Succeeded out errout => Result true out (Some errout)
    | Failed _ message out errout =>
        Result false out (Some (if truthy errout then errout else message))
    end in
  chain (queue (run evs init)) !! k = Some l ->
  (accepted (Queue.fn l) -> forall e, Queue.inner l <> Some (Rejected e))
  /\ (Forall accepted (take (S k) (submitted evs)) ->
      forall e, Queue.derived l <> Rejected e)
  /\ (forall r, Queue.derived l = Fulfilled r -> Queue.inner l = Some (Fulfilled r))
  /\ (forall s, Queue.inner l = Some s ->
        match workingDirectory (snd (Queue.fn l)) with
        | None => s = Fulfilled (Result false "" (Some "No workspace root found"))
        | Some d =>
            forall r, s = Fulfilled r ->
            exists evs1 p evs2 l1,
              evs = evs1 ++ ProcessExit k p :: evs2
              /\ chain (queue (run evs1 init)) !! k = Some l1
              /\ Queue.inner l1 = Some Pending
              /\ r = reported p
              /\ (success r = true -> exit_code p = Some 0%Z)
              /\ (exit_code p <> Some 0%Z -> success r = false)
        end)
  /\ (Queue.inner l = Some Pending ->
      forall p,
        chain (queue (run (evs ++ [ProcessExit k p]) init)) !! k
        = Some (Queue.Link (Queue.fn l) (Some (Fulfilled (reported p)))
                  (Queue.derived l))).
Proof.
  intros reported Hk. pose proof (executor_inv evs) as [Hwf _].
  split; [intros Hacc; by apply (executor_unrejected evs k l)|]. split.
  { intros Hacc. apply (QueueProps.wf_unrejected_upto _ k l Hwf Hk).
    intros i li Hi Hli. apply (executor_unrejected evs i li Hli).
    assert (submitted evs !! i = Some (Queue.fn li)) as Hop.
    { rewrite <- run_submitted.
      change ((Queue.fn <$> chain (queue (run evs init))) !! i = Some (Queue.fn li)).
      by rewrite list_lookup_fmap, Hli. }
    apply (Forall_lookup_1 _ _ i _ Hacc).
    rewrite lookup_take_lt by lia. done. }
  split; [intros r Hd; by eapply wf_fulfilled_inner|]. split.
  - intros s Hin. pose proof (executor_origin evs k l s Hk Hin) as Hsrc.
    rewrite call_spec in Hsrc.
    destruct (workingDirectory (snd (Queue.fn l))) as [d|] eqn:Hwd.
    + intros r ->.
      destruct Hsrc as [Hc|(_ & evs1 & p & evs2 & l1 & -> & H1 & Hp & Hs)].
      { by destruct (throws _ d). }
      rewrite settlement_spec in Hs. injection Hs as ->.
      exists evs1, p, evs2, l1. repeat split; try done.
      * by destruct p.
      * by destruct p.
    + by destruct Hsrc as [->|[? _]].
  - intros Hin p. rewrite run_concat. simpl. unfold Queue.settle.
    rewrite Hk, Hin. simpl.
    rewrite list_lookup_insert_eq by by eapply lookup_lt_Some.
    by rewrite settlement_spec.
Qed.
End ExecutorProps.
End ExecutorProps.

(** Two commands in a workspace, both of which fail: both are run, one
    after the other. *)
Lemma executeCommand_serialised_witness :
  let evs := [Executor.ExecuteCommand ["add"; "requests"] None;
              Executor.ExecuteCommand ["sync"] (Some "/ws/pkg");
              Executor.Job] in
  let results := fun _ : nat => Executor.Failed (Some 2%Z) "Command failed" "" "" in
  let st' := Executor.drain "uv" (Some "/ws") Executor.refusesNul results 4
               (Executor.run "uv" (Some "/ws") Executor.refusesNul evs Executor.init) in
  Executor.spawned st' = [("uv add requests", "/ws"); ("uv sync", "/ws/pkg")]
  /\ length (Executor.spawned st') = 2.
Proof.
  intros evs results st'.
  destruct (ExecutorProps.executeCommand_serialised "uv" (Some "/ws")
              Executor.refusesNul evs results) as (_ & _ & _ & H).
  destruct H as (_ & _ & _ & Hsp & Hlen).
  { repeat constructor; intros command cwd [= <- <-]; reflexivity. }
  split; [exact Hsp|]. apply Hlen. repeat constructor; done.
Defined.

(** Three commands submitted at once, the second of which fails. *)
Example executeCommand_three :
  let ok := Executor.Succeeded "done" "" in
  let ko := Executor.Failed (Some 1%Z) "Command failed" "" "" in
  let st := Executor.run "uv" (Some "/ws") Executor.refusesNul
              [Executor.ExecuteCommand ["lock"] None;
               Executor.ExecuteCommand ["sync"] None;
               Executor.ExecuteCommand ["tree"] None;
               Executor.Job; Executor.ProcessExit 0 ok; Executor.Job;
               Executor.Job; Executor.ProcessExit 1 ko; Executor.Job;
               Executor.Job; Executor.ProcessExit 2 ok; Executor.Job]
              Executor.init in
  Queue.log (Executor.queue st)
  = [Queue.Call 0; Queue.Done 0; Queue.Call 1; Queue.Done 1;
     Queue.Call 2; Queue.Done 2]
  /\ Executor.spawned st
     = [("uv lock", "/ws"); ("uv sync", "/ws"); ("uv tree", "/ws")]
  /\ map Queue.derived (Queue.chain (Executor.queue st))
     = [Promise.Fulfilled (Executor.Result true "done" (Some ""));
        Promise.Fulfilled (Executor.Result false "" (Some "Command failed"));
        Promise.Fulfilled (Executor.Result true "done" (Some ""))].
Proof. repeat split. Qed.

(** C1 as stated fails: one command, no folder open and no [cwd] given,
    on a host that never throws.  The operation is called and settles,
    the queue is at rest, and the binary has not been started: one
    operation submitted, no invocation. *)
Lemma executeCommand_without_workspace :
  let evs := [Executor.ExecuteCommand ["sync"] None] in
  let results := fun _ : nat => Executor.Succeeded "" "" in
  let st' := Executor.drain "uv" None Executor.neverThrows results 2
               (Executor.run "uv" None Executor.neverThrows evs Executor.init) in
  length (Executor.submitted evs) = 1
  /\ Queue.log (Executor.queue st') = [Queue.Call 0; Queue.Done 0]
  /\ Queue.at_rest (Executor.call "uv" None Executor.neverThrows) (Executor.queue st')
  /\ Executor.spawned st' = []
  /\ length (Executor.spawned st') <> length (Executor.submitted evs).
Proof. repeat split. simpl. lia. Qed.

(** C2, on the code: [executeCommand(['venv', 'a\u0000b'])] (the name
    typed in the input box of [venv]) followed by
    [executeCommand(['sync'])], in an open workspace.  [cp.exec] throws
    on the first command line, so the promise of the first operation is
    rejected; [enqueue] passes the rejection on, the second operation is
    not called after any number of promise jobs, and neither is any
    operation submitted later: no process is started again. *)
Lemma executeCommand_blocked_after_throw :
  let name := "a" +:+ Executor.nul +:+ "b" in
  let evs := [Executor.ExecuteCommand ["venv"; name] None;
              Executor.ExecuteCommand ["sync"] None;
              Executor.Job; Executor.Job; Executor.Job] in
  let st := Executor.run "uv" (Some "/ws") Executor.refusesNul evs Executor.init in
  Queue.chain (Executor.queue st)
  = [Queue.Link (["venv"; name], None)
       (Some (Promise.Rejected "ERR_INVALID_ARG_VALUE"))
       (Promise.Rejected "ERR_INVALID_ARG_VALUE");
     Queue.Link (["sync"], None) None (Promise.Rejected "ERR_INVALID_ARG_VALUE")]
  /\ Queue.called 1 (Executor.queue st) = false
  /\ Executor.spawned st = []
  /\ forall evs',
       let st' := Executor.run "uv" (Some "/ws") Executor.refusesNul evs' st in
       (forall k, 0 < k -> Queue.called k (Executor.queue st') = false)
       /\ Executor.spawned st' = [].
Proof.
  intros name evs st. split; [reflexivity|]. split; [reflexivity|].
  split; [reflexivity|]. intros evs' st'.
  exact (ExecutorProps.rejection_blocks "uv" (Some "/ws") Executor.refusesNul
           evs evs' 0 _ "ERR_INVALID_ARG_VALUE" eq_refl eq_refl).
Qed.

(** A command that exits with status 1 and prints to stderr only. *)
Lemma executeCommand_reports_witness :
  let p := Executor.Failed (Some 1%Z) "Command failed: uv sync" ""
             "error: No `pyproject.toml` found" in
  let evs := [Executor.ExecuteCommand ["sync"] None; Executor.Job;
              Executor.ProcessExit 0 p] in
  let r := Executor.Result false "" (Some "error: No `pyproject.toml` found") in
  let l : Queue.link Executor.operation Executor.UVCommandResult string :=
    Queue.Link (["sync"], None) (Some (Promise.Fulfilled r)) Promise.Pending in
  (forall e, Queue.derived l <> Promise.Rejected e)
  /\ exists evs1 p' evs2 l1,
       evs = evs1 ++ Executor.ProcessExit 0 p' :: evs2
       /\ Queue.chain (Executor.queue
            (Executor.run "uv" (Some "/ws") Executor.refusesNul evs1 Executor.init))
            !! 0 = Some l1
       /\ Queue.inner l1 = Some Promise.Pending
       /\ r = match p' with
              | Executor.Succeeded out errout => Executor.Result true out (Some errout)
              | Executor.Failed _ message out errout =>
                  Executor.Result false out
                    (Some (if Js.truthy errout then errout else message))
              end
       /\ (Executor.success r = true -> Executor.exit_code p' = Some 0%Z)
       /\ (Executor.exit_code p' <> Some 0%Z -> Executor.success r = false).
Proof.
  intros p evs r l.
  destruct (ExecutorProps.executeCommand_reports "uv" (Some "/ws")
              Executor.refusesNul evs 0 l eq_refl) as (_ & Hd & _ & Hs & _).
  split.
  - apply Hd. repeat constructor; intros command cwd [= <- <-]; reflexivity.
  - exact (Hs _ eq_refl r eq_refl).
Defined.

(** A command whose process exits with code 0 after [cp.exec] has given
    up on its output: whatever was captured, the result is a failure. *)
Lemma exit_code_0_with_error out :
  let p := Executor.Failed (Some 0%Z) "stdout maxBuffer length exceeded" out "" in
  let st := Executor.run "uv" (Some "/ws") Executor.neverThrows
              [Executor.ExecuteCommand ["tree"; "--format"; "json"] None;
               Executor.Job; Executor.ProcessExit 0 p; Executor.Job]
              Executor.init in
  let r := Executor.Result false out (Some "stdout maxBuffer length exceeded") in
  Executor.exit_code p = Some 0%Z
  /\ Executor.spawned st = [("uv tree --format json", "/ws")]
  /\ Queue.chain (Executor.queue st)
     = [Queue.Link (["tree"; "--format"; "json"], None)
          (Some (Promise.Fulfilled r)) (Promise.Fulfilled r)]
  /\ Executor.success r <> true.
Proof. repeat split. done. Qed.

(** C3 as stated fails: [uv tree --format json] prints more than
    [maxBuffer] (1024 * 1024 bytes, the default) and exits with code 0.
    [cp.exec] passes an error to the callback, with the output cut at
    [maxBuffer], and the result has [success = false] at exit code 0. *)
Lemma executeCommand_error_at_exit_code_0 :
  let out := N.iter 1048576 (String "x") "" in
  let p := Executor.Failed (Some 0%Z) "stdout maxBuffer length exceeded" out "" in
  let st := Executor.run "uv" (Some "/ws") Executor.neverThrows
              [Executor.ExecuteCommand ["tree"; "--format"; "json"] None;
               Executor.Job; Executor.ProcessExit 0 p; Executor.Job]
              Executor.init in
  let r := Executor.Result false out (Some "stdout maxBuffer length exceeded") in
  Executor.exit_code p = Some 0%Z
  /\ Executor.spawned st = [("uv tree --format json", "/ws")]
  /\ Queue.chain (Executor.queue st)
     = [Queue.Link (["tree"; "--format"; "json"], None)
          (Some (Promise.Fulfilled r)) (Promise.Fulfilled r)]
  /\ Executor.success r <> true.
Proof. exact (exit_code_0_with_error (N.iter 1048576 (String "x") "")). Qed.

(** ** The debounced refresh *)

Module DebounceProps.
Import Debounce.
Local Open Scope Z_scope.

Lemma clearTimeout_single h d : clearTimeout h [(h, d)] = [].
Proof. unfold clearTimeout. simpl. by rewrite Nat.eqb_refl. Qed.

Lemma due_single h h' d d' : due h' [(h, d)] = Some d' -> h' = h /\ d' = d.
Proof.
  unfold due. simpl. destruct (Nat.eqb_spec h h') as [->|]; [|done].
  by intros [= ->].
Qed.

(** A request leaves exactly its own timeout pending. *)
Lemma request_single t st :
  single st ->
  timeouts (debouncedUpdateStatus t st) = [(next_handle st, t + debounceDelay)]
  /\ debounceTimer (debouncedUpdateStatus t st) = Some (next_handle st).
Proof.
  intros [Hnone|(h & d & Hone & Hh)]; unfold debouncedUpdateStatus; simpl.
  - rewrite Hnone. by destruct (debounceTimer st).
  - by rewrite Hone, Hh, clearTimeout_single.
Qed.

Lemma step_single st ev st' : single st -> step st ev = Some st' -> single st'.
Proof.
  intros Hs. destruct ev as [t|h t]; simpl.
  - destruct (now st <=? t); [|done]. intros [= <-].
    destruct (request_single t st Hs) as [Ht Hd]. right. eauto.
  - destruct (due h (timeouts st)) as [d|] eqn:Hdue; [|done].
    destruct ((now st <=? t) && (d <=? t)); [|done]. intros [= <-]. left.
    destruct Hs as [Hnone|(h0 & d0 & Hone & _)]; simpl.
    + by rewrite Hnone.
    + rewrite Hone in *. apply due_single in Hdue as [-> _].
      apply clearTimeout_single.
Qed.

Lemma run_single evs : forall st st',
  single st -> run evs st = Some st' -> single st'.
Proof.
  induction evs as [|ev evs IH]; intros st st' Hs; simpl.
  - by intros [= <-].
  - destruct (step st ev) as [st1|] eqn:Hstep; [|done].
    apply IH. by eapply step_single.
Qed.

(** Once the timeout has run and the window of the burst is over, nothing
    more can happen in the burst. *)
Lemma run_fired limit evs st st' :
  timeouts st = [] -> limit <= now st -> requests_before limit evs ->
  run evs st = Some st' -> evs = [].
Proof.
  intros Hnone Hnow Hreq. destruct evs as [|ev evs]; [done|].
  inversion Hreq as [|? ? Hev _]; subst. simpl.
  destruct ev as [t|h t]; simpl.
  - destruct (Z.leb_spec (now st) t); [lia|done].
  - by rewrite Hnone.
Qed.

(** While the timeout of the last request is pending: the run either
    leaves it pending, without any update, or ends with its callback, the
    only update, no sooner than [debounceDelay] after the last request. *)
Lemma run_armed limit evs : forall st st' h r,
  timeouts st = [(h, r + debounceDelay)] -> debounceTimer st = Some h ->
  r <= now st -> limit <= r + debounceDelay ->
  requests_before limit evs -> run evs st = Some st' ->
  updates st' = updates st
  \/ exists u, updates st' = updates st ++ [u]
       /\ last_request r evs + debounceDelay <= u.
Proof.
  induction evs as [|ev evs IH]; intros st st' h r Hone Hh Hr Hlim Hreq; simpl.
  { intros [= <-]. by left. }
  inversion Hreq as [|? ? Hev Hrest]; subst.
  destruct ev as [t|h' t]; simpl.
  - destruct (Z.leb_spec (now st) t); [|done]. intros Hrun.
    assert (single st) as Hs by (right; eauto).
    destruct (request_single t st Hs) as [Ht Hd].
    apply (IH _ _ (next_handle st) t Ht Hd) in Hrun; [done|simpl; lia|lia|done].
  - destruct (due h' (timeouts st)) as [d|] eqn:Hdue; [|done].
    rewrite Hone in Hdue. apply due_single in Hdue as [-> ->].
    destruct (Z.leb_spec (now st) t); [|done].
    destruct (Z.leb_spec (r + debounceDelay) t); [|done]. simpl. intros Hrun.
    assert (evs = []) as ->.
    { eapply (run_fired limit); [| |exact Hrest|exact Hrun]; simpl.
      - by rewrite Hone, clearTimeout_single.
      - lia. }
    injection Hrun as <-. right. exists t. simpl. split; [done|lia].
Qed.

(** C6. In any state the status bar can reach, a burst of calls of
    [debouncedUpdateStatus] that starts at [t1] and whose calls all fall
    within the next 300 ms triggers [updateStatus] at most once, whatever
    the host does with its timeouts in between, and not before 300 ms
    have passed since the last call of the burst. *)
Theorem debouncedUpdateStatus_coalesces t0 before st0 t1 evs st :
  run before (init t0) = Some st0 ->
  requests_before (t1 + 300) evs ->
  run (Request t1 :: evs) st0 = Some st ->
  exists new,
    updates st = updates st0 ++ new
    /\ (length new <= 1)%nat
    /\ Forall (fun u => last_request t1 evs + 300 <= u) new.
Proof.
  intros Hbefore Hreq. simpl.
  destruct (Z.leb_spec (now st0) t1); [|done]. intros Hrun.
  assert (single st0) as Hs.
  { eapply run_single; [|exact Hbefore]. by left. }
  destruct (request_single t1 st0 Hs) as [Ht Hd].
  assert (t1 <= now (debouncedUpdateStatus t1 st0)) as Hnow by (simpl; lia).
  assert (t1 + 300 <= t1 + debounceDelay) as Hlim by (unfold debounceDelay; lia).
  destruct (run_armed (t1 + 300) evs _ st _ t1 Ht Hd Hnow Hlim Hreq Hrun)
    as [Hup|(u & Hup & Hu)].
  - exists []. rewrite Hup, app_nil_r. simpl. split; [done|].
    split; [lia|constructor].
  - exists [u]. rewrite Hup. simpl. split; [done|]. split; [lia|].
    constructor; [|constructor]. unfold debounceDelay in Hu. lia.
Qed.
End DebounceProps.

(** The constructor asks for a refresh at 0 and it runs at 300; then three
    file events at 1000, 1100 and 1250 are followed by one refresh, at
    1550. *)
Lemma debouncedUpdateStatus_coalesces_witness :
  exists new,
    [300%Z; 1550%Z] = [300%Z] ++ new
    /\ (length new <= 1)%nat
    /\ Forall (fun u => (1250 + 300 <= u)%Z) new.
Proof.
  exact (DebounceProps.debouncedUpdateStatus_coalesces 0
           [Debounce.Request 0; Debounce.Fire 0 300]
           (Debounce.State 300 1 [] (Some 0%nat) [300%Z])
           1000
           [Debounce.Request 1100; Debounce.Request 1250; Debounce.Fire 3 1550]
           (Debounce.State 1550 4 [] (Some 3%nat) [300%Z; 1550%Z])
           eq_refl
           ltac:(repeat constructor; simpl; lia)
           eq_refl).
Defined.

(** ** The HTTP server supervisor *)

Module HttpServerProps.
Import Js HttpServer.
Section HttpServerProps.
Variable win32 : bool.
Variable throws : string -> option string.

#[local] Abbreviation startServer := (startServer win32 throws).
#[local] Abbreviation tryPython3Fallback := (tryPython3Fallback throws).
#[local] Abbreviation step := (step win32 throws).
#[local] Abbreviation run := (run win32 throws).

(** C7. While the supervisor is running, [startServer(folder, port)]
    returns [false] and changes nothing but the notifications, to which
    it adds the warning: no process is spawned or killed, and the child,
    the port and the folder stay as they were. *)
Theorem startServer_while_running st f p :
  running st = true ->
  fst (startServer f p st) = false
  /\ attempts (snd (startServer f p st)) = attempts st
  /\ killed (snd (startServer f p st)) = killed st
  /\ serverProcess (snd (startServer f p st)) = serverProcess st
  /\ running (snd (startServer f p st)) = true
  /\ currentPort (snd (startServer f p st)) = currentPort st
  /\ currentFolder (snd (startServer f p st)) = currentFolder st
  /\ fired (snd (startServer f p st)) = fired st
  /\ messages (snd (startServer f p st)) = messages st ++ [AlreadyRunning].
Proof.
  intros Hrun. unfold HttpServer.startServer. rewrite Hrun. simpl.
  by rewrite Hrun.
Qed.

(** *** Spawn attempts *)

Lemma retries_app l a :
  length (List.filter retriable (l ++ [a]))
  = length (List.filter retriable l) + (if retriable a then 1 else 0).
Proof.
  rewrite List.filter_app, length_app. simpl. by destruct (retriable a).
Qed.

Lemma retries_retire l : forall pid a,
  l !! pid = Some a ->
  length (List.filter retriable
            (alter (fun a => Attempt (command a) (port a) (folder a) (handlers a) Gone)
                   pid l))
  + (if retriable a then 1 else 0)
  = length (List.filter retriable l).
Proof.
  induction l as [|a0 l IH]; intros pid a Hpid; [done|].
  destruct pid as [|pid]; simpl in *.
  - injection Hpid as ->. destruct (retriable a); simpl; lia.
  - specialize (IH pid a Hpid). unfold alter in IH.
    destruct (retriable a0); simpl; lia.
Qed.

Lemma live_retriable st pid a :
  live pid st = Some a -> attempts st !! pid = Some a /\ state a = Live.
Proof.
  unfold live. destruct (attempts st !! pid) as [a'|]; [|done].
  destruct (state a') eqn:Hs; try done. by intros [= <-].
Qed.

Lemma potential_fallback f p st :
  potential (snd (tryPython3Fallback f p st)) = S (potential st).
Proof.
  unfold potential, retries_left, HttpServer.tryPython3Fallback.
  destruct (throws "python3") as [code|]; simpl.
  - destruct (String.eqb code ENOENT); simpl; rewrite length_app, retries_app;
      simpl; lia.
  - rewrite length_app, retries_app. simpl. lia.
Qed.

Lemma potential_stopServer st :
  potential (stopServer st) = potential st.
Proof.
  unfold stopServer, potential, retries_left.
  destruct (serverProcess st); [|done]. by destruct (running st).
Qed.

Lemma potential_step st ev :
  potential (step st ev)
  <= potential st + match ev with StartServer _ _ => 2 | _ => 0 end.
Proof.
  destruct ev as [f p| |pid code|pid|pid data]; simpl.
  - unfold HttpServer.startServer. destruct (running st);
      [unfold potential, retries_left; simpl; lia|].
    destruct (throws (if win32 then "python" else "python3")) as [code|]; simpl.
    + destruct (String.eqb code ENOENT && String.eqb (if win32 then "python" else "python3") "python").
      * rewrite potential_fallback. unfold potential, retries_left. simpl.
        rewrite length_app, retries_app. simpl. lia.
      * unfold potential, retries_left. simpl.
        rewrite length_app, retries_app. simpl. lia.
    + unfold potential, retries_left. simpl. rewrite length_app, retries_app.
      simpl. destruct (retriable _); lia.
  - rewrite potential_stopServer. lia.
  - destruct (live pid st) as [a|] eqn:Hlive; [|lia].
    apply live_retriable in Hlive as [Hpid Hst].
    pose proof (retries_retire (attempts st) pid a Hpid) as Hret.
    unfold onError. destruct (handlers a) as [cmd|] eqn:Hh.
    + destruct (String.eqb code ENOENT && String.eqb cmd "python3").
      { unfold potential, retries_left. simpl. rewrite length_alter. lia. }
      destruct (String.eqb code ENOENT && String.eqb cmd "python") eqn:Hpy.
      * rewrite potential_fallback. unfold potential, retries_left. simpl.
        rewrite length_alter.
        assert (retriable a = true) as Hr.
        { unfold retriable. rewrite Hst, Hh. by apply andb_prop in Hpy as [_ ?]. }
        rewrite Hr in Hret. lia.
      * unfold potential, retries_left. simpl. rewrite length_alter. lia.
    + destruct (String.eqb code ENOENT); unfold potential, retries_left; simpl;
        rewrite length_alter; lia.
  - destruct (live pid st) as [a|] eqn:Hlive; [|lia].
    apply live_retriable in Hlive as [Hpid Hst].
    pose proof (retries_retire (attempts st) pid a Hpid) as Hret.
    unfold potential, retries_left. simpl. rewrite length_alter. lia.
  - destruct (live pid st) as [a|] eqn:Hlive; [|lia].
    unfold onStderr. destruct (includes _ data).
    + rewrite potential_stopServer. unfold potential, retries_left. simpl. lia.
    + destruct (includes _ _); [unfold potential, retries_left; simpl|]; lia.
Qed.

Lemma potential_run evs : forall st,
  potential (run evs st) <= potential st + 2 * starts evs.
Proof.
  induction evs as [|ev evs IH]; intros st; [simpl; lia|].
  change (run (ev :: evs) st) with (run evs (step st ev)).
  specialize (IH (step st ev)). pose proof (potential_step st ev) as Hstep.
  assert (starts (ev :: evs)
          = match ev with StartServer _ _ => 1 | _ => 0 end + starts evs) as ->
    by (by destruct ev).
  destruct ev; lia.
Qed.

(** C8 (amended). When [startServer] spawns its interpreter command and
    the child reports that the executable was not found: on Windows,
    where the command is ['python'], exactly one alternate, ['python3'],
    is spawned for the same port and folder, the supervisor stays
    running on it, and if that child is not found either the supervisor
    stops with the notification that neither was found, without spawning
    again; on the other platforms, where the command is ['python3'], no
    alternate is spawned and the supervisor stops with the notification
    that ['python3'] was not found.  In any run, [cp.spawn] is called at
    most twice for each call of [startServer]. *)
Theorem startServer_fallback st f p :
  running st = false -> (forall cmd, throws cmd = None) ->
  let pid := length (attempts st) in
  let st1 := snd (startServer f p st) in
  let st2 := step st1 (ChildError pid ENOENT) in
  let st3 := step st2 (ChildError (S pid) ENOENT) in
  running st1 = true
  /\ (if win32
      then attempts st2
           = attempts st ++ [Attempt "python" p f (Primary "python") Gone;
                             Attempt "python3" p f Fallback Live]
           /\ running st2 = true /\ serverProcess st2 = Some (S pid)
           /\ length (attempts st3) = length (attempts st2)
           /\ running st3 = false
           /\ messages st3 = messages st2 ++ [NeitherFound]
      else attempts st2
           = attempts st ++ [Attempt "python3" p f (Primary "python3") Gone]
           /\ running st2 = false
           /\ messages st2 = messages st1 ++ [Python3NotFound])
  /\ (forall evs, length (attempts (run evs init)) <= 2 * starts evs).
Proof.
  intros Hrun Hthrows pid st1 st2 st3.
  assert (forall (l : list attempt) a,
            alter (fun a => Attempt (command a) (port a) (folder a) (handlers a) Gone)
                  (length l) (l ++ [a])
            = l ++ [Attempt (command a) (port a) (folder a) (handlers a) Gone])
    as Halter.
  { intros l a. replace (length l) with (length l + 0) by lia.
    by rewrite alter_app_r. }
  assert (forall (l : list attempt) a b,
            alter (fun a => Attempt (command a) (port a) (folder a) (handlers a) Gone)
                  (S (length l)) (l ++ [a; b])
            = l ++ [a; Attempt (command b) (port b) (folder b) (handlers b) Gone])
    as Halter2.
  { intros l a b. replace (S (length l)) with (length l + 1) by lia.
    by rewrite alter_app_r. }
  split; [|split].
  - subst st1. unfold HttpServer.startServer. rewrite Hrun, Hthrows. done.
  - subst st3 st2 st1 pid. unfold HttpServer.startServer.
    rewrite Hrun, Hthrows. destruct win32; simpl.
    + unfold live. simpl. rewrite list_lookup_middle; [|done]. simpl.
      unfold onError, HttpServer.tryPython3Fallback. simpl. rewrite Hthrows. simpl.
      rewrite Halter, <- app_assoc. simpl. split; [done|].
      rewrite length_app, Nat.add_1_r. repeat (split; [done|]).
      unfold live. simpl.
      replace (S (length (attempts st))) with (length (attempts st) + 1) by lia.
      rewrite lookup_app_r; [|lia].
      replace (length (attempts st) + 1 - length (attempts st)) with 1 by lia.
      simpl. rewrite length_alter.
      split; [rewrite !length_app, length_alter, !length_app; simpl; lia|done].
    + unfold live. simpl. rewrite list_lookup_middle; [|done]. simpl.
      unfold onError. simpl. by rewrite Halter.
  - intros evs. pose proof (potential_run evs init) as Hp.
    unfold potential in Hp. simpl in Hp. lia.
Qed.
End HttpServerProps.
End HttpServerProps.

(** [startServer("/tmp/site", 8000)] on a new supervisor, then
    [startServer("/tmp/other", 9000)] while it runs. *)
Lemma startServer_while_running_witness :
  let env := fun _ : string => @None string in
  let st := snd (HttpServer.startServer false env "/tmp/site" 8000 HttpServer.init) in
  let st' := snd (HttpServer.startServer false env "/tmp/other" 9000 st) in
  fst (HttpServer.startServer false env "/tmp/other" 9000 st) = false
  /\ HttpServer.attempts st' = HttpServer.attempts st
  /\ HttpServer.killed st' = HttpServer.killed st
  /\ HttpServer.serverProcess st' = HttpServer.serverProcess st
  /\ HttpServer.running st' = true
  /\ HttpServer.currentPort st' = 8000%Z
  /\ HttpServer.currentFolder st' = "/tmp/site"
  /\ HttpServer.fired st' = HttpServer.fired st
  /\ HttpServer.messages st' = HttpServer.messages st ++ [HttpServer.AlreadyRunning].
Proof.
  intros env st st'.
  exact (HttpServerProps.startServer_while_running false env st
           "/tmp/other" 9000%Z eq_refl).
Defined.

(** On Windows, ['python'] is missing and ['python3'] is there. *)
Lemma startServer_fallback_witness :
  let env := fun _ : string => @None string in
  let st1 := snd (HttpServer.startServer true env "/tmp/site" 8000 HttpServer.init) in
  let st2 := HttpServer.step true env st1 (HttpServer.ChildError 0 HttpServer.ENOENT) in
  HttpServer.attempts st2
  = [HttpServer.Attempt "python" 8000 "/tmp/site" (HttpServer.Primary "python")
       HttpServer.Gone;
     HttpServer.Attempt "python3" 8000 "/tmp/site" HttpServer.Fallback
       HttpServer.Live]
  /\ HttpServer.running st2 = true.
Proof.
  intros env st1 st2.
  destruct (HttpServerProps.startServer_fallback true env HttpServer.init
              "/tmp/site" 8000%Z eq_refl (fun _ => eq_refl))
    as (_ & (Hattempts & Hrunning & _) & _).
  split; [exact Hattempts|exact Hrunning].
Defined.

(** On Linux, ['python3'] is missing: the supervisor gives up after the
    one command it tried. *)
Lemma startServer_no_fallback_off_windows :
  let env := fun _ : string => @None string in
  let st1 := snd (HttpServer.startServer false env "/tmp/site" 8000 HttpServer.init) in
  let st2 := HttpServer.step false env st1 (HttpServer.ChildError 0 HttpServer.ENOENT) in
  map HttpServer.command (HttpServer.attempts st2) = ["python3"]
  /\ HttpServer.running st2 = false
  /\ HttpServer.messages st2
     = [HttpServer.Started 8000; HttpServer.Python3NotFound].
Proof. repeat split. Qed.

(** The child writes that the address is in use: the supervisor reports
    the port and stops. *)
Example startServer_port_in_use :
  let env := fun _ : string => @None string in
  let st1 := snd (HttpServer.startServer false env "/tmp/site" 8000 HttpServer.init) in
  let st2 := HttpServer.step false env st1
               (HttpServer.ChildStderr 0 "OSError: [Errno 98] Address already in use") in
  HttpServer.running st2 = false
  /\ HttpServer.killed st2 = [0]
  /\ HttpServer.messages st2
     = [HttpServer.Started 8000; HttpServer.PortInUse 8000; HttpServer.Stopped]
  /\ HttpServer.arguments (HttpServer.Attempt "python3" 8000 "/tmp/site"
                             (HttpServer.Primary "python3") HttpServer.Live)
     = ["-m"; "http.server"; "8000"].
Proof. repeat split. Qed.

(** ** Regular expressions *)

Module RegexProps.
Import Regex.

Lemma void_not_nullable r : void r = true -> nullable r = false.
Proof.
  induction r as [| | |r1 IH1 r2 IH2|r1 IH1 r2 IH2|r IH]; simpl; try done.
  - intros [H|H]%orb_prop; [rewrite IH1|rewrite IH2]; try done.
    apply andb_false_r.
  - intros [H1 H2]%andb_prop. by rewrite IH1, IH2.
Qed.

Lemma void_deriv c r : void r = true -> void (deriv c r) = true.
Proof.
  induction r as [| | |r1 IH1 r2 IH2|r1 IH1 r2 IH2|r IH]; simpl; try done.
  - intros [H|H]%orb_prop.
    + rewrite IH1, (void_not_nullable r1); done.
    + rewrite H, orb_true_r. simpl. destruct (nullable r1); [by apply IH2|done].
  - intros [H1 H2]%andb_prop. by rewrite IH1, IH2.
Qed.

Lemma void_matches s : forall r, void r = true -> matches r s = false.
Proof.
  induction s as [|c s IH]; intros r Hr; simpl.
  - by apply void_not_nullable.
  - by apply IH, void_deriv.
Qed.

Lemma within_deriv P c r : within P r -> within P (deriv c r).
Proof.
  induction r as [| |p|r1 IH1 r2 IH2|r1 IH1 r2 IH2|r IH]; simpl; try done.
  - by destruct (p c).
  - intros [H1 H2]. repeat split; try done; [by apply IH1|].
    destruct (nullable r1); [by apply IH2|done].
  - intros [H1 H2]. split; [by apply IH1|by apply IH2].
  - intros H. split; [by apply IH|done].
Qed.

(** A character outside the classes of [r] cannot start a match. *)
Lemma deriv_outside P c r :
  within P r -> P c = false -> void (deriv c r) = true.
Proof.
  intros Hr Hc.
  induction r as [| |p|r1 IH1 r2 IH2|r1 IH1 r2 IH2|r IH]; simpl in *; try done.
  - destruct (p c) eqn:Hp; [|done]. apply Hr in Hp. congruence.
  - destruct Hr as [H1 H2]. rewrite IH1; [|done]. simpl.
    destruct (nullable r1); [by apply IH2|done].
  - destruct Hr as [H1 H2]. by rewrite IH1, IH2.
  - by rewrite IH.
Qed.

(** What matches [r] is made of characters of the classes of [r]. *)
Lemma matches_within P s : forall r,
  within P r -> matches r s = true -> Js.every P s = true.
Proof.
  induction s as [|c s IH]; intros r Hr Hm; simpl in *; [done|].
  destruct (P c) eqn:Hc.
  - simpl. eapply IH; [|exact Hm]. by apply within_deriv.
  - rewrite void_matches in Hm; [done|]. by eapply deriv_outside.
Qed.
End RegexProps.

(** ** The interpreter pin file *)

Module VersionFileProps.
Import Js Regex VersionFile.

Lemma versionRegex_within : within versionAlphabet versionRegex.
Proof.
  unfold versionRegex, plus, opt, lit. simpl.
  repeat split; intros [[] [] [] [] [] [] [] []]; by vm_compute.
Qed.

Lemma versionAlphabet_plain c :
  versionAlphabet c = true -> isSpace c = false /\ Ascii.eqb c "-" = false.
Proof. destruct c as [[] [] [] [] [] [] [] []]; by vm_compute. Qed.

Lemma every_impl (p q : ascii -> bool) s :
  (forall c, p c = true -> q c = true) -> every p s = true -> every q s = true.
Proof.
  intros Hpq. induction s as [|c s IH]; simpl; [done|].
  intros [Hc Hs]%andb_prop. by rewrite (Hpq c Hc), IH.
Qed.

(** A string without a dash holds no toolchain version to extract. *)
Lemma extractVersion_none s :
  every (fun c => negb (Ascii.eqb c "-")) s = true -> extractVersion s = None.
Proof.
  induction s as [|c s IH]; simpl; [done|].
  intros [Hc Hs]%andb_prop. apply negb_true_iff in Hc. rewrite Hc. by apply IH.
Qed.

Lemma trimEnd_newline s :
  every (fun c => negb (isSpace c)) s = true -> trimEnd (s +:+ newline) = s.
Proof.
  induction s as [|c s IH]; simpl; [done|].
  intros [Hc Hs]%andb_prop. apply negb_true_iff in Hc.
  rewrite (IH Hs), Hc. by destruct s.
Qed.

Lemma trim_newline s :
  every (fun c => negb (isSpace c)) s = true -> trim (s +:+ newline) = s.
Proof.
  intros Hs. unfold trim. destruct s as [|c s]; [done|].
  pose proof Hs as Hs'. simpl in Hs'. apply andb_prop in Hs' as [Hc _].
  apply negb_true_iff in Hc.
  change (trimStart (String c s +:+ newline))
    with (if isSpace c then trimStart (s +:+ newline) else String c s +:+ newline).
  rewrite Hc. by apply trimEnd_newline.
Qed.

(** An accepted version is not empty and has neither white space nor a
    dash. *)
Lemma valid_plain v :
  validatePythonVersion v = true ->
  v <> EmptyString
  /\ every (fun c => negb (isSpace c)) v = true
  /\ every (fun c => negb (Ascii.eqb c "-")) v = true.
Proof.
  intros Hv. split; [by intros ->|].
  pose proof (RegexProps.matches_within versionAlphabet v versionRegex
                versionRegex_within Hv) as Hall.
  split; (eapply every_impl; [|exact Hall]); intros c Hc;
    apply versionAlphabet_plain in Hc as [H1 H2]; by rewrite ?H1, ?H2.
Qed.

Section VersionFileProps.
Variable join : string -> string -> string.
Variable workspaceRoot : option string.
Variable requiresPython : string -> option string.

(** C9. For every version string [validatePythonVersion] accepts, with
    or without a patch component: once [updatePythonVersionFile] has
    written it to the pin file of the workspace,
    [getPythonVersionFromFiles] returns that very string, so a version
    with the same major.minor prefix. *)
Theorem version_pin_round_trip v root fs fs' :
  validatePythonVersion v = true ->
  workspaceRoot = Some root -> root <> EmptyString ->
  updatePythonVersionFile join root v fs = Some fs' ->
  getPythonVersionFromFiles join workspaceRoot requiresPython fs' = Some v
  /\ forall r,
       getPythonVersionFromFiles join workspaceRoot requiresPython fs' = Some r ->
       majorMinor r = majorMinor v.
Proof.
  intros Hv Hroot Hne Hwrite.
  destruct (valid_plain v Hv) as (Hv0 & Hspace & Hdash).
  assert (getPythonVersionFromFiles join workspaceRoot requiresPython fs' = Some v)
    as Hget.
  { unfold updatePythonVersionFile, writeFile in Hwrite.
    destruct (decide (join root ".python-version" ∈ locked fs)); [done|].
    injection Hwrite as <-.
    unfold getPythonVersionFromFiles, readFile. rewrite Hroot.
    destruct root as [|c0 root]; [done|]. cbn [files].
    rewrite lookup_insert_eq, (trim_newline v Hspace).
    destruct v as [|c v]; [done|]. by rewrite (extractVersion_none _ Hdash). }
  split; [done|]. intros r Hr. rewrite Hget in Hr. by injection Hr as <-.
Qed.
End VersionFileProps.
End VersionFileProps.

Example validatePythonVersion_accepts :
  map VersionFile.validatePythonVersion
      ["3.11"; "3.11.2"; "3.14.0b2"; "3.12.0rc1"; "3"; "3.11-dev"; " 3.11"; ""]
  = [true; true; true; true; false; false; false; false].
Proof. reflexivity. Qed.

Example extractVersion_toolchain :
  VersionFile.extractVersion "cpython-3.14.0b2-macos-aarch64-none" = Some "3.14.0b2"
  /\ VersionFile.extractVersion "pypy-3.11.11-macos-aarch64-none" = Some "3.11.11"
  /\ VersionFile.extractVersion "3.11.2" = None
  /\ VersionFile.majorMinor "3.11.2" = "3.11"
  /\ VersionFile.majorMinor "3.11" = "3.11".
Proof. repeat split. Qed.

(** Writing ["3.11.2"] into an empty workspace at [/ws]. *)
Lemma version_pin_round_trip_witness :
  let join := fun a b : string => a +:+ "/" +:+ b in
  let fs' := VersionFile.Filesystem
               {[ "/ws/.python-version" := "3.11.2" +:+ Js.newline ]} ∅ in
  VersionFile.getPythonVersionFromFiles join (Some "/ws") (fun _ => None) fs'
  = Some "3.11.2".
Proof.
  intros join fs'.
  refine (proj1 (VersionFileProps.version_pin_round_trip join (Some "/ws")
                   (fun _ => None) "3.11.2" "/ws"
                   (VersionFile.Filesystem ∅ ∅) fs' eq_refl eq_refl _ _)).
  - done.
  - unfold VersionFile.updatePythonVersionFile, VersionFile.writeFile. simpl.
    destruct (decide _) as [Hin|_]; [by apply not_elem_of_empty in Hin|].
    subst fs'. by rewrite insert_empty.
Defined.

(** ** The status aggregator *)

Module StatusBarProps.
Import Js StatusBar.
Local Open Scope js_scope.

(** *** Computations that leave the main item alone *)








Section StatusBarProps.
Variable ex : executor.








(** *** The two handlers *)





(** *** Computations that do not throw *)







End StatusBarProps.
End StatusBarProps.



Example pythonVersionIn_output :
  StatusBar.pythonVersionIn ("Python 3.11.0" +:+ Js.newline) = Some "3.11.0"
  /\ StatusBar.pythonVersionIn "Python 3.11" = None
  /\ StatusBar.pythonVersionIn "CPython 3 / Python 3.12.4rc1" = Some "3.12.4".
Proof. repeat split. Qed.

(** A project with two dependencies and an inactive [.venv]. *)
Example updateStatus_project :
  let ex :=
    StatusBar.Executor
      (fun _ => StatusBar.Returned true)
      (fun _ => StatusBar.Returned true)
      (fun _ => StatusBar.Returned (Some "demo"))
      (fun _ => StatusBar.Returned ["requests"; "rich"])
      (fun _ => StatusBar.Returned [".venv"])
      (fun _ => StatusBar.Returned (Some "3.12"))
      (fun _ => StatusBar.Returned None)
      (fun _ _ => StatusBar.Returned (Executor.Result false "" (Some "failed")))
      (Some "/ws") in
  let w := snd (StatusBar.updateStatus ex freshBars) in
  map (fun b => (StatusBar.text (StatusBar.items w b),
                 StatusBar.visible (StatusBar.items w b)))
      [StatusBar.Main; StatusBar.ProjectInfo; StatusBar.PythonVersion;
       StatusBar.Dependencies; StatusBar.Venv]
  = [("$(check) UV Project", true); ("$(folder) demo", true);
     ("$(python) 3.12", true); ("$(package) 2 deps", true);
     ("$(server-environment) .venv", true)]
  /\ StatusBar.console w = [].
Proof. repeat split. Qed.

(** ** The debounced refresh, in any run *)

Module RefreshProps.
Import Debounce Refresh.
Local Open Scope Z_scope.

Lemma run_app evs1 : forall evs2 st,
  run (evs1 ++ evs2) st
  = match run evs1 st with
    | Some st1 => run evs2 st1
    | None => None
    end.
Proof.
  induction evs1 as [|ev evs1 IH]; intros evs2 st; simpl; [done|].
  destruct (step st ev); [apply IH|done].
Qed.

Lemma settled_pending r st h d :
  settled_for r st -> due h (timeouts st) = Some d ->
  exists t, r = Some t /\ d = t + debounceDelay
            /\ timeouts st = [(h, d)] /\ debounceTimer st = Some h.
Proof.
  destruct r as [t|]; simpl.
  - intros [(h0 & Ht & Hd)|[Ht _]]; rewrite Ht; [|done].
    intros [-> ->]%DebounceProps.due_single. by exists t.
  - intros [Ht _]. by rewrite Ht.
Qed.

Lemma settled_cleared r st :
  settled_for r st ->
  match debounceTimer st with
  | Some h => clearTimeout h (timeouts st)
  | None => timeouts st
  end = [].
Proof.
  destruct r as [t|]; simpl.
  - intros [(h0 & Ht & Hd)|[Ht _]]; rewrite Ht.
    + rewrite Hd. apply DebounceProps.clearTimeout_single.
    + by destruct (debounceTimer st).
  - intros [Ht _]. rewrite Ht. by destruct (debounceTimer st).
Qed.

(** One event keeps the state settled for the latest request, and adds
    at most one refresh or pending timeout for each request. *)
Lemma step_settled r st ev st' (n : nat) :
  settled_for r st ->
  (length (updates st) + length (timeouts st) <= n)%nat ->
  step st ev = Some st' ->
  settled_for (latest_from r [ev]) st'
  /\ (length (updates st') + length (timeouts st') <= n + requests [ev])%nat.
Proof.
  intros Hs Hn. unfold requests. destruct ev as [t|h t]; simpl.
  - destruct (now st <=? t); [|done]. intros [= <-].
    unfold debouncedUpdateStatus, setTimeout. cbn [timeouts debounceTimer updates].
    rewrite (settled_cleared r st Hs). simpl. split; [|lia].
    left. by exists (next_handle st).
  - destruct (due h (timeouts st)) as [d|] eqn:Hdue; [|done].
    destruct (settled_pending r st h d Hs Hdue) as (t0 & -> & -> & Ht & Hd).
    destruct (Z.leb_spec (now st) t); simpl; [|done].
    destruct (Z.leb_spec (t0 + debounceDelay) t); [|done]. intros [= <-].
    unfold timeout. cbn [timeouts debounceTimer updates].
    rewrite Ht in *. rewrite DebounceProps.clearTimeout_single, length_app.
    simpl in *. split; [|lia]. right. split; [done|]. by exists (updates st), t.
Qed.

Lemma latest_from_cons r ev evs :
  latest_from r (ev :: evs) = latest_from (latest_from r [ev]) evs.
Proof. done. Qed.

Lemma run_settled evs : forall r st st' (n : nat),
  settled_for r st ->
  (length (updates st) + length (timeouts st) <= n)%nat ->
  run evs st = Some st' ->
  settled_for (latest_from r evs) st'
  /\ (length (updates st') + length (timeouts st') <= n + requests evs)%nat.
Proof.
  induction evs as [|ev evs IH]; intros r st st' n Hs Hn; simpl.
  - intros [= <-]. split; [done|]. unfold requests. simpl. lia.
  - destruct (step st ev) as [st1|] eqn:Hstep; [|done]. intros Hrun.
    destruct (step_settled r st ev st1 n Hs Hn Hstep) as [Hs1 Hn1].
    destruct (IH _ _ _ _ Hs1 Hn1 Hrun) as [Hs' Hn'].
    split; [done|].
    assert (requests (ev :: evs) = requests [ev] + requests evs)%nat as ->; [|lia].
    unfold requests. simpl. by destruct ev.
Qed.

Lemma init_settled t0 : settled_for None (init t0).
Proof. done. Qed.

(** X1. In every run of the status bar, [updateStatus] is called at most
    once for each call of [debouncedUpdateStatus], and whenever the host
    runs the callback, at least 300 ms have passed since the latest call
    of [debouncedUpdateStatus] before it. *)
Theorem updateStatus_after_quiet_period t0 evs st :
  run evs (init t0) = Some st ->
  (length (updates st) <= requests evs)%nat
  /\ forall pre h u post,
       evs = pre ++ Fire h u :: post ->
       exists r, latest pre = Some r /\ r + debounceDelay <= u.
Proof.
  intros Hrun. split.
  - destruct (run_settled evs None (init t0) st 0 (init_settled t0)) as [_ Hn];
      [simpl; lia|done|lia].
  - intros pre h u post ->. rewrite run_app in Hrun.
    destruct (run pre (init t0)) as [st1|] eqn:Hpre; [|done].
    destruct (run_settled pre None (init t0) st1 0 (init_settled t0)) as [Hs _];
      [simpl; lia|done|].
    simpl in Hrun.
    destruct (due h (timeouts st1)) as [d|] eqn:Hdue; [|done].
    destruct (settled_pending _ st1 h d Hs Hdue) as (t & Hr & -> & _).
    exists t. split; [done|].
    destruct (Z.leb_spec (now st1) u); simpl in Hrun; [|done].
    by destruct (Z.leb_spec (t + debounceDelay) u).
Qed.

(** X2. No request is lost: after any run, either [updateStatus] has run
    after the quiet period of the latest call of [debouncedUpdateStatus],
    or the timeout of that call is pending and the host can run it at any
    time from 300 ms after the call, which calls [updateStatus] and leaves
    no timeout pending. *)
Theorem debouncedUpdateStatus_not_lost t0 evs st r :
  run evs (init t0) = Some st ->
  latest evs = Some r ->
  (exists us u, updates st = us ++ [u] /\ r + debounceDelay <= u)
  \/ (exists h,
        debounceTimer st = Some h
        /\ forall t, now st <= t -> r + debounceDelay <= t ->
             exists st', step st (Fire h t) = Some st'
                         /\ updates st' = updates st ++ [t]
                         /\ timeouts st' = []).
Proof.
  intros Hrun Hr.
  destruct (run_settled evs None (init t0) st 0 (init_settled t0)) as [Hs _];
    [simpl; lia|done|].
  unfold latest in Hr. rewrite Hr in Hs. simpl in Hs.
  destruct Hs as [(h & Ht & Hd)|[_ Hup]]; [right|by left].
  exists h. split; [done|]. intros t Hnow Hquiet.
  exists (Debounce.timeout h t st). simpl. rewrite Ht. unfold due. simpl.
  rewrite Nat.eqb_refl. simpl.
  destruct (Z.leb_spec (now st) t); [|lia].
  destruct (Z.leb_spec (r + debounceDelay) t); [|lia]. simpl.
  done.
Qed.
End RefreshProps.

(** Two file events 100 ms apart and the refresh that follows them. *)
Lemma updateStatus_after_quiet_period_witness :
  exists r, Refresh.latest [Debounce.Request 1000; Debounce.Request 1100] = Some r
            /\ (r + Debounce.debounceDelay <= 1400)%Z.
Proof.
  refine (proj2 (RefreshProps.updateStatus_after_quiet_period 0
                   [Debounce.Request 1000; Debounce.Request 1100;
                    Debounce.Fire 1 1400]
                   _ eq_refl)
                [Debounce.Request 1000; Debounce.Request 1100] 1%nat 1400%Z []
                eq_refl).
Defined.

(** A request at 1000 whose timeout has not run yet. *)
Lemma debouncedUpdateStatus_not_lost_witness :
  exists st',
    Debounce.step (Debounce.debouncedUpdateStatus 1000 (Debounce.init 0))
                  (Debounce.Fire 0 1300) = Some st'
    /\ Debounce.updates st' = [1300%Z]
    /\ Debounce.timeouts st' = [].
Proof.
  destruct (RefreshProps.debouncedUpdateStatus_not_lost 0
              [Debounce.Request 1000] _ 1000%Z eq_refl eq_refl)
    as [(us & u & Hup & _)|(h & Hh & Hfire)].
  - by destruct us.
  - injection Hh as <-. apply Hfire; unfold Debounce.debounceDelay; simpl; lia.
Defined.

(** ** The supervisor, in any run *)

Module SupervisionProps.
Import HttpServer Supervision.
Section SupervisionProps.
Variable win32 : bool.
Variable throws : string -> option string.

#[local] Abbreviation stopServer := (stopServer).
#[local] Abbreviation startServer := (startServer win32 throws).
#[local] Abbreviation tryPython3Fallback := (tryPython3Fallback throws).
#[local] Abbreviation onError := (onError throws).
#[local] Abbreviation step := (step win32 throws).
#[local] Abbreviation run := (run win32 throws).

Lemma supervised_stopped st :
  (forall pid, serverProcess st = Some pid -> pid < length (attempts st)) ->
  Forall (fun pid => pid < length (attempts st)) (killed st) ->
  running st = false -> supervised st.
Proof. intros H1 H2 Hr. split; [done|]. split; [done|]. by rewrite Hr. Qed.

Lemma supervised_show m st : supervised st -> supervised (show m st).
Proof. done. Qed.

Lemma supervised_setTarget f p st : supervised st -> supervised (setTarget f p st).
Proof. done. Qed.

Lemma supervised_halt st : supervised st -> supervised (setRunning false st).
Proof. intros (H1 & H2 & _). by apply supervised_stopped. Qed.

Lemma supervised_spawnThrew a st : supervised st -> running st = false ->
  supervised (spawnThrew a st).
Proof.
  intros (H1 & H2 & _) Hr. apply supervised_stopped; simpl; [| |done].
  - intros pid Hp. rewrite length_app. specialize (H1 pid Hp). lia.
  - eapply Forall_impl; [exact H2|]. intros pid Hp. simpl in Hp. rewrite length_app. simpl. lia.
Qed.

Lemma supervised_spawned a st :
  supervised st -> state a = Live ->
  supervised (setRunning true (spawned a st)).
Proof.
  intros (H1 & H2 & _) Ha. split; [|split]; simpl.
  - intros pid [= <-]. rewrite length_app. simpl. lia.
  - eapply Forall_impl; [exact H2|]. intros pid Hp. simpl in Hp. rewrite length_app. simpl. lia.
  - intros _. exists (length (attempts st)), a. split; [done|]. split.
    + unfold live. simpl. rewrite list_lookup_middle; [|done]. by rewrite Ha.
    + intros Hin. eapply Forall_forall in H2; [|exact Hin]. simpl in H2. lia.
Qed.

Lemma supervised_retire pid st :
  supervised st -> running st = false -> supervised (retire pid st).
Proof.
  intros (H1 & H2 & _) Hr. apply supervised_stopped; simpl; [| |done].
  - intros p Hp. rewrite length_alter. by apply H1.
  - eapply Forall_impl; [exact H2|]. intros p Hp. by rewrite length_alter.
Qed.

Lemma supervised_lengths st :
  supervised st ->
  (forall pid, serverProcess st = Some pid -> pid < length (attempts st))
  /\ Forall (fun pid => pid < length (attempts st)) (killed st).
Proof. by intros (H1 & H2 & _). Qed.

Lemma supervised_stopServer st : supervised st -> supervised (stopServer st).
Proof.
  intros Hs. unfold HttpServer.stopServer.
  destruct (serverProcess st) as [pid|] eqn:Hsp; [|done].
  destruct (running st) eqn:Hr; [|done].
  destruct Hs as (H1 & H2 & _). apply supervised_stopped; simpl; [done| |done].
  apply Forall_app. split; [done|]. constructor; [|done]. by apply H1.
Qed.

(** The bounds of [supervised] do not depend on [running]. *)
Lemma supervised_bounds st st' :
  supervised st ->
  serverProcess st' = serverProcess st -> killed st' = killed st ->
  length (attempts st') = length (attempts st) ->
  running st' = false -> supervised st'.
Proof.
  intros (H1 & H2 & _) Hsp Hk Hl Hr. apply supervised_stopped; [| |done].
  - intros pid. rewrite Hsp, Hl. apply H1.
  - by rewrite Hk, Hl.
Qed.

Lemma bounds_fallback f p st :
  (forall q, serverProcess st = Some q -> q < length (attempts st)) ->
  Forall (fun q => q < length (attempts st)) (killed st) ->
  supervised (snd (tryPython3Fallback f p st)).
Proof.
  intros H1 H2. unfold HttpServer.tryPython3Fallback.
  destruct (throws "python3") as [code|]; simpl.
  - destruct (String.eqb code ENOENT); (apply supervised_stopped; simpl; [| |done]).
    all: try (intros pid Hp; rewrite length_app; specialize (H1 pid Hp); simpl; lia).
    all: eapply Forall_impl; [exact H2|]; intros pid Hp; simpl in Hp;
      rewrite length_app; simpl; lia.
  - split; [|split]; simpl.
    + intros pid [= <-]. rewrite length_app. simpl. lia.
    + eapply Forall_impl; [exact H2|]. intros pid Hp. simpl in Hp.
      rewrite length_app. simpl. lia.
    + intros _. exists (length (attempts st)), (Attempt "python3" p f Fallback Live).
      split; [done|]. split.
      * unfold live. simpl. by rewrite list_lookup_middle.
      * intros Hin. eapply Forall_forall in H2; [|exact Hin]. simpl in H2. lia.
Qed.

Lemma supervised_fallback f p st :
  supervised st -> supervised (snd (tryPython3Fallback f p st)).
Proof. intros (H1 & H2 & _). by apply bounds_fallback. Qed.

Lemma supervised_startServer f p st :
  supervised st -> supervised (snd (startServer f p st)).
Proof.
  intros Hs. unfold HttpServer.startServer.
  destruct (running st) eqn:Hr; [done|].
  destruct (throws (if win32 then "python" else "python3")) as [code|]; simpl.
  - assert (supervised (spawnThrew
              (Attempt (if win32 then "python" else "python3") p f
                 (Primary (if win32 then "python" else "python3")) Threw)
              (setTarget f p st))) as Hs1.
    { by apply supervised_spawnThrew. }
    destruct (String.eqb code ENOENT
              && String.eqb (if win32 then "python" else "python3") "python").
    + by apply supervised_fallback.
    + simpl. by apply supervised_halt, supervised_show.
  - by apply (supervised_spawned
                (Attempt (if win32 then "python" else "python3") p f
                   (Primary (if win32 then "python" else "python3")) Live)).
Qed.

(** Retiring a child while the manager is marked running or not: the
    bounds are kept, and the guarantee on the held child is given up until
    [running] is set again. *)
Lemma retire_bounds pid st :
  supervised st ->
  (forall p, serverProcess (retire pid st) = Some p ->
             p < length (attempts (retire pid st)))
  /\ Forall (fun p => p < length (attempts (retire pid st))) (killed (retire pid st)).
Proof.
  intros (H1 & H2 & _). simpl. split.
  - intros p Hp. rewrite length_alter. by apply H1.
  - eapply Forall_impl; [exact H2|]. intros p Hp. by rewrite length_alter.
Qed.

Lemma supervised_step st ev : supervised st -> supervised (step st ev).
Proof.
  intros Hs. destruct ev as [f p| |pid code|pid|pid data]; simpl.
  - by apply supervised_startServer.
  - by apply supervised_stopServer.
  - destruct (live pid st) as [a|]; [|done].
    destruct (retire_bounds pid st Hs) as [H1 H2].
    unfold HttpServer.onError. destruct (handlers a) as [pythonCmd|].
    + destruct (String.eqb code ENOENT && String.eqb pythonCmd "python3").
      { by apply supervised_stopped. }
      destruct (String.eqb code ENOENT && String.eqb pythonCmd "python").
      { by apply bounds_fallback. }
      by apply supervised_stopped.
    + apply supervised_stopped; [| |done]; by destruct (String.eqb code ENOENT).
  - destruct (live pid st) as [a|]; [|done].
    destruct (retire_bounds pid st Hs) as [H1 H2].
    by apply supervised_stopped.
  - destruct (live pid st) as [a|]; [|done]. unfold onStderr.
    destruct (Js.includes _ data); [by apply supervised_stopServer|].
    by destruct (Js.includes _ _).
Qed.

Lemma supervised_run evs : forall st, supervised st -> supervised (run evs st).
Proof.
  induction evs as [|ev evs IH]; intros st Hs; [done|].
  simpl. by apply IH, supervised_step.
Qed.

Lemma supervised_init : supervised init.
Proof. by apply supervised_stopped. Qed.

(** X3. In every run of the supervisor, while [isRunning()] is true the
    process it holds is a child it spawned that has emitted neither
    ['error'] nor ['exit'], and not one that [stopServer] has killed. *)
Theorem running_holds_live_child evs :
  running (run evs init) = true ->
  exists pid a,
    serverProcess (run evs init) = Some pid
    /\ attempts (run evs init) !! pid = Some a
    /\ state a = Live
    /\ pid ∉ killed (run evs init).
Proof.
  intros Hr. destruct (supervised_run evs init supervised_init) as (_ & _ & H3).
  destruct (H3 Hr) as (pid & a & Hsp & Hlive & Hk).
  unfold live in Hlive.
  destruct (attempts (run evs init) !! pid) as [a'|] eqn:Ha; [|done].
  destruct (state a') eqn:Hst; try done. injection Hlive as ->.
  by exists pid, a.
Qed.

(** X4. No call and no event of a child changes what [isRunning()],
    [getPort()] and [getFolder()] return, or the process the supervisor
    holds, without firing [onStatusChanged], on which the status bar
    redraws its HTTP item. *)
Theorem status_change_fires st ev :
  shown (step st ev) <> shown st -> fired st < fired (step st ev).
Proof.
  assert (forall f p s, fired s < fired (snd (tryPython3Fallback f p s))) as Hfb.
  { intros f p s. unfold HttpServer.tryPython3Fallback.
    destruct (throws "python3") as [code'|]; simpl; [|lia].
    destruct (String.eqb code' ENOENT); simpl; lia. }
  unfold shown. destruct ev as [f p| |pid code|pid|pid data]; simpl.
  - unfold HttpServer.startServer. destruct (running st) eqn:Hr.
    { simpl. rewrite Hr. intros Hne. by destruct Hne. }
    intros _.
    destruct (throws (if win32 then "python" else "python3")) as [code|]; simpl;
      [|lia].
    destruct (String.eqb code ENOENT
              && String.eqb (if win32 then "python" else "python3") "python").
    + eapply Nat.le_lt_trans; [|apply Hfb]. simpl. lia.
    + simpl. lia.
  - unfold HttpServer.stopServer.
    destruct (serverProcess st) eqn:Hsp; [destruct (running st) eqn:Hr|]; simpl;
      rewrite ?Hsp, ?Hr; first [lia | intros Hne; by destruct Hne].
  - destruct (live pid st) as [a|]; [|intros Hne; by destruct Hne]. intros _.
    unfold HttpServer.onError. destruct (handlers a) as [pythonCmd|].
    + destruct (String.eqb code ENOENT && String.eqb pythonCmd "python3");
        [simpl; lia|].
      destruct (String.eqb code ENOENT && String.eqb pythonCmd "python");
        [|simpl; lia].
      eapply Nat.le_lt_trans; [|apply Hfb]. simpl. lia.
    + destruct (String.eqb code ENOENT); simpl; lia.
  - destruct (live pid st) as [a|]; [|intros Hne; by destruct Hne]. simpl. lia.
  - destruct (live pid st) as [a|]; [|intros Hne; by destruct Hne]. unfold onStderr.
    destruct (Js.includes _ data).
    + unfold HttpServer.stopServer. simpl.
      destruct (serverProcess st) eqn:Hsp; [destruct (running st) eqn:Hr|]; simpl;
        rewrite ?Hsp, ?Hr; first [lia | intros Hne; by destruct Hne].
    + destruct (Js.includes _ _); intros Hne; by destruct Hne.
Qed.

(** X5. In every run, [stopServer()] leaves the supervisor stopped.  If
    it was running, exactly the child it held is killed, the held process
    is cleared and ['HTTP server stopped.'] is shown; if not, nothing is
    killed and the warning is shown.  A second [stopServer()] in a row
    only adds the warning. *)
Theorem stopServer_stops evs :
  let st := run evs init in
  let st1 := stopServer st in
  running st1 = false
  /\ (if running st
      then exists pid, serverProcess st = Some pid
                       /\ killed st1 = killed st ++ [pid]
                       /\ serverProcess st1 = None
                       /\ messages st1 = messages st ++ [Stopped]
      else killed st1 = killed st
           /\ fired st1 = fired st
           /\ messages st1 = messages st ++ [NotRunning])
  /\ stopServer st1 = show NotRunning st1.
Proof.
  intros st st1. subst st1.
  destruct (supervised_run evs init supervised_init) as (_ & _ & H3).
  fold st in H3. unfold HttpServer.stopServer.
  destruct (running st) eqn:Hr.
  - destruct (H3 eq_refl) as (pid & a & Hsp & _). rewrite Hsp. simpl.
    split; [done|]. split; [|done]. by exists pid.
  - destruct (serverProcess st) eqn:Hsp; simpl; rewrite ?Hsp, ?Hr; done.
Qed.
End SupervisionProps.
End SupervisionProps.

(** A server started on Windows, whose ['python'] is missing and whose
    ['python3'] child runs. *)
Lemma running_holds_live_child_witness :
  let st := HttpServer.run true (fun _ => None)
              [HttpServer.StartServer "/ws" 8000;
               HttpServer.ChildError 0 HttpServer.ENOENT]
              HttpServer.init in
  exists pid a,
    HttpServer.serverProcess st = Some pid
    /\ HttpServer.attempts st !! pid = Some a
    /\ HttpServer.state a = HttpServer.Live
    /\ pid ∉ HttpServer.killed st.
Proof.
  intros st.
  exact (SupervisionProps.running_holds_live_child true (fun _ => None)
           [HttpServer.StartServer "/ws" 8000;
            HttpServer.ChildError 0 HttpServer.ENOENT]
           eq_refl).
Defined.

(** The exit of the child of a running server. *)
Lemma status_change_fires_witness :
  let st := HttpServer.run false (fun _ => None)
              [HttpServer.StartServer "/ws" 8000] HttpServer.init in
  HttpServer.fired st
  < HttpServer.fired (HttpServer.step false (fun _ => None) st (HttpServer.ChildExit 0)).
Proof.
  intros st.
  apply (SupervisionProps.status_change_fires false (fun _ => None) st
           (HttpServer.ChildExit 0)).
  vm_compute. congruence.
Defined.

(** ** Strings and patterns *)

Module TextProps.
Import Js Regex Text.

Lemma append_cons c s t : String c s +:+ t = String c (s +:+ t).
Proof. done. Qed.

Lemma append_nil_l s : "" +:+ s = s.
Proof. done. Qed.

Lemma append_nil_r s : s +:+ "" = s.
Proof. induction s as [|c s IH]; [done|]. by rewrite append_cons, IH. Qed.

Lemma append_assoc a b c : (a +:+ b) +:+ c = a +:+ (b +:+ c).
Proof. induction a as [|x a IH]; [done|]. by rewrite !append_cons, IH. Qed.

Lemma every_app p a b : every p (a +:+ b) = every p a && every p b.
Proof.
  induction a as [|c a IH]; [done|]. rewrite append_cons. simpl. rewrite IH.
  by destruct (p c).
Qed.

(** [span] splits the string, and its first part is in the class. *)
Lemma span_spec p s a b :
  span p s = (a, b) -> s = a +:+ b /\ every p a = true.
Proof.
  revert a b. induction s as [|c s IH]; intros a b; simpl.
  - by intros [= <- <-].
  - destruct (p c) eqn:Hc.
    + destruct (span p s) as [a' b'] eqn:Hs. intros [= <- <-].
      destruct (IH a' b' eq_refl) as [-> Ha]. rewrite append_cons. simpl.
      by rewrite Hc.
    + by intros [= <- <-].
Qed.

(** A run of the class followed by nothing or by a character outside the
    class is what [span] takes. *)
Lemma span_app p a b :
  every p a = true ->
  match b with String c _ => p c = false | EmptyString => True end ->
  span p (a +:+ b) = (a, b).
Proof.
  intros Ha Hb. induction a as [|c a IH].
  - rewrite append_nil_l. destruct b as [|c b]; [done|]. simpl. by rewrite Hb.
  - simpl in Ha. apply andb_prop in Ha as [Hc Ha]. rewrite append_cons. simpl.
    by rewrite Hc, (IH Ha).
Qed.

Lemma trimStart_plain s :
  every isNonSpace s = true -> trimStart s = s.
Proof.
  destruct s as [|c s]; simpl; [done|]. unfold isNonSpace.
  intros [Hc _]%andb_prop. apply negb_true_iff in Hc. by rewrite Hc.
Qed.

Lemma trimEnd_plain s :
  every isNonSpace s = true -> trimEnd s = s.
Proof.
  induction s as [|c s IH]; simpl; [done|]. unfold isNonSpace at 1.
  intros [Hc Hs]%andb_prop. apply negb_true_iff in Hc.
  rewrite (IH Hs), Hc. by destruct s.
Qed.

Lemma trim_plain s : every isNonSpace s = true -> trim s = s.
Proof.
  intros Hs. unfold trim. by rewrite (trimStart_plain s Hs), trimEnd_plain.
Qed.

Lemma removeFirst_absent c s :
  every (fun d => negb (Ascii.eqb d c)) s = true -> removeFirst c s = s.
Proof.
  induction s as [|d s IH]; simpl; [done|].
  intros [Hd Hs]%andb_prop. apply negb_true_iff in Hd. by rewrite Hd, IH.
Qed.

Lemma removeFirst_last c s :
  every (fun d => negb (Ascii.eqb d c)) s = true ->
  removeFirst c (s +:+ String c "") = s.
Proof.
  induction s as [|d s IH]; rewrite ?append_cons, ?append_nil_l; simpl.
  - by rewrite Ascii.eqb_refl.
  - intros [Hd Hs]%andb_prop. apply negb_true_iff in Hd. by rewrite Hd, IH.
Qed.

(** Splitting at a separator a string that does not hold it. *)
Lemma splitOn_plain sep s :
  every (fun d => negb (Ascii.eqb d sep)) s = true -> splitOn sep s = [s].
Proof.
  induction s as [|d s IH]; simpl; [done|].
  intros [Hd Hs]%andb_prop. apply negb_true_iff in Hd. by rewrite Hd, IH.
Qed.

Lemma splitOn_cons sep s rest :
  every (fun d => negb (Ascii.eqb d sep)) s = true ->
  splitOn sep (s +:+ String sep rest) = s :: splitOn sep rest.
Proof.
  induction s as [|d s IH]; rewrite ?append_cons, ?append_nil_l; simpl.
  - by rewrite Ascii.eqb_refl.
  - intros [Hd Hs]%andb_prop. apply negb_true_iff in Hd. by rewrite Hd, IH.
Qed.

(** Splitting what was joined gives the pieces back. *)
Lemma splitOn_concat sep l ls :
  Forall (fun s => every (fun d => negb (Ascii.eqb d sep)) s = true) (l :: ls) ->
  splitOn sep (String.concat (String sep "") (l :: ls)) = l :: ls.
Proof.
  revert l. induction ls as [|l' ls IH]; intros l Hall.
  - simpl. apply splitOn_plain. by inversion Hall.
  - inversion Hall as [|? ? Hl Hrest]; subst.
    change (String.concat (String sep "") (l :: l' :: ls))
      with (l +:+ String sep (String.concat (String sep "") (l' :: ls))).
    by rewrite (splitOn_cons sep l _ Hl), (IH l' Hrest).
Qed.


Lemma stripPrefix_spec p s rest : stripPrefix p s = Some rest -> s = p +:+ rest.
Proof.
  revert s. induction p as [|a p IH]; intros s; simpl.
  - by intros [= ->].
  - destruct s as [|b s]; [done|]. destruct (Ascii.eqb_spec a b) as [->|]; [|done].
    intros Hs. by rewrite append_cons, <- (IH s Hs).
Qed.

(** *** What the patterns match *)

Lemma matches_Alt s : forall r1 r2,
  matches (Alt r1 r2) s = matches r1 s || matches r2 s.
Proof. induction s as [|c s IH]; intros r1 r2; simpl; [done|]. apply IH. Qed.

Lemma matches_Void s : matches Void s = false.
Proof. by apply RegexProps.void_matches. Qed.

Lemma matches_Eps s : matches Eps s = true <-> s = "".
Proof.
  destruct s as [|c s]; simpl; [done|]. by rewrite matches_Void.
Qed.

Lemma matches_Seq s : forall r1 r2,
  matches (Seq r1 r2) s = true
  <-> exists s1 s2, s = s1 +:+ s2 /\ matches r1 s1 = true /\ matches r2 s2 = true.
Proof.
  induction s as [|c s IH]; intros r1 r2; simpl.
  - rewrite andb_true_iff. split.
    + intros [H1 H2]. by exists "", "".
    + intros (s1 & s2 & Hs & H1 & H2).
      destruct s1; [|done]. destruct s2; [|done]. done.
  - rewrite matches_Alt, orb_true_iff, IH. split.
    + intros [(s1 & s2 & -> & H1 & H2)|Hn].
      * by exists (String c s1), s2.
      * destruct (nullable r1) eqn:Hnull; [|by rewrite matches_Void in Hn].
        by exists "", (String c s).
    + intros (s1 & s2 & Hs & H1 & H2). destruct s1 as [|c1 s1].
      * right. rewrite append_nil_l in Hs. subst s2. simpl in H1. by rewrite H1.
      * left. rewrite append_cons in Hs. injection Hs as <- ->. by exists s1, s2.
Qed.

Lemma matches_Class p s :
  matches (Class p) s = true <-> exists c, s = String c "" /\ p c = true.
Proof.
  destruct s as [|c s]; simpl.
  - split; [done|]. by intros (c & ? & _).
  - destruct (p c) eqn:Hc.
    + rewrite matches_Eps. split.
      * intros ->. by exists c.
      * by intros (c' & [= <- ->] & _).
    + rewrite matches_Void. split; [done|].
      intros (c' & [= <- ->] & Hc'). congruence.
Qed.

Lemma matches_Seq_Eps r s : matches (Seq Eps r) s = matches r s.
Proof.
  destruct s as [|c s]; simpl; [done|].
  by rewrite matches_Alt, (RegexProps.void_matches s (Seq Void r)).
Qed.

(** [[class]*] *)
Lemma matches_Star_Class p s : matches (Star (Class p)) s = every p s.
Proof.
  induction s as [|c s IH]; simpl; [done|].
  destruct (p c) eqn:Hc; simpl.
  - by rewrite matches_Seq_Eps.
  - by apply RegexProps.void_matches.
Qed.

(** [[class]+] *)
Lemma matches_plus_Class p s :
  matches (plus (Class p)) s = true <-> s <> "" /\ every p s = true.
Proof.
  unfold plus. rewrite matches_Seq. split.
  - intros (s1 & s2 & -> & H1 & H2).
    apply matches_Class in H1 as (c & -> & Hc).
    rewrite matches_Star_Class in H2. rewrite append_cons, append_nil_l. simpl.
    by rewrite Hc, H2.
  - intros [Hne Hs]. destruct s as [|c s]; [done|]. simpl in Hs.
    apply andb_prop in Hs as [Hc Hs]. exists (String c ""), s.
    split; [done|]. split.
    + apply matches_Class. by exists c.
    + by rewrite matches_Star_Class.
Qed.

Lemma matches_lit c s : matches (lit c) s = true <-> s = String c "".
Proof.
  unfold lit. rewrite matches_Class. split.
  - intros (d & -> & Hd). apply Ascii.eqb_eq in Hd. by subst.
  - intros ->. exists c. by rewrite Ascii.eqb_refl.
Qed.

(** An optional part. *)
Lemma matches_opt r s : matches (opt r) s = true <-> matches r s = true \/ s = "".
Proof. unfold opt. by rewrite matches_Alt, orb_true_iff, matches_Eps. Qed.
End TextProps.

(** ** Interpreter listings *)

Module ToolchainsProps.
Import Js Regex Text Executor VersionFile Toolchains TextProps.

(** The characters of a release number. *)
#[local] Abbreviation isReleaseChar := (fun c => isDigit c || Ascii.eqb c ".").

Lemma releaseRegex_within : within isReleaseChar releaseRegex.
Proof.
  unfold releaseRegex, plus, lit. simpl.
  repeat split; intros [[] [] [] [] [] [] [] []]; by vm_compute.
Qed.

Lemma releaseChar_plain c :
  isReleaseChar c = true ->
  isNonSpace c = true
  /\ negb (Ascii.eqb c "*") = true
  /\ negb (Ascii.eqb c lineFeed) = true.
Proof. destruct c as [[] [] [] [] [] [] [] []]; by vm_compute. Qed.

Lemma release_plain v :
  matches releaseRegex v = true ->
  every isNonSpace v = true
  /\ every (fun c => negb (Ascii.eqb c "*")) v = true
  /\ every (fun c => negb (Ascii.eqb c lineFeed)) v = true.
Proof.
  intros Hv.
  pose proof (RegexProps.matches_within _ v releaseRegex releaseRegex_within Hv)
    as Hall.
  repeat split; (eapply VersionFileProps.every_impl; [|exact Hall]);
    intros c Hc; by apply releaseChar_plain in Hc as (? & ? & ?).
Qed.

Lemma filter_all {A} (p : A -> bool) l :
  Forall (fun x => p x = true) l -> List.filter p l = l.
Proof.
  induction 1 as [|x l Hx _ IH]; simpl; [done|]. by rewrite Hx, IH.
Qed.

Lemma listed_clean e :
  matches releaseRegex (fst e) = true ->
  trim (removeFirst "*" (listed e)) = fst e
  /\ every (fun c => negb (Ascii.eqb c lineFeed)) (listed e) = true.
Proof.
  intros Hv. destruct (release_plain _ Hv) as (Hsp & Hstar & Hnl).
  unfold listed. destruct (snd e).
  - rewrite (removeFirst_last "*" _ Hstar), (trim_plain _ Hsp).
    by rewrite every_app, Hnl.
  - by rewrite (removeFirst_absent "*" _ Hstar), (trim_plain _ Hsp).
Qed.

Lemma listInstalled_listed (entries : list (string * bool)) err :
  Forall (fun e => matches releaseRegex (fst e) = true) entries ->
  listInstalledPythonVersions
    (Result true (String.concat newline (map listed entries)) err)
  = map fst entries.
Proof.
  intros Hall. unfold listInstalledPythonVersions, lines. cbn [success output].
  destruct entries as [|e entries]; [done|].
  assert (Forall (fun v => matches releaseRegex v = true) (map fst (e :: entries)))
    as Hvs.
  { apply Forall_map. exact Hall. }
  unfold newline. cbn [map]. rewrite (splitOn_concat lineFeed).
  - change (listed e :: map listed entries) with (map listed (e :: entries)).
    rewrite map_map.
    rewrite (map_ext_Forall _ fst).
    + by apply filter_all.
    + eapply Forall_impl; [exact Hall|]. intros x Hx.
      by destruct (listed_clean x Hx).
  - change (listed e :: map listed entries) with (map listed (e :: entries)).
    apply Forall_map. eapply Forall_impl; [exact Hall|]. intros x Hx.
    by destruct (listed_clean x Hx).
Qed.

(** X6. The listing of installed versions is read back as written: for
    release numbers [X.Y.Z], one on a line, the active one followed by an
    asterisk, [listInstalledPythonVersions] returns the release numbers,
    in order and without the asterisk; and [listAllPythonVersions] returns
    the release numbers of a listing without marks. *)
Theorem listInstalledPythonVersions_round_trip (entries : list (string * bool)) err :
  Forall (fun e => matches releaseRegex (fst e) = true) entries ->
  listInstalledPythonVersions
    (Result true (String.concat newline (map listed entries)) err)
  = map fst entries
  /\ listAllPythonVersions
       (Result true (String.concat newline (map fst entries)) err)
     = map fst entries.
Proof.
  intros Hall. split; [by apply listInstalled_listed|].
  unfold listAllPythonVersions, lines. cbn [success output].
  destruct entries as [|e entries]; [done|].
  assert (Forall (fun v => matches releaseRegex v = true) (map fst (e :: entries)))
    as Hvs.
  { apply Forall_map. exact Hall. }
  unfold newline. cbn [map]. rewrite (splitOn_concat lineFeed).
  - change (fst e :: map fst entries) with (map fst (e :: entries)).
    rewrite (map_ext_Forall _ (fun v => v)).
    + rewrite map_id. by apply filter_all.
    + eapply Forall_impl; [exact Hvs|]. intros v Hv.
      destruct (release_plain v Hv) as (Hsp & _). by apply trim_plain.
  - eapply Forall_impl; [exact Hvs|]. intros v Hv.
    by destruct (release_plain v Hv) as (_ & _ & ?).
Qed.

(** *** Lines of [uv python list --all-arches] *)

Lemma archLine_word line id right' :
  archLine line = Some (id, right') ->
  id <> "" /\ every isNonSpace id = true.
Proof.
  unfold archLine.
  destruct (span isNonSpace line) as [word rest] eqn:Hspan.
  destruct (span_spec _ _ _ _ Hspan) as [_ Hword].
  destruct word as [|c word]; [done|].
  destruct (span isSpace rest) as [gap rest'].
  destruct gap as [|g gap]; [done|].
  destruct rest' as [|r rest'].
  - destruct (lastChar (String g gap)); [|done].
    destruct (_ && _); [|done]. by intros [= <- _].
  - destruct (_ || _); [|done]. by intros [= <- _].
Qed.

Lemma archOf_spec line v :
  In v (archOf line) ->
  exists right',
    archLine line = Some (id v, right')
    /\ version v = versionOf (id v)
    /\ (isInstalled v = true -> right' <> downloadAvailable
                                /\ path v = Some right')
    /\ (isInstalled v = false -> right' = downloadAvailable).
Proof.
  unfold archOf. destruct (archLine line) as [[i r]|]; [|done].
  destruct (String.eqb_spec r downloadAvailable) as [->|Hne].
  - intros [<-|[]]. by exists downloadAvailable.
  - intros [<-|[]]. exists r. by repeat split.
Qed.

Lemma listAllPythonArches_spec result v :
  In v (listAllPythonArches result) ->
  exists line right',
    In line (map trim (lines (output result)))
    /\ archLine line = Some (id v, right')
    /\ version v = versionOf (id v)
    /\ (isInstalled v = true -> right' <> downloadAvailable
                                /\ path v = Some right')
    /\ (isInstalled v = false -> right' = downloadAvailable).
Proof.
  unfold listAllPythonArches. destruct (success result); [|done].
  intros (line & Hline & Hv)%in_flat_map.
  apply filter_In in Hline as [Hline _].
  destruct (archOf_spec line v Hv) as (r & ?). by exists line, r.
Qed.

Lemma findToolchainForVersion_Some arches version i :
  findToolchainForVersion arches version = Some i ->
  exists v, In v arches /\ id v = i /\ isInstalled v = true
            /\ String.prefix (majorMinor version) (Toolchains.version v) = true.
Proof.
  unfold findToolchainForVersion.
  destruct (List.find _ arches) as [v|] eqn:Hfind; [|done].
  intros [= <-]. apply find_some in Hfind as [Hin [H1 H2]%andb_prop].
  by exists v.
Qed.

(** X7. [findToolchainForVersion] only returns a toolchain that the
    listing gives with a path, never one that is only available for
    download: its identifier is the first word of a line whose second
    column is not [<download available>], and the version in the
    identifier starts with the major.minor of the version asked for.
    When it returns [null], no toolchain of the listing is installed with
    such a version. *)
Theorem findToolchainForVersion_installed result version :
  match findToolchainForVersion (listAllPythonArches result) version with
  | Some i =>
      exists line path,
        In line (map trim (lines (output result)))
        /\ archLine line = Some (i, path)
        /\ path <> downloadAvailable
        /\ String.prefix (majorMinor version) (versionOf i) = true
  | None =>
      forall v, In v (listAllPythonArches result) -> isInstalled v = true ->
        String.prefix (majorMinor version) (Toolchains.version v) = false
  end.
Proof.
  destruct (findToolchainForVersion _ version) as [i|] eqn:Hfind.
  - apply findToolchainForVersion_Some in Hfind as (v & Hin & <- & Hinst & Hpre).
    destruct (listAllPythonArches_spec result v Hin)
      as (line & r & Hline & Harch & Hver & Hyes & _).
    exists line, r. rewrite <- Hver. by destruct (Hyes Hinst).
  - unfold findToolchainForVersion in Hfind.
    destruct (List.find _ _) eqn:Hnone; [done|].
    intros v Hin Hinst. pose proof (find_none _ _ Hnone v Hin) as Hv.
    simpl in Hv. by rewrite Hinst in Hv.
Qed.

Lemma includes_absent c s :
  every (fun d => negb (Ascii.eqb d c)) s = true ->
  includes (String c "") s = false.
Proof.
  induction s as [|d s IH]; [done|]. intros H. simpl in H.
  apply andb_prop in H as [Hd Hs]. apply negb_true_iff in Hd.
  cbn [includes String.prefix].
  destruct (ascii_dec c d) as [->|_]; [by rewrite Ascii.eqb_refl in Hd|].
  by apply IH.
Qed.

Lemma includes_last c s : includes (String c "") (s +:+ String c "") = true.
Proof.
  induction s as [|d s IH].
  - rewrite append_nil_l. cbn [includes String.prefix].
    by destruct (ascii_dec c c).
  - rewrite append_cons. cbn [includes String.prefix].
    destruct (ascii_dec c d); [by destruct (s +:+ String c "")|done].
Qed.

Lemma firstWord_plain s :
  s <> "" -> every isNonSpace s = true -> firstWord s = Some s.
Proof.
  intros Hne Hs. unfold firstWord.
  rewrite <- (append_nil_r s) at 1. rewrite (span_app isNonSpace s "" Hs I).
  by destruct s.
Qed.

Lemma activeLine_listed entries :
  Forall (fun e => matches releaseRegex (fst e) = true) entries ->
  activeLine (map listed entries)
  = match List.find snd entries with
    | Some e => Some (fst e +:+ "*")
    | None => None
    end.
Proof.
  induction 1 as [|e entries He _ IH]; [done|].
  destruct (release_plain _ He) as (Hsp & Hstar & _).
  cbn [map activeLine List.find]. unfold listed at 1 2.
  destruct (snd e).
  - rewrite includes_last, firstWord_plain; [done| |].
    + by destruct (fst e).
    + by rewrite every_app, Hsp.
  - by rewrite (includes_absent "*" _ Hstar).
Qed.

(** X21. On the listing [listInstalledPythonVersions] reads (release
    numbers, the active one followed by an asterisk),
    [getCurrentPythonToolchain] returns the first marked entry with its
    asterisk, which [listInstalledPythonVersions] removes: the identifier
    it reports is not one of the versions of the listing.  It reports
    nothing when no entry is marked. *)
Theorem getCurrentPythonToolchain_keeps_mark (entries : list (string * bool))
    result err :
  Forall (fun e => matches releaseRegex (fst e) = true) entries ->
  success result = true ->
  getCurrentPythonToolchain result
    (Result true (String.concat newline (map listed entries)) err)
  = match List.find snd entries with
    | Some e => Some (fst e +:+ "*")
    | None => None
    end
  /\ forall i,
       getCurrentPythonToolchain result
         (Result true (String.concat newline (map listed entries)) err) = Some i ->
       ~ In i (listInstalledPythonVersions
                 (Result true (String.concat newline (map listed entries)) err)).
Proof.
  intros Hall Hok.
  assert (getCurrentPythonToolchain result
            (Result true (String.concat newline (map listed entries)) err)
          = match List.find snd entries with
            | Some e => Some (fst e +:+ "*")
            | None => None
            end) as Hget.
  { unfold getCurrentPythonToolchain, lines. rewrite Hok. cbn [success output].
    destruct entries as [|e entries]; [done|].
    unfold newline. cbn [map]. rewrite (splitOn_concat lineFeed).
    - by apply (activeLine_listed (e :: entries)).
    - change (listed e :: map listed entries) with (map listed (e :: entries)).
      apply Forall_map. eapply Forall_impl; [exact Hall|]. intros x Hx.
      by destruct (listed_clean x Hx). }
  split; [done|]. intros i Hi. rewrite Hget in Hi.
  rewrite (listInstalled_listed entries err Hall).
  destruct (List.find snd entries) as [e|]; [|done]. injection Hi as <-.
  intros (x & Hx & Hin)%in_map_iff.
  apply list_elem_of_In in Hin. eapply Forall_forall in Hall; [|exact Hin].
  destruct (release_plain _ Hall) as (_ & Hstar & _).
  rewrite Hx, every_app in Hstar. simpl in Hstar.
  by rewrite andb_false_r in Hstar.
Qed.

Section Pin.
Variable join : string -> string -> string.
Variable requiresPython : string -> option string.

(** X8. The pin of a toolchain is read back as its version: when
    [findToolchainForVersion] finds a toolchain in the listing and
    [updatePythonVersionFile] writes its identifier to the pin file, as
    [switchProjectPythonVersion] does, [getPythonVersionFromFiles]
    returns the version in that identifier, which starts with the
    major.minor of the version asked for. *)
Theorem toolchain_pin_round_trip result version i root fs fs' :
  root <> "" ->
  findToolchainForVersion (listAllPythonArches result) version = Some i ->
  updatePythonVersionFile join root i fs = Some fs' ->
  getPythonVersionFromFiles join (Some root) requiresPython fs'
  = Some (versionOf i)
  /\ String.prefix (majorMinor version) (versionOf i) = true.
Proof.
  intros Hroot Hfind Hwrite.
  apply findToolchainForVersion_Some in Hfind as (v & Hin & <- & Hinst & Hpre).
  destruct (listAllPythonArches_spec result v Hin)
    as (line & r & _ & Harch & Hver & _).
  destruct (archLine_word _ _ _ Harch) as [Hne Hplain].
  rewrite <- Hver. split; [|done].
  unfold updatePythonVersionFile, writeFile in Hwrite.
  destruct (decide (join root ".python-version" ∈ locked fs)); [done|].
  injection Hwrite as <-.
  unfold getPythonVersionFromFiles, readFile.
  destruct root as [|c0 root]; [done|]. cbn [files].
  rewrite lookup_insert_eq, (VersionFileProps.trim_newline (id v) Hplain).
  destruct (id v) as [|c s] eqn:Hid; [done|]. rewrite Hver.
  unfold versionOf. by destruct (extractVersion (String c s)).
Qed.
End Pin.
End ToolchainsProps.

(** The listing of the comment in the source. *)
Lemma listInstalledPythonVersions_round_trip_witness :
  Toolchains.listInstalledPythonVersions
    (Executor.Result true
       ("3.11.0*" +:+ Js.newline +:+ "3.10.8" +:+ Js.newline +:+ "3.9.13") None)
  = ["3.11.0"; "3.10.8"; "3.9.13"].
Proof.
  refine (proj1 (ToolchainsProps.listInstalledPythonVersions_round_trip
                   [("3.11.0", true); ("3.10.8", false); ("3.9.13", false)]
                   None _)).
  repeat constructor.
Defined.

Example listAllPythonArches_listing :
  Toolchains.listAllPythonArches
    (Executor.Result true
       ("cpython-3.13.0-linux-x86_64-gnu    <download available>" +:+ Js.newline
        +:+ "cpython-3.12.1-linux-x86_64-gnu    /usr/bin/python3.12" +:+ Js.newline
        +:+ "  pypy-3.10.14-linux-x86_64-gnu  /opt/pypy/bin/pypy3 -> pypy3.10  "
        +:+ Js.newline +:+ "unparsed" +:+ Js.newline)
       None)
  = [ Toolchains.Arch "cpython-3.13.0-linux-x86_64-gnu" "3.13.0"
        Toolchains.Available None;
      Toolchains.Arch "cpython-3.12.1-linux-x86_64-gnu" "3.12.1"
        Toolchains.Installed (Some "/usr/bin/python3.12");
      Toolchains.Arch "pypy-3.10.14-linux-x86_64-gnu" "3.10.14"
        Toolchains.Installed (Some "/opt/pypy/bin/pypy3 -> pypy3.10") ].
Proof. reflexivity. Qed.

(** A listing with 3.13 to download and 3.12 installed, 3.12 asked for,
    in an empty workspace at [/ws]. *)
Lemma toolchain_pin_round_trip_witness :
  let join := fun a b : string => a +:+ "/" +:+ b in
  let fs' := VersionFile.Filesystem
               {[ "/ws/.python-version"
                  := "cpython-3.12.1-linux-x86_64-gnu" +:+ Js.newline ]} ∅ in
  VersionFile.getPythonVersionFromFiles join (Some "/ws") (fun _ => None) fs'
  = Some "3.12.1".
Proof.
  intros join fs'.
  refine (proj1 (ToolchainsProps.toolchain_pin_round_trip join (fun _ => None)
                   (Executor.Result true
                      ("cpython-3.13.0-linux-x86_64-gnu    <download available>"
                       +:+ Js.newline
                       +:+ "cpython-3.12.1-linux-x86_64-gnu    /usr/bin/python3.12")
                      None)
                   "3.12" "cpython-3.12.1-linux-x86_64-gnu" "/ws"
                   (VersionFile.Filesystem ∅ ∅) fs' _ eq_refl _)).
  - done.
  - unfold VersionFile.updatePythonVersionFile, VersionFile.writeFile. simpl.
    destruct (decide _) as [Hin|_]; [by apply not_elem_of_empty in Hin|].
    subst fs'. by rewrite insert_empty.
Defined.

(** The listing of the comment in the source, read by the two methods. *)
Lemma getCurrentPythonToolchain_keeps_mark_witness :
  let listing := Executor.Result true
                   ("3.11.0*" +:+ Js.newline +:+ "3.10.8" +:+ Js.newline +:+ "3.9.13")
                   None in
  Toolchains.getCurrentPythonToolchain (Executor.Result true "Python 3.11.0" None)
    listing
  = Some "3.11.0*".
Proof.
  intros listing.
  refine (proj1 (ToolchainsProps.getCurrentPythonToolchain_keeps_mark
                   [("3.11.0", true); ("3.10.8", false); ("3.9.13", false)]
                   (Executor.Result true "Python 3.11.0" None) None _ eq_refl)).
  repeat constructor.
Defined.

(** ** Test files *)

Module TestsProps.
Import Js Regex Text Tests TextProps.

Lemma matches_str l : forall s, matches (str l) s = true <-> s = l.
Proof.
  induction l as [|c l IH]; intros s; simpl.
  - apply matches_Eps.
  - rewrite matches_Seq. split.
    + intros (s1 & s2 & -> & H1 & H2).
      apply matches_lit in H1 as ->. apply IH in H2 as ->. done.
    + intros ->. exists (String c ""), l. split; [done|].
      split; [by apply matches_lit|by apply IH].
Qed.

Lemma matches_str_Seq l r s :
  matches (Seq (str l) r) s = true
  <-> exists s2, s = l +:+ s2 /\ matches r s2 = true.
Proof.
  rewrite matches_Seq. split.
  - intros (s1 & s2 & -> & H1 & H2). apply matches_str in H1 as ->. by exists s2.
  - intros (s2 & -> & H2). exists l, s2. split; [done|].
    split; [by apply matches_str|done].
Qed.

Lemma matches_dots_Seq r s :
  matches (Seq dots r) s = true
  <-> exists b s2, s = b +:+ s2 /\ every isDot b = true /\ matches r s2 = true.
Proof.
  rewrite matches_Seq. unfold dots. split.
  - intros (s1 & s2 & -> & H1 & H2). rewrite matches_Star_Class in H1.
    by exists s1, s2.
  - intros (b & s2 & -> & H1 & H2). exists b, s2.
    by rewrite matches_Star_Class.
Qed.

Lemma every_any s : every (fun _ => true) s = true.
Proof. induction s as [|c s IH]; simpl; done. Qed.

Lemma testEnd_spec r f :
  testEnd r f = true <-> exists a s, f = a +:+ s /\ matches r s = true.
Proof.
  unfold testEnd. rewrite matches_Seq. split.
  - intros (a & s & -> & _ & Hs). by exists a, s.
  - intros (a & s & -> & Hs). exists a, s.
    by rewrite matches_Star_Class, every_any.
Qed.

(** X9. [isTestFile] accepts exactly the names that end in [.py] and hold
    [test] somewhere before that ending, with no line break after it: the
    third pattern decides alone, and the first two add nothing.  So
    [latest.py] and [contest_utils.py] count as test files. *)
Theorem isTestFile_contains_test f :
  isTestFile f = true
  <-> exists a b, f = a +:+ "test" +:+ b +:+ ".py" /\ every isDot b = true.
Proof.
  unfold isTestFile, testPatterns. cbn [existsb]. rewrite !orb_true_iff, !testEnd_spec.
  split.
  - intros [(a & s & -> & Hs)|[(a & s & -> & Hs)|[(a & s & -> & Hs)|Hf]]];
      [| | |done].
    + apply matches_str_Seq in Hs as (s2 & -> & Hs).
      apply matches_dots_Seq in Hs as (b & s3 & -> & Hb & Hs).
      apply matches_str in Hs as ->.
      exists a, ("_" +:+ b). split; [done|]. by rewrite every_app, Hb.
    + apply matches_dots_Seq in Hs as (d & s2 & -> & Hd & Hs).
      apply matches_str in Hs as ->.
      exists (a +:+ d +:+ "_"), "". split; [|done].
      by rewrite !append_assoc.
    + apply matches_dots_Seq in Hs as (d & s2 & -> & Hd & Hs).
      apply matches_str_Seq in Hs as (s3 & -> & Hs).
      apply matches_dots_Seq in Hs as (b & s4 & -> & Hb & Hs).
      apply matches_str in Hs as ->.
      exists (a +:+ d), b. split; [|done]. by rewrite !append_assoc.
  - intros (a & b & -> & Hb). right. right. left.
    exists a, ("test" +:+ b +:+ ".py"). split; [done|].
    apply matches_dots_Seq. exists "", ("test" +:+ b +:+ ".py").
    split; [done|]. split; [done|].
    apply matches_str_Seq. exists (b +:+ ".py"). split; [done|].
    apply matches_dots_Seq. exists b, ".py". split; [done|]. split; [done|].
    by apply matches_str.
Qed.
End TestsProps.

(** ** Dependencies *)

Module TreeProps.
Import Js Text Tree TextProps.




End TreeProps.

(** ** Versions in identifiers and in the output of the interpreter *)

Module VersionTextProps.
Import Js Regex Text VersionFile StatusBar Toolchains TextProps.

(** A string that a pattern of the form [[class]+] matches, followed by
    a character outside the class: what [span] takes. *)
Lemma span_plus p a b :
  a <> "" -> every p a = true ->
  match b with String c _ => p c = false | EmptyString => True end ->
  exists c a', a = String c a' /\ span p (a +:+ b) = (String c a', b).
Proof.
  intros Hne Ha Hb. destruct a as [|c a']; [done|].
  exists c, a'. split; [done|]. by apply span_app.
Qed.

Lemma extractVersion_skip impl s :
  every (fun c => negb (Ascii.eqb c "-")) impl = true ->
  extractVersion (impl +:+ s) = extractVersion s.
Proof.
  induction impl as [|c impl IH]; [done|]. intros H. simpl in H.
  apply andb_prop in H as [Hc Hs]. apply negb_true_iff in Hc.
  rewrite append_cons. simpl. rewrite Hc. by apply IH.
Qed.

(** The shape of a version in a toolchain identifier, [X.Y] or [X.Y.Z],
    and what [versionHere] makes of it when nothing that could continue
    it follows. *)
Lemma versionHere_two major minor tl :
  major <> "" -> every isDigit major = true ->
  minor <> "" -> every isVersionChar minor = true ->
  match tl with
  | String c _ => isVersionChar c = false /\ c <> "."%char
  | EmptyString => True
  end ->
  versionHere (major +:+ "." +:+ minor +:+ tl) = Some (major +:+ "." +:+ minor).
Proof.
  intros Hm0 Hm Hn0 Hn Htl. unfold versionHere.
  destruct (span_plus isDigit major ("." +:+ minor +:+ tl) Hm0 Hm eq_refl)
    as (c & a' & -> & ->).
  change ("." +:+ minor +:+ tl) with (String "." (minor +:+ tl)).
  assert (match tl with
          | String c _ => isVersionChar c = false
          | EmptyString => True
          end) as Htl'.
  { destruct tl; [done|]. by destruct Htl. }
  destruct (span_plus isVersionChar minor tl Hn0 Hn Htl') as (d & b' & -> & ->).
  destruct tl as [|t tl]; [done|].
  destruct Htl as [_ Hdot].
  destruct t as [[] [] [] [] [] [] [] []]; done.
Qed.

Lemma versionHere_three major minor patch tl :
  major <> "" -> every isDigit major = true ->
  minor <> "" -> every isVersionChar minor = true ->
  patch <> "" -> every isVersionChar patch = true ->
  match tl with
  | String c _ => isVersionChar c = false
  | EmptyString => True
  end ->
  versionHere (major +:+ "." +:+ minor +:+ "." +:+ patch +:+ tl)
  = Some (major +:+ "." +:+ minor +:+ "." +:+ patch).
Proof.
  intros Hm0 Hm Hn0 Hn Hp0 Hp Htl. unfold versionHere.
  destruct (span_plus isDigit major ("." +:+ minor +:+ "." +:+ patch +:+ tl)
              Hm0 Hm eq_refl) as (c & a' & -> & ->).
  change ("." +:+ minor +:+ "." +:+ patch +:+ tl)
    with (String "." (minor +:+ "." +:+ patch +:+ tl)).
  destruct (span_plus isVersionChar minor ("." +:+ patch +:+ tl) Hn0 Hn eq_refl)
    as (d & b' & -> & ->).
  change ("." +:+ patch +:+ tl) with (String "." (patch +:+ tl)).
  destruct (span_plus isVersionChar patch tl Hp0 Hp Htl) as (e & p' & -> & ->).
  done.
Qed.

(** What the pattern of a version in an identifier matches, when it has
    to match a whole string. *)
Lemma idVersion_shape v :
  matches idVersionRegex v = true ->
  exists major minor,
    major <> "" /\ every isDigit major = true
    /\ minor <> "" /\ every isVersionChar minor = true
    /\ (v = major +:+ "." +:+ minor
        \/ exists patch, patch <> "" /\ every isVersionChar patch = true
                         /\ v = major +:+ "." +:+ minor +:+ "." +:+ patch).
Proof.
  unfold idVersionRegex. intros Hv.
  apply matches_Seq in Hv as (major & s1 & -> & Hmajor & Hv).
  apply matches_plus_Class in Hmajor as [Hm0 Hm].
  apply matches_Seq in Hv as (dot & s2 & -> & Hdot & Hv).
  apply matches_lit in Hdot as ->.
  apply matches_Seq in Hv as (minor & s3 & -> & Hminor & Hv).
  apply matches_plus_Class in Hminor as [Hn0 Hn].
  exists major, minor. repeat (split; [done|]).
  apply matches_opt in Hv as [Hv| ->].
  - right. apply matches_Seq in Hv as (dot & patch & -> & Hdot & Hpatch).
    apply matches_lit in Hdot as ->.
    apply matches_plus_Class in Hpatch as [Hp0 Hp]. by exists patch.
  - left. by rewrite append_nil_r.
Qed.

(** X11. The version of a toolchain identifier is found as written: for
    an implementation name without a dash and a version [v] of the form
    the pattern asks for ([X.Y] or [X.Y.Z], as in [cpython-3.14.0b2-...]),
    [extractVersion] returns [v] from [impl-v] and from [impl-v-rest],
    whatever the rest is. *)
Theorem extractVersion_of_identifier impl v rest :
  every (fun c => negb (Ascii.eqb c "-")) impl = true ->
  matches idVersionRegex v = true ->
  extractVersion (impl +:+ "-" +:+ v) = Some v
  /\ extractVersion (impl +:+ "-" +:+ v +:+ "-" +:+ rest) = Some v
  /\ versionOf (impl +:+ "-" +:+ v +:+ "-" +:+ rest) = v.
Proof.
  intros Himpl Hv.
  assert (forall tl,
            match tl with
            | String c _ => isVersionChar c = false /\ c <> "."%char
            | EmptyString => True
            end ->
            extractVersion (impl +:+ "-" +:+ v +:+ tl) = Some v) as Hgen.
  { intros tl Htl. rewrite (extractVersion_skip impl _ Himpl).
    change ("-" +:+ v +:+ tl) with (String "-" (v +:+ tl)). simpl.
    destruct (idVersion_shape v Hv)
      as (major & minor & Hm0 & Hm & Hn0 & Hn & [->|(patch & Hp0 & Hp & ->)]).
    - rewrite !append_assoc.
      by rewrite (versionHere_two major minor tl).
    - rewrite !append_assoc.
      rewrite (versionHere_three major minor patch tl); [done..|].
      destruct tl; [done|]. by destruct Htl. }
  split.
  - rewrite <- (append_nil_r v) at 1. by apply Hgen.
  - assert (extractVersion (impl +:+ "-" +:+ v +:+ "-" +:+ rest) = Some v) as H.
    { by apply (Hgen ("-" +:+ rest)). }
    split; [done|]. unfold versionOf. by rewrite H.
Qed.

Lemma release_shape v :
  matches releaseRegex v = true ->
  exists a b c,
    a <> "" /\ every isDigit a = true
    /\ b <> "" /\ every isDigit b = true
    /\ c <> "" /\ every isDigit c = true
    /\ v = a +:+ "." +:+ b +:+ "." +:+ c.
Proof.
  unfold releaseRegex. intros Hv.
  apply matches_Seq in Hv as (a & s1 & -> & Ha & Hv).
  apply matches_plus_Class in Ha as [Ha0 Ha].
  apply matches_Seq in Hv as (dot & s2 & -> & Hdot & Hv).
  apply matches_lit in Hdot as ->.
  apply matches_Seq in Hv as (b & s3 & -> & Hb & Hv).
  apply matches_plus_Class in Hb as [Hb0 Hb].
  apply matches_Seq in Hv as (dot & c & -> & Hdot & Hc).
  apply matches_lit in Hdot as ->.
  apply matches_plus_Class in Hc as [Hc0 Hc].
  by exists a, b, c.
Qed.

Lemma threeNumbers_release v tl :
  matches releaseRegex v = true ->
  match tl with String c _ => isDigit c = false | EmptyString => True end ->
  threeNumbers (v +:+ tl) = Some v.
Proof.
  intros Hv Htl.
  destruct (release_shape v Hv) as (a & b & c & Ha0 & Ha & Hb0 & Hb & Hc0 & Hc & ->).
  rewrite !append_assoc.
  unfold threeNumbers.
  destruct (span_plus isDigit a ("." +:+ b +:+ "." +:+ c +:+ tl) Ha0 Ha eq_refl)
    as (x & a' & -> & ->).
  change ("." +:+ b +:+ "." +:+ c +:+ tl) with (String "." (b +:+ "." +:+ c +:+ tl)).
  destruct (span_plus isDigit b ("." +:+ c +:+ tl) Hb0 Hb eq_refl)
    as (y & b' & -> & ->).
  change ("." +:+ c +:+ tl) with (String "." (c +:+ tl)).
  by destruct (span_plus isDigit c tl Hc0 Hc Htl) as (z & c' & -> & ->).
Qed.

Lemma substring_all s : String.substring 0 (String.length s) s = s.
Proof. induction s as [|c s IH]; simpl; [done|]. by rewrite IH. Qed.

(** X12. The version the interpreter prints is read back: for a release
    number [X.Y.Z], [pythonVersionIn] finds it in an output that starts
    with ["Python X.Y.Z"], whatever follows as long as it is not one more
    digit.  [getPythonVersion] and [getCurrentVenvPythonVersion] read the
    output of [python --version] this way. *)
Theorem pythonVersionIn_release v tl :
  matches releaseRegex v = true ->
  match tl with String c _ => isDigit c = false | EmptyString => True end ->
  pythonVersionIn ("Python " +:+ v +:+ tl) = Some v.
Proof.
  intros Hv Htl.
  change ("Python " +:+ v +:+ tl)
    with (String "P" ("ython " +:+ v +:+ tl)).
  unfold pythonVersionIn; fold pythonVersionIn.
  change (String "P" ("ython " +:+ v +:+ tl)) with ("Python " +:+ (v +:+ tl)).
  assert (String.prefix "Python " ("Python " +:+ (v +:+ tl)) = true) as ->.
  { simpl. by destruct (v +:+ tl). }
  assert (String.substring 7 (String.length ("Python " +:+ (v +:+ tl)) - 7)
            ("Python " +:+ (v +:+ tl)) = v +:+ tl) as ->.
  { change ("Python " +:+ (v +:+ tl))
      with (String "P" (String "y" (String "t" (String "h" (String "o"
              (String "n" (String " " (v +:+ tl)))))))).
    cbn [String.length String.substring Nat.sub]. rewrite Nat.sub_0_r.
    apply substring_all. }
  by rewrite (threeNumbers_release v tl Hv Htl).
Qed.
End VersionTextProps.

Example isTestFile_names :
  map Tests.isTestFile
      ["test_api.py"; "api_test.py"; "tests/conftest.py"; "latest.py";
       "contest_utils.py"; "api.py"; "test_api.pyc"; "test_api.txt"]
  = [true; true; true; true; true; false; false; false].
Proof. reflexivity. Qed.

Example parseDependenciesFromTree_tree :
  Tree.parseDependenciesFromTree
    ("demo v0.1.0" +:+ Js.newline
     +:+ "├── requests v2.32.3" +:+ Js.newline
     +:+ "│   ├── certifi v2024.8.30" +:+ Js.newline
     +:+ "│   └── idna v3.10" +:+ Js.newline
     +:+ "├── rich v13.9.2" +:+ Js.newline
     +:+ "└── requests v2.32.3 (*)" +:+ Js.newline)
  = ["requests"; "rich"].
Proof. reflexivity. Qed.

(** The identifier of the comment in the source. *)
Lemma extractVersion_of_identifier_witness :
  VersionFile.extractVersion "cpython-3.14.0b2-macos-aarch64-none" = Some "3.14.0b2".
Proof.
  exact (proj1 (proj2 (VersionTextProps.extractVersion_of_identifier
                         "cpython" "3.14.0b2" "macos-aarch64-none"
                         eq_refl eq_refl))).
Defined.

(** What [python --version] prints. *)
Lemma pythonVersionIn_release_witness :
  StatusBar.pythonVersionIn ("Python 3.11.4" +:+ Js.newline) = Some "3.11.4".
Proof.
  exact (VersionTextProps.pythonVersionIn_release "3.11.4" Js.newline eq_refl eq_refl).
Defined.

(** ** The cache and the queries that use it *)

Module QueriesProps.
Import Js Executor Cache Queries.
Local Open Scope Z_scope.

Section Keys.
Context {V : Type}.

(** X13. The entries of the cache are independent: writing, invalidating
    or evicting the entry of one key leaves what [getCached] returns for
    any other key as it was; and after [invalidateCache(K)],
    [getCached(K)] finds nothing, at any clock value. *)
Theorem cache_keys_independent key key' (v : V) t now
    (cache : gmap string (entry V)) :
  key' <> key ->
  fst (getCached key' now (setCached key v t cache)) = fst (getCached key' now cache)
  /\ fst (getCached key' now (invalidateCache key cache))
     = fst (getCached key' now cache)
  /\ (forall t', fst (getCached key' now (snd (getCached key t' cache)))
                 = fst (getCached key' now cache))
  /\ (forall t', fst (getCached key t' (invalidateCache key cache)) = None).
Proof.
  intros Hne. unfold getCached, setCached, invalidateCache.
  rewrite lookup_insert_ne, lookup_delete_ne, lookup_delete_eq by done.
  assert (forall c1 c2 : gmap string (entry V),
            (match cache !! key' with
             | Some e => if now <? expires e then (Some (value e), c1)
                         else (None, delete key' c1)
             | None => (None, c1)
             end).1
            = (match cache !! key' with
               | Some e => if now <? expires e then (Some (value e), c2)
                           else (None, delete key' c2)
               | None => (None, c2)
               end).1) as Hsame.
  { intros c1 c2. destruct (cache !! key') as [e|]; [|done].
    by destruct (now <? expires e). }
  split; [apply Hsame|]. split; [apply Hsame|]. split; [|done].
  intros t'. destruct (cache !! key) as [e|]; [|done].
  destruct (t' <? expires e); [done|]. simpl. rewrite lookup_delete_ne by done.
  apply Hsame.
Qed.
End Keys.

Section QueriesProps.
Context {J : Type}.
Variable truthyJ : J -> bool.
Variable parse : string -> option J.

#[local] Abbreviation any := (@Queries.any J).
#[local] Abbreviation getDependencies := (getDependencies truthyJ).
#[local] Abbreviation getProjectInfo := (getProjectInfo truthyJ parse).

Lemma getCached_written key (v : any) t1 t2 (cache : gmap string (entry any)) :
  t2 < t1 + cacheTTL ->
  getCached key t2 (setCached key v t1 cache)
  = (Some v, setCached key v t1 cache).
Proof.
  intros Hlt. unfold getCached, setCached. rewrite lookup_insert_eq. simpl.
  by destruct (Z.ltb_spec t2 (t1 + cacheTTL)); [|lia].
Qed.

(** X14. [getDependencies] answers from the cache for 1500 ms: after a
    call that had to compute its result (it read [pyproject.toml] or ran
    [uv tree]) and stored it at time [t1], a call before [t1 + 1500]
    returns the same list without reading a file or running a command and
    leaves the cache as it is, whatever the files and [uv] would answer
    by then.  This holds for an empty list as well, an array being
    truthy. *)
Theorem getDependencies_cached t0 t1 deps0 r0 cache t2 t3 deps1 r1 :
  let q := getDependencies t0 t1 deps0 r0 cache in
  q.2 <> [] -> t2 < t1 + cacheTTL ->
  (exists names, q.1.1 = Names names)
  /\ getDependencies t2 t3 deps1 r1 q.1.2 = (q.1.1, q.1.2, []).
Proof.
  intros q Hdid Hlt. subst q. unfold Queries.getDependencies in *.
  destruct (getCached "dependencies" t0 cache) as [cached c0].
  assert (forall names,
            (let '(cached, cache) :=
               getCached "dependencies" t2
                 (setCached "dependencies" (Names names) t1 c0) in
             match
               match cached with
               | Some v => if holds truthyJ v then Some v else None
               | None => None
               end
             with
             | Some v => (v, cache, [])
             | None =>
                 let '(deps, more) :=
                   match deps1 with
                   | [] =>
                       (if success r1
                        then Tree.parseDependenciesFromTree (output r1)
                        else [], [Command ["tree"]])
                   | _ :: _ => (deps1, [])
                   end in
                 (Names deps, setCached "dependencies" (Names deps) t3 cache,
                  DependenciesFromPyproject :: more)
             end)
            = (Names names, setCached "dependencies" (Names names) t1 c0, []))
    as Hagain.
  { intros names. by rewrite (getCached_written _ _ _ _ _ Hlt). }
  destruct cached as [v|]; [destruct (holds truthyJ v) eqn:Hv|].
  - done.
  - destruct deps0; simpl; (split; [by eexists|apply Hagain]).
  - destruct deps0; simpl; (split; [by eexists|apply Hagain]).
Qed.

(** X15. [getProjectInfo] answers from the cache only when the cached
    value is truthy.  After a call that ran [uv tree --format json] and
    stored its result at [t1]: if the command failed the result is
    [null]; a truthy result is returned again before [t1 + 1500] without
    running the command; and a result that is not truthy, in particular
    the [null] of a failed command, is never answered from the cache: the
    next call runs the command again, at any time. *)
Theorem getProjectInfo_cached_when_truthy t0 t1 r0 b0 cache t2 t3 r1 b1 :
  let q := getProjectInfo t0 t1 r0 b0 cache in
  q.2 <> [] ->
  (success r0 = false -> q.1.1 = Null)
  /\ (holds truthyJ q.1.1 = true -> t2 < t1 + cacheTTL ->
      getProjectInfo t2 t3 r1 b1 q.1.2 = (q.1.1, q.1.2, []))
  /\ (holds truthyJ q.1.1 = false ->
      exists rest,
        (getProjectInfo t2 t3 r1 b1 q.1.2).2
        = Command ["tree"; "--format"; "json"] :: rest).
Proof.
  intros q Hdid. subst q. unfold Queries.getProjectInfo in *.
  destruct (getCached "projectInfo" t0 cache) as [cached c0].
  set (computed :=
         let '(info, fallback) :=
           if success r0
           then match parse (output r0) with
                | Some j => (Json j, [])
                | None => (b0, [BasicProjectInfo])
                end
           else (Null, []) in
         (info, setCached "projectInfo" info t1 c0,
          Command ["tree"; "--format"; "json"] :: fallback)).
  assert ((success r0 = false -> computed.1.1 = Null)
          /\ computed.1.2 = setCached "projectInfo" computed.1.1 t1 c0) as [Hnull Hc].
  { subst computed. destruct (success r0); [|done].
    by destruct (parse (output r0)). }
  assert (forall q : any * gmap string (entry any) * list action,
            q = computed ->
            (success r0 = false -> q.1.1 = Null)
            /\ (holds truthyJ q.1.1 = true -> t2 < t1 + cacheTTL ->
                (let '(cached, cache) := getCached "projectInfo" t2 q.1.2 in
                 match
                   match cached with
                   | Some v => if holds truthyJ v then Some v else None
                   | None => None
                   end
                 with
                 | Some v => (v, cache, [])
                 | None =>
                     let '(info, fallback) :=
                       if success r1
                       then match parse (output r1) with
                            | Some j => (Json j, [])
                            | None => (b1, [BasicProjectInfo])
                            end
                       else (Null, []) in
                     (info, setCached "projectInfo" info t3 cache,
                      Command ["tree"; "--format"; "json"] :: fallback)
                 end) = (q.1.1, q.1.2, []))
            /\ (holds truthyJ q.1.1 = false ->
                exists rest,
                  (let '(cached, cache) := getCached "projectInfo" t2 q.1.2 in
                   match
                     match cached with
                     | Some v => if holds truthyJ v then Some v else None
                     | None => None
                     end
                   with
                   | Some v => (v, cache, [])
                   | None =>
                       let '(info, fallback) :=
                         if success r1
                         then match parse (output r1) with
                              | Some j => (Json j, [])
                              | None => (b1, [BasicProjectInfo])
                              end
                         else (Null, []) in
                       (info, setCached "projectInfo" info t3 cache,
                        Command ["tree"; "--format"; "json"] :: fallback)
                   end).2
                  = Command ["tree"; "--format"; "json"] :: rest)) as Hall.
  { intros q ->. split; [done|]. rewrite Hc. split.
    - intros Hh Hlt. by rewrite (getCached_written _ _ _ _ _ Hlt), Hh.
    - intros Hh. unfold getCached at 1, setCached at 1.
      rewrite lookup_insert_eq. simpl.
      destruct (t2 <? t1 + cacheTTL); simpl; rewrite ?Hh.
      + destruct (success r1); [destruct (parse (output r1))|]; by eexists.
      + destruct (success r1); [destruct (parse (output r1))|]; by eexists. }
  destruct cached as [v|]; [destruct (holds truthyJ v) eqn:Hv|].
  - done.
  - by apply Hall.
  - by apply Hall.
Qed.
End QueriesProps.
End QueriesProps.

(** ** Commands in a terminal *)

Module TerminalProps.
Import Js Executor Terminal.

(** X16. [executeInTerminal] and [executeCommand] agree: the terminal is
    sent exactly the command line that [_executeCommand] would give to
    [cp.exec], in the same directory, and when there is no directory to
    run in, both refuse with ['No workspace root found'] and start
    nothing. *)
Theorem executeInTerminal_agrees uvPath workspaceRoot args cwd :
  match _executeCommand uvPath workspaceRoot args cwd with
  | Exec command directory =>
      executeInTerminal uvPath workspaceRoot args cwd
      = SendText "UV" directory command
  | Resolved r =>
      executeInTerminal uvPath workspaceRoot args cwd
      = ShowError "No workspace root found"
      /\ r = Result false "" (Some "No workspace root found")
  end.
Proof.
  unfold _executeCommand, executeInTerminal, workingDirectory, commandLine.
  destruct (or_else cwd workspaceRoot) as [d|]; [|done].
  by destruct (truthy d).
Qed.
End TerminalProps.

(** ** The status bar without a project, and the version it shows *)

Module StatusProps.
Import Js StatusBar.
Section StatusProps.
Variable ex : executor.

(** X17. Without a project or without [uv], [updateStatus] makes two
    calls to the executor, [hasProjectFiles] and [checkUVInstalled], and
    no other, logs nothing, hides the four sub-panels and shows the main
    item: the error item when [uv] is not installed, whether or not
    there is a project, and the item that offers [uv.init] otherwise. *)
Theorem updateStatus_without_project w hasProject isUVInstalled :
  hasProjectFiles ex (calls w) = Returned hasProject ->
  checkUVInstalled ex (S (calls w)) = Returned isUVInstalled ->
  hasProject && isUVInstalled = false ->
  let w' := snd (updateStatus ex w) in
  items w' Main
  = (if isUVInstalled
     then Item "$(plus) UV" "Initialize UV project - Click to create new project"
            (Some "uv.init") true
     else Item "$(error) UV not found" "UV is not installed or not in PATH"
            (Some "uv.help") true)
  /\ subpanelsHidden w'
  /\ calls w' = S (S (calls w))
  /\ console w' = console w.
Proof.
  intros Hp Hi Hb w'. subst w'.
  unfold updateStatus, tryCatch, updateStatus_try, bind, await.
  rewrite Hp. cbn [calls]. rewrite Hi.
  destruct isUVInstalled, hasProject; try done; by vm_compute.
Qed.

(** X18. [getPythonVersion] asks in a fixed order and stops at the first
    answer: a pinned version from the project files is returned without
    running any command; without one, when [uv run python --version]
    succeeds its output decides, even if no version is found in it, and
    the system interpreter is not asked; only when that command fails is
    [python --version] run, and its output decides. *)
Theorem getPythonVersion_order w :
  (forall v,
     getPythonVersionFromFiles ex (calls w) = Returned (Some v) ->
     truthy v = true ->
     getPythonVersion ex w
     = (Returned (Some v), World (items w) (S (calls w)) (console w)))
  /\ (forall pinned r,
        getPythonVersionFromFiles ex (calls w) = Returned pinned ->
        given pinned = false ->
        executeCommand ex (S (calls w)) ["run"; "python"; "--version"] = Returned r ->
        Executor.success r = true ->
        getPythonVersion ex w
        = (Returned (pythonVersionIn (Executor.output r)),
           World (items w) (S (S (calls w))) (console w)))
  /\ (forall pinned r r',
        getPythonVersionFromFiles ex (calls w) = Returned pinned ->
        given pinned = false ->
        executeCommand ex (S (calls w)) ["run"; "python"; "--version"] = Returned r ->
        Executor.success r = false ->
        executeCommand ex (S (S (calls w))) ["python"; "--version"] = Returned r' ->
        getPythonVersion ex w
        = (Returned (if Executor.success r'
                     then pythonVersionIn (Executor.output r')
                     else None),
           World (items w) (S (S (S (calls w)))) (console w))).
Proof.
  split; [|split].
  - intros v Hf Hv.
    unfold getPythonVersion, versionFrom, tryCatch, bind, await, ret.
    rewrite Hf. cbn [given]. by rewrite Hv.
  - intros pinned r Hf Hg Hr Hs.
    unfold getPythonVersion, versionFrom, tryCatch, bind, await, ret.
    rewrite Hf, Hg. cbn [calls]. by rewrite Hr, Hs.
  - intros pinned r r' Hf Hg Hr Hs Hr'.
    unfold getPythonVersion, versionFrom, tryCatch, bind, await, ret.
    rewrite Hf, Hg. cbn [calls]. rewrite Hr, Hs. cbn [calls]. rewrite Hr'.
    by destruct (Executor.success r').
Qed.
End StatusProps.
End StatusProps.

(** Invalidating the dependencies leaves the project information. *)
Lemma cache_keys_independent_witness :
  let cache : gmap string (Cache.entry nat) :=
    {[ "projectInfo" := Cache.Entry 7 2000%Z ]} in
  fst (Cache.getCached "projectInfo" 100 (Cache.invalidateCache "dependencies" cache))
  = fst (Cache.getCached "projectInfo" 100 cache).
Proof.
  intros cache.
  refine (proj1 (proj2 (QueriesProps.cache_keys_independent
                          "dependencies" "projectInfo" 0 0%Z 100%Z cache _))).
  done.
Defined.

(** Dependencies read from [pyproject.toml] at 10 ms and asked for again
    at 500 ms, when the file lists nothing any more. *)
Lemma getDependencies_cached_witness :
  let failed := Executor.Result false "" (Some "error") in
  let q := Queries.getDependencies (fun _ : unit => true) 0 10 ["requests"] failed ∅ in
  Queries.getDependencies (fun _ : unit => true) 500 510 [] failed q.1.2
  = (q.1.1, q.1.2, []).
Proof.
  intros failed q.
  refine (proj2 (QueriesProps.getDependencies_cached (fun _ : unit => true)
                   0 10 ["requests"] failed ∅ 500 510 [] failed _ _)).
  - by vm_compute.
  - by vm_compute.
Defined.

(** A failed [uv tree --format json], asked again 5 ms later. *)
Lemma getProjectInfo_cached_when_truthy_witness :
  let failed := Executor.Result false "" (Some "error") in
  let q := Queries.getProjectInfo (fun _ : unit => true) (fun _ => None)
             0 10 failed Queries.Null ∅ in
  exists rest,
    (Queries.getProjectInfo (fun _ : unit => true) (fun _ => None)
       15 20 failed Queries.Null q.1.2).2
    = Queries.Command ["tree"; "--format"; "json"] :: rest.
Proof.
  intros failed q.
  refine (proj2 (proj2 (QueriesProps.getProjectInfo_cached_when_truthy
                          (fun _ : unit => true) (fun _ => None)
                          0 10 failed Queries.Null ∅ 15 20 failed Queries.Null _))
            _).
  - by vm_compute.
  - by vm_compute.
Defined.

(** A folder without a project, [uv] installed. *)
Lemma updateStatus_without_project_witness :
  let w' := snd (StatusBar.updateStatus noProject freshBars) in
  StatusBar.items w' StatusBar.Main
  = StatusBar.Item "$(plus) UV"
      "Initialize UV project - Click to create new project" (Some "uv.init") true
  /\ StatusBar.subpanelsHidden w'
  /\ StatusBar.calls w' = 2%nat
  /\ StatusBar.console w' = [].
Proof.
  exact (StatusProps.updateStatus_without_project noProject freshBars false true
           eq_refl eq_refl eq_refl).
Defined.

(** ** Waiting for the virtual environment *)

Module VenvWaitProps.
Import Js Executor VenvWait.
Local Open Scope Z_scope.
Section VenvWaitProps.
Variable w : world.

Lemma rounds_left_S limit from :
  from < limit ->
  rounds_left limit from = S (rounds_left limit (from + interval)).
Proof.
  intros Hlt. unfold rounds_left, interval.
  replace (limit - from + (2000 - 1))
    with ((limit - (from + 2000) + (2000 - 1)) + 1 * 2000) by lia.
  rewrite Z.div_add by lia.
  assert (0 <= (limit - (from + 2000) + (2000 - 1)) / 2000).
  { apply Z.div_pos; lia. }
  lia.
Qed.

Lemma poll_bounded version limit fuel : forall p,
  (rounds_left limit (waited p) <= fuel)%nat ->
  exists b p',
    poll w fuel version limit p = Some (b, p')
    /\ (commands p < commands p'
        <= commands p + 2 * rounds_left limit (waited p) + 1)%nat
    /\ waited p' <= waited p + interval * Z.of_nat (rounds_left limit (waited p))
    /\ (b = false ->
        limit <= waited p' /\ success (exec w (commands p' - 1)) = false).
Proof.
  induction fuel as [|fuel IH]; intros p Hfuel.
  - simpl. destruct (Z.ltb_spec (waited p) limit) as [Hlt|Hge].
    + rewrite (rounds_left_S _ _ Hlt) in Hfuel. lia.
    + eexists _, _. split; [done|]. simpl. split; [lia|]. split.
      { unfold interval. lia. }
      intros Hb. split; [done|]. by rewrite Nat.sub_0_r.
  - simpl. destruct (Z.ltb_spec (waited p) limit) as [Hlt|Hge].
    + rewrite (rounds_left_S _ _ Hlt) in *.
      destruct (verified version (exec w (commands p))).
      { eexists _, _. split; [done|]. simpl. split; [lia|]. split; [|done].
        unfold interval. lia. }
      destruct (stat w (stats p)).
      * destruct (success (exec w (S (commands p)))) eqn:Hretry.
        { eexists _, _. split; [done|]. simpl. split; [lia|]. split; [|done].
          unfold interval. lia. }
        destruct (IH (Progress (S (S (commands p))) (S (stats p))
                        (waited p + interval)))
          as (b & p' & Hpoll & Hc & Hw & Hb); [simpl; lia|].
        exists b, p'. simpl in *. split; [done|]. split; [lia|].
        split; [unfold interval in *; lia|done].
      * destruct (IH (Progress (S (commands p)) (S (stats p))
                        (waited p + interval)))
          as (b & p' & Hpoll & Hc & Hw & Hb); [simpl; lia|].
        exists b, p'. simpl in *. split; [done|]. split; [lia|].
        split; [unfold interval in *; lia|done].
    + eexists _, _. split; [done|]. simpl. split; [lia|]. split.
      { unfold interval. lia. }
      intros Hb. split; [done|]. by rewrite Nat.sub_0_r.
Qed.

(** X19. [waitForVenvPythonVersion] gives up: with a workspace open it
    returns after at most one round for every 2 s of [maxSeconds] (rounded
    up), having run at most two commands in each round and one more at
    the end, and having slept no longer than those rounds take.  It
    returns [false] only once [maxSeconds] have gone by and the last
    command it ran has failed. *)
Theorem waitForVenvPythonVersion_gives_up root version maxSeconds fuel :
  truthy root = true ->
  (rounds maxSeconds <= fuel)%nat ->
  exists b p,
    waitForVenvPythonVersion w (Some root) version maxSeconds fuel = Some (b, p)
    /\ (1 <= commands p <= 2 * rounds maxSeconds + 1)%nat
    /\ waited p <= interval * Z.of_nat (rounds maxSeconds)
    /\ (b = false ->
        maxSeconds * 1000 <= waited p
        /\ success (exec w (commands p - 1)) = false).
Proof.
  intros Hroot Hfuel. unfold waitForVenvPythonVersion. rewrite Hroot.
  destruct (poll_bounded version (maxSeconds * 1000) fuel (Progress 0 0 0) Hfuel)
    as (b & p & Hpoll & Hc & Hw & Hb).
  exists b, p. simpl in *. split; [done|]. unfold rounds.
  split; [lia|]. split; [lia|done].
Qed.

Lemma poll_lenient version limit fuel : forall p0 b p,
  (forall k, success (exec w k) = true) ->
  poll w fuel version limit p0 = Some (b, p) -> b = true.
Proof.
  induction fuel as [|fuel IH]; intros p0 b p Hok; simpl.
  - destruct (waited p0 <? limit); [done|]. rewrite Hok. by intros [= <- _].
  - destruct (waited p0 <? limit).
    + destruct (verified version (exec w (commands p0))); [by intros [= <- _]|].
      destruct (stat w (stats p0)); [|by apply IH].
      rewrite Hok. by intros [= <- _].
    + rewrite Hok. by intros [= <- _].
Qed.

(** X20. The version is not enforced: if [uv run python --version]
    succeeds whenever it is run, [waitForVenvPythonVersion] returns
    [true] for every expected version, also one that the output never
    shows, whether or not the interpreter of [.venv] is found. *)
Theorem waitForVenvPythonVersion_lenient root version maxSeconds fuel :
  (forall k, success (exec w k) = true) ->
  truthy root = true ->
  (rounds maxSeconds <= fuel)%nat ->
  exists p,
    waitForVenvPythonVersion w (Some root) version maxSeconds fuel = Some (true, p).
Proof.
  intros Hok Hroot Hfuel. unfold waitForVenvPythonVersion. rewrite Hroot.
  destruct (poll_bounded version (maxSeconds * 1000) fuel (Progress 0 0 0) Hfuel)
    as (b & p & Hpoll & _).
  exists p. by rewrite Hpoll, (poll_lenient _ _ _ _ _ _ Hok Hpoll).
Qed.
End VenvWaitProps.
End VenvWaitProps.

(** A wait of 4 s for an interpreter that never comes: two rounds, three
    commands. *)
Lemma waitForVenvPythonVersion_gives_up_witness :
  let w := VenvWait.World (fun _ => Executor.Result false "" (Some "error"))
                          (fun _ => false) in
  exists b p,
    VenvWait.waitForVenvPythonVersion w (Some "/ws") "3.12" 4 2 = Some (b, p)
    /\ (1 <= VenvWait.commands p <= 2 * VenvWait.rounds 4 + 1)%nat
    /\ (VenvWait.waited p <= VenvWait.interval * Z.of_nat (VenvWait.rounds 4))%Z
    /\ (b = false ->
        (4 * 1000 <= VenvWait.waited p)%Z
        /\ Executor.success (VenvWait.exec w (VenvWait.commands p - 1)) = false).
Proof.
  intros w.
  apply (VenvWaitProps.waitForVenvPythonVersion_gives_up w "/ws" "3.12" 4 2 eq_refl).
  vm_compute. lia.
Defined.

(** The interpreter of the environment is 3.11 and 3.12 is expected. *)
Lemma waitForVenvPythonVersion_lenient_witness :
  let w := VenvWait.World (fun _ => Executor.Result true "Python 3.11.0" (Some ""))
                          (fun _ => true) in
  exists p,
    VenvWait.waitForVenvPythonVersion w (Some "/ws") "3.12" 60 30 = Some (true, p).
Proof.
  intros w.
  apply (VenvWaitProps.waitForVenvPythonVersion_lenient w "/ws" "3.12" 60 30).
  - done.
  - done.
  - vm_compute. lia.
Defined.

Example waitForVenvPythonVersion_mismatch :
  VenvWait.waitForVenvPythonVersion
    (VenvWait.World (fun _ => Executor.Result true "Python 3.11.0" (Some ""))
                    (fun _ => true))
    (Some "/ws") "3.12" 60 30
  = Some (true, VenvWait.Progress 2 1 0).
Proof. reflexivity. Qed.
